(** * Bridge-plan title-sheet extraction: text extractor, text normalizer
      and batch driver

    A shallow embedding of [tool.py] ([extract_title_text_from_pdf],
    [filter_target_section]) and of the batch loop of [main.py].

    Strings are sequences of code points U+0000..U+00FF (one [ascii] per
    code point).  Character classes follow CPython's [str] rules on that
    range: [\s] and [str.strip()] share one whitespace set, [\w] is
    "alphanumeric or underscore", [\d] is the decimal digits. *)

From Stdlib Require Import String Ascii List Arith Bool ZArith Lia.
Import ListNotations.

Set Implicit Arguments.

(** ** Strings and character classes *)

Definition str := list ascii.

(** A string literal of the source. *)
Definition lit (s : string) : str := list_ascii_of_string s.
Arguments lit : simpl never.

Definition code (c : ascii) : nat := nat_of_ascii c.

(** The character [\n]. *)
Definition newline : ascii := ascii_of_nat 10.

Definition between (lo hi n : nat) : bool := (lo <=? n) && (n <=? hi).

(** [str.isspace] on one character; also the class [\s]. *)
Definition isspace (c : ascii) : bool :=
  let n := code c in
  between 9 13 n || between 28 32 n || (n =? 133) || (n =? 160).

(** The class [\d]. *)
Definition isdecimal (c : ascii) : bool := between 48 57 (code c).

(** [str.isalnum] on one character. *)
Definition isalnum (c : ascii) : bool :=
  let n := code c in
  between 48 57 n || between 65 90 n || between 97 122 n
  || (n =? 170) || between 178 179 n || (n =? 181) || between 185 186 n
  || between 188 190 n || between 192 214 n || between 216 246 n
  || between 248 255 n.

(** The class [\w]. *)
Definition isword (c : ascii) : bool := isalnum c || (code c =? 95).

(** [str.lower] on one character. *)
Definition lower (c : ascii) : ascii :=
  let n := code c in
  if between 65 90 n || between 192 214 n || between 216 222 n
  then ascii_of_nat (n + 32) else c.

(** Code point of the simple upper-case mapping; it leaves the range for
    U+00B5 and U+00FF. *)
Definition upper_code (c : ascii) : nat :=
  let n := code c in
  if between 97 122 n || between 224 246 n || between 248 254 n then n - 32
  else if n =? 181 then 924
  else if n =? 255 then 376
  else n.

Definition lower_str (s : str) : str := map lower s.

Fixpoint lstrip (s : str) : str :=
  match s with
  | c :: t => if isspace c then lstrip t else s
  | [] => []
  end.

Definition rstrip (s : str) : str := rev (lstrip (rev s)).

(** [str.strip()] without argument. *)
Definition strip (s : str) : str := lstrip (rstrip s).

Fixpoint startswith (p s : str) : bool :=
  match p, s with
  | [], _ => true
  | a :: p', b :: s' => Ascii.eqb a b && startswith p' s'
  | _ :: _, [] => false
  end.

(** [s.endswith(p)]. *)
Definition endswith (s p : str) : bool := startswith (rev p) (rev s).

(** [p in s]. *)
Fixpoint contains (p s : str) : bool :=
  startswith p s || match s with [] => false | _ :: t => contains p t end.

(** [sep.join(parts)]. *)
Fixpoint join (sep : str) (parts : list str) : str :=
  match parts with
  | [] => []
  | [p] => p
  | p :: rest => p ++ sep ++ join sep rest
  end.

(** ** The regular expressions of [re], as far as the patterns of
       [tool.py] use them *)

Module Re.

Inductive cclass :=
| Space                      (* \s *)
| Digit                      (* \d *)
| Range (lo hi : ascii).     (* [lo-hi] *)

Inductive regex :=
| Eps
| Chr (c : ascii)                              (* a literal character *)
| Cls (k : cclass)
| Cat (a b : regex)
| Alt (a b : regex)                            (* a|b *)
| Rep (k : cclass) (lo : nat) (hi : option nat)  (* greedy k{lo,hi} *)
| Opt (r : regex)                              (* (?:r)? *)
| Grp (n : nat) (r : regex)                    (* capturing group n *)
| Bnd.                                         (* \b *)

(** A run of literal characters. *)
Fixpoint word (s : str) : regex :=
  match s with
  | [] => Eps
  | [c] => Chr c
  | c :: t => Cat (Chr c) (word t)
  end.

Definition groups := list (nat * str).

Fixpoint group (n : nat) (g : groups) : str :=
  match g with
  | [] => []
  | (k, v) :: g' => if k =? n then v else group n g'
  end.

(** Replacement templates: literal text and [\n] group references. *)
Inductive titem := TLit (s : str) | TRef (n : nat).

Fixpoint expand (t : list titem) (g : groups) : str :=
  match t with
  | [] => []
  | TLit s :: t' => s ++ expand t' g
  | TRef n :: t' => group n g ++ expand t' g
  end.

Section Matcher.

(** [re.IGNORECASE] *)
Variable ic : bool.

Definition chr_match (p c : ascii) : bool :=
  if ic then Ascii.eqb (lower c) (lower p) else Ascii.eqb c p.

Definition in_range (lo hi : ascii) (n : nat) : bool :=
  between (code lo) (code hi) n.

Definition cls_match (k : cclass) (c : ascii) : bool :=
  match k with
  | Space => isspace c
  | Digit => isdecimal c
  | Range lo hi =>
      if ic
      then in_range lo hi (code (lower c))
           || in_range lo hi (upper_code (lower c))
      else in_range lo hi (code c)
  end.

(** [\b]: exactly one side of the position is a word character. *)
Definition at_boundary (prev : option ascii) (s : str) : bool :=
  let before := match prev with Some c => isword c | None => false end in
  let after := match s with c :: _ => isword c | [] => false end in
  xorb before after.

Definition room (hi : option nat) : bool :=
  match hi with Some 0 => false | _ => true end.

Section Cont.
Variable A : Type.

(** What is left to match: previous character, rest of the subject,
    groups so far. *)
Definition cont := option ascii -> str -> groups -> option A.

(** Greedy repetition of a one-character class: take as many as
    allowed, give back one at a time. *)
Fixpoint rep (k : cclass) (lo : nat) (hi : option nat)
    (prev : option ascii) (s : str) (g : groups) (kt : cont)
    {struct s} : option A :=
  let stop := match lo with 0 => kt prev s g | S _ => None end in
  match s with
  | [] => stop
  | c :: t =>
      if cls_match k c && room hi then
        match rep k (pred lo) (option_map pred hi) (Some c) t g kt with
        | Some r => Some r
        | None => stop
        end
      else stop
  end.

(** Backtracking matcher: alternatives in order, first success wins. *)
Fixpoint run (r : regex) (prev : option ascii) (s : str) (g : groups)
    (kt : cont) {struct r} : option A :=
  match r with
  | Eps => kt prev s g
  | Chr p =>
      match s with
      | c :: t => if chr_match p c then kt (Some c) t g else None
      | [] => None
      end
  | Cls k =>
      match s with
      | c :: t => if cls_match k c then kt (Some c) t g else None
      | [] => None
      end
  | Cat a b => run a prev s g (fun p' s' g' => run b p' s' g' kt)
  | Alt a b =>
      match run a prev s g kt with
      | Some x => Some x
      | None => run b prev s g kt
      end
  | Rep k lo hi => rep k lo hi prev s g kt
  | Opt a =>
      match run a prev s g kt with
      | Some x => Some x
      | None => kt prev s g
      end
  | Grp n a =>
      run a prev s g
        (fun p' s' g' =>
           kt p' s' ((n, firstn (length s - length s') s) :: g'))
  | Bnd => if at_boundary prev s then kt prev s g else None
  end.
End Cont.

(** A match starting at the current position: its length and groups. *)
Definition match_at (r : regex) (prev : option ascii) (s : str)
    : option (nat * groups) :=
  run r prev s [] (fun _ s' g => Some (length s - length s', g)).

(** [re.sub(r, t, s)]: scan left to right; [skip] characters of the
    current match are still to be passed over. *)
Fixpoint sub_go (r : regex) (t : list titem) (prev : option ascii)
    (s : str) (skip : nat) {struct s} : str :=
  match skip with
  | S k =>
      match s with
      | [] => []
      | c :: s' => sub_go r t (Some c) s' k
      end
  | 0 =>
      match match_at r prev s with
      | Some (n, g) =>
          expand t g ++
          match s with
          | [] => []
          | c :: s' =>
              match n with
              | 0 => c :: sub_go r t (Some c) s' 0
              | S n' => sub_go r t (Some c) s' n'
              end
          end
      | None =>
          match s with
          | [] => []
          | c :: s' => c :: sub_go r t (Some c) s' 0
          end
      end
  end.

Definition sub (r : regex) (t : list titem) (s : str) : str :=
  sub_go r t None s 0.

End Matcher.

End Re.

Import Re.

(** ** [filter_target_section] *)

(** [(CONTRACT)\s*FOR] *)
Definition pat_contract_for : regex :=
  Cat (Grp 1 (word (lit "CONTRACT"))) (Cat (Rep Space 0 None) (word (lit "FOR"))).

(** [(CONTRACT FOR)([A-Z])] *)
Definition pat_squished : regex :=
  Cat (Grp 1 (word (lit "CONTRACT FOR"))) (Grp 2 (Cls (Range "A" "Z"))).

(** [\bJN\b] *)
Definition pat_jn : regex := Cat Bnd (Cat (word (lit "JN")) Bnd).

(** [\bDATE\b] *)
Definition pat_date : regex := Cat Bnd (Cat (word (lit "DATE")) Bnd).

(** [TITLE SHEET|DRAWING|SHEET|TITLE|DESIGN] *)
Definition noise_tokens : list str :=
  [lit "TITLE SHEET"; lit "DRAWING"; lit "SHEET"; lit "TITLE"; lit "DESIGN"].

Definition pat_noise : regex :=
  Alt (word (lit "TITLE SHEET"))
    (Alt (word (lit "DRAWING"))
       (Alt (word (lit "SHEET")) (Alt (word (lit "TITLE")) (word (lit "DESIGN"))))).

(** [\s+of\s+\d{5}] *)
Definition pat_of_5 : regex :=
  Cat (Rep Space 1 None)
    (Cat (word (lit "of")) (Cat (Rep Space 1 None) (Rep Digit 5 (Some 5)))).

(** [\b[A-Z]\d{2}(?:-\d{1,5}(?:\s+of\s+\d{5})?|\s+of\s+\d{5})\b] *)
Definition pat_structure : regex :=
  Cat Bnd
    (Cat (Cls (Range "A" "Z"))
       (Cat (Rep Digit 2 (Some 2))
          (Cat (Alt (Cat (Chr "-") (Cat (Rep Digit 1 (Some 5)) (Opt pat_of_5)))
                  pat_of_5)
             Bnd))).

(** [\s{2,}] *)
Definition pat_spaces : regex := Rep Space 2 None.

Definition fix_contract_for (text : str) : str :=
  sub true pat_contract_for [TLit (lit "CONTRACT FOR")] text.

Definition insert_colon (text : str) : str :=
  sub true pat_squished [TRef 1; TLit (lit ": "); TRef 2] text.

Definition mark_job_number (text : str) : str :=
  sub true pat_jn [TLit (lit " Job Number ")] text.

Definition mark_date (text : str) : str :=
  sub true pat_date [TLit (lit " Date ")] text.

Definition remove_noise (text : str) : str :=
  sub true pat_noise [TLit (lit "")] text.

Definition remove_structure_number (text : str) : str :=
  sub true pat_structure [TLit (lit "")] text.

Definition collapse_whitespace (text : str) : str :=
  sub false pat_spaces [TLit (lit " ")] text.

Definition filter_target_section (text : str) : str :=
  let text := fix_contract_for text in
  let text := insert_colon text in
  let text := mark_job_number text in
  let text := mark_date text in
  let text := remove_noise text in
  let text := remove_structure_number text in
  let text := collapse_whitespace text in
  strip text.

(** ** Exceptions and effects *)

(** What a [try] block can catch with [except Exception]. *)
Inductive exn :=
| LibError (msg : str)           (* raised inside a library call; [msg] is [str(e)] *)
| IndexError                     (* subscript of an empty list *)
| UnboundLocalError (name : str). (* a local read before any assignment *)

Module Eff.
Section Eff.
(** The calls a function makes, in order. *)
Variable E : Type.

Definition M (A : Type) : Type := list E -> (exn + A) * list E.

Definition ret {A} (a : A) : M A := fun tr => (inr a, tr).

Definition bind {A B} (c : M A) (k : A -> M B) : M B :=
  fun tr =>
    match c tr with
    | (inr a, tr') => k a tr'
    | (inl e, tr') => (inl e, tr')
    end.

Definition raise {A} (e : exn) : M A := fun tr => (inl e, tr).

(** An outside call: it is logged, then returns or raises. *)
Definition call {A} (ev : E) (outcome : exn + A) : M A :=
  fun tr => (outcome, tr ++ [ev]).

(** [try: c  except Exception as e: return h e] around a body that ends
    in [return]. *)
Definition try_return {A} (c : M A) (h : exn -> A) : list E -> A * list E :=
  fun tr =>
    match c tr with
    | (inr a, tr') => (a, tr')
    | (inl e, tr') => (h e, tr')
    end.

(** [try: c  except Exception as e: h e] *)
Definition try_except {A} (c : M A) (h : exn -> M A) : M A :=
  fun tr =>
    match c tr with
    | (inr a, tr') => (inr a, tr')
    | (inl e, tr') => h e tr'
    end.
End Eff.
End Eff.

Import Eff.

Declare Scope eff_scope.
Delimit Scope eff_scope with eff.
Notation "x <- c ;; k" := (bind c (fun x => k))
  (at level 61, c at next level, right associativity) : eff_scope.
Notation "c ;;; k" := (bind c (fun _ => k))
  (at level 61, right associativity) : eff_scope.

(** ** [extract_title_text_from_pdf] *)

(** [Tuple[int, int, int, int]] *)
Definition region : Type := (Z * Z * Z * Z)%type.

(** One element of the OCR result: a dict from keys to lists of strings. *)
Definition ocr_res : Type := list (str * list str).

Fixpoint dict_get (key : str) (d : ocr_res) : option (list str) :=
  match d with
  | [] => None
  | (k, v) :: d' =>
      if list_eq_dec ascii_dec k key then Some v else dict_get key d'
  end.

(** The calls [extract_title_text_from_pdf] makes. *)
Inductive tool_event :=
| EvPrint (msg : str)
| EvOpen (pdf_path : str)
| EvLoadPage (n : nat)
| EvRect (r : region)
| EvGetText (clipped : bool)
| EvClose
| EvConvertFromPath (pdf_path : str) (first_page last_page dpi : nat)
| EvCrop (r : region)
| EvNpArray
| EvPredict.

(** Events of the OCR fallback (Method 2). *)
Definition is_ocr_event (ev : tool_event) : bool :=
  match ev with
  | EvConvertFromPath _ _ _ _ | EvCrop _ | EvNpArray | EvPredict => true
  | _ => false
  end.

Definition is_convert (ev : tool_event) : bool :=
  match ev with EvConvertFromPath _ _ _ _ => true | _ => false end.

Definition is_predict (ev : tool_event) : bool :=
  match ev with EvPredict => true | _ => false end.

Section Extractor.

(** Handles of the PDF, imaging and OCR libraries. *)
Variables Doc Page Rect Image NdArray : Type.

(** The libraries: every call returns or raises. *)
Record libs := {
  pymupdf_open : str -> exn + Doc;
  load_page : Doc -> nat -> exn + Page;
  pymupdf_Rect : region -> exn + Rect;
  get_text : Page -> option Rect -> exn + str;
  doc_close : Doc -> exn + unit;
  convert_from_path : str -> nat -> nat -> nat -> exn + list Image;
  img_crop : Image -> region -> exn + Image;
  np_array : Image -> exn + NdArray;
  ocr_predict : NdArray -> exn + list ocr_res
}.

(** [str(e)] of an [UnboundLocalError] for a given variable; the
    wording depends on the interpreter. *)
Variable unbound_local_message : str -> str.

Definition exn_str (e : exn) : str :=
  match e with
  | LibError msg => msg
  | IndexError => lit "list index out of range"
  | UnboundLocalError name => unbound_local_message name
  end.

Variable W : libs.

Local Open Scope eff_scope.

Definition print (msg : str) : M tool_event unit := call (EvPrint msg) (inr tt).

(** The loop over [ocr_result]: [full_text] is unbound ([None]) until
    an element with the key assigns it. *)
Definition assign_full_text (full_text : option str) (res : ocr_res)
    : option str :=
  match dict_get (lit "rec_texts") res with
  | Some lines => Some (join [newline] lines)
  | None => full_text
  end.

(** Lines 19-56, the body of the [try]. *)
Definition extract_body (pdf_path : str) (rg : option region)
    : M tool_event str :=
  doc <- call (EvOpen pdf_path) (pymupdf_open W pdf_path) ;;
  first_page <- call (EvLoadPage 0) (load_page W doc 0) ;;
  text <- match rg with
          | Some r =>
              clip <- call (EvRect r) (pymupdf_Rect W r) ;;
              call (EvGetText true) (get_text W first_page (Some clip))
          | None => call (EvGetText false) (get_text W first_page None)
          end ;;
  call EvClose (doc_close W doc) ;;;
  if negb (length text =? 0) && (20 <? length (strip text)) then
    print (lit "Successfully extracted text directly from PDF.") ;;;
    ret text
  else
    print (lit "Direct text extraction failed or insufficient. Falling back to OCR.") ;;;
    images <- call (EvConvertFromPath pdf_path 1 1 300)
                (convert_from_path W pdf_path 1 1 300) ;;
    img <- match images with
           | i :: _ => ret i
           | [] => raise IndexError
           end ;;
    img <- match rg with
           | Some r => call (EvCrop r) (img_crop W img r)
           | None => ret img
           end ;;
    img_array <- call EvNpArray (np_array W img) ;;
    print (lit "Running OCR on title page image...") ;;;
    ocr_result <- call EvPredict (ocr_predict W img_array) ;;
    match ocr_result with
    | _ :: _ =>
        match fold_left assign_full_text ocr_result None with
        | Some full_text => ret full_text
        | None => raise (UnboundLocalError (lit "full_text"))
        end
    | [] => ret (lit "OCR processing returned no results.")
    end.

(** The whole function, with its calls. *)
Definition extract_run (pdf_path : str) (rg : option region)
    : str * list tool_event :=
  try_return (extract_body pdf_path rg)
    (fun e => lit "OCR extraction failed: " ++ exn_str e) [].

Definition extract_title_text_from_pdf (pdf_path : str) (rg : option region)
    : str :=
  fst (extract_run pdf_path rg).

(** The calls made during one run. *)
Definition extract_calls (pdf_path : str) (rg : option region)
    : list tool_event :=
  snd (extract_run pdf_path rg).

(** [ocr_tool]: the extractor at the fixed region. *)
Definition ocr_tool (pdf_path : str) : str :=
  extract_title_text_from_pdf pdf_path (Some (2550, 1650, 5100, 3300)%Z).

End Extractor.

(** ** The batch loop of [main.py] *)

(** The pydantic model. *)
Record BridgeWork := {
  job_number : str;
  proposed_work : list str;
  date : str
}.

(** One appended dict of [results]. *)
Record ResultRow := {
  row_file_name : str;
  row_job_number : str;
  row_proposed_work : str;
  row_date : str
}.

Inductive main_event :=
| MPrint (msg : str)
| MInvoke (query : str)
| MParse (output : option str).

Fixpoint get_output (raw_response : list (str * str)) : option str :=
  match raw_response with
  | [] => None
  | (k, v) :: d =>
      if list_eq_dec ascii_dec k (lit "output") then Some v else get_output d
  end.

Section Batch.

(** [agent_executor.invoke], [parser.parse], [os.path.join] and the
    rendering of a caught exception. *)
Variable agent_invoke : str -> exn + list (str * str).
Variable parser_parse : option str -> exn + BridgeWork.
Variable path_join : str -> str -> str.
Variable unbound_local_message : str -> str.

Variable folder_path : str.

Local Open Scope eff_scope.

Definition mprint (msg : str) : M main_event unit := call (MPrint msg) (inr tt).

Definition is_pdf (filename : str) : bool :=
  endswith (lower_str filename) (lit ".pdf").

(** Lines 90-100, the body of the [try]. *)
Definition try_document (results : list ResultRow) (filename file_path : str)
    : M main_event (list ResultRow) :=
  let query := lit "Extract job number, proposed work and date from " ++ file_path in
  raw_response <- call (MInvoke query) (agent_invoke query) ;;
  let output := get_output raw_response in
  structured_response <- call (MParse output) (parser_parse output) ;;
  ret (results ++
       [ {| row_file_name := filename;
            row_job_number := job_number structured_response;
            row_proposed_work := join (lit ", ") (proposed_work structured_response);
            row_date := join (lit "") (map (fun c => [c]) (date structured_response)) |} ]).

(** Lines 102-109, the handler. *)
Definition on_error (results : list ResultRow) (filename : str) (e : exn)
    : M main_event (list ResultRow) :=
  mprint (lit " Error processing " ++ filename ++ lit ": " ++ exn_str unbound_local_message e) ;;;
  ret (results ++
       [ {| row_file_name := filename;
            row_job_number := lit "";
            row_proposed_work := lit "";
            row_date := lit "Error: " ++ exn_str unbound_local_message e |} ]).

(** Lines 85-109, over the names [os.listdir] gave. *)
Fixpoint batch_loop (files : list str) (results : list ResultRow)
    : M main_event (list ResultRow) :=
  match files with
  | [] => ret results
  | filename :: rest =>
      if is_pdf filename then
        let file_path := path_join folder_path filename in
        mprint (newline :: lit " Processing: " ++ filename) ;;;
        results <- try_except (try_document results filename file_path)
                     (on_error results filename) ;;
        batch_loop rest results
      else batch_loop rest results
  end.

(** [results] after the loop, started empty. *)
Definition batch (files : list str) : (exn + list ResultRow) * list main_event :=
  batch_loop files [] [].

End Batch.

(** ** Vocabulary of the statements *)

Section ExtractorStages.

Variables Doc Page Rect Image NdArray : Type.
Variable W : libs Doc Page Rect Image NdArray.

(** Method 1 alone (lines 19-26): the text it yields, or what it raises. *)
Definition direct_stage (pdf_path : str) (rg : option region) : exn + str :=
  match pymupdf_open W pdf_path with
  | inl e => inl e
  | inr doc =>
      match load_page W doc 0 with
      | inl e => inl e
      | inr first_page =>
          let got :=
            match rg with
            | Some r =>
                match pymupdf_Rect W r with
                | inl e => inl e
                | inr clip => get_text W first_page (Some clip)
                end
            | None => get_text W first_page None
            end in
          match got with
          | inl e => inl e
          | inr text =>
              match doc_close W doc with
              | inl e => inl e
              | inr _ => inr text
              end
          end
      end
  end.

(** Rasterization of Method 2 (lines 36-43): the array handed to the
    OCR model, or what is raised on the way. *)
Definition raster_stage (pdf_path : str) (rg : option region) : exn + NdArray :=
  match convert_from_path W pdf_path 1 1 300 with
  | inl e => inl e
  | inr [] => inl IndexError
  | inr (img :: _) =>
      let cropped :=
        match rg with
        | Some r => img_crop W img r
        | None => inr img
        end in
      match cropped with
      | inl e => inl e
      | inr img' => np_array W img'
      end
  end.

(** Lines 50-56: what the function returns for a recognition result, or
    what it raises. *)
Definition ocr_text (ocr_result : list ocr_res) : exn + str :=
  match ocr_result with
  | [] => inr (lit "OCR processing returned no results.")
  | _ :: _ =>
      match fold_left assign_full_text ocr_result None with
      | Some full_text => inr full_text
      | None => inl (UnboundLocalError (lit "full_text"))
      end
  end.

(** Method 2 alone (lines 36-56). *)
Definition fallback_stage (pdf_path : str) (rg : option region) : exn + str :=
  match raster_stage pdf_path rg with
  | inl e => inl e
  | inr img_array =>
      match ocr_predict W img_array with
      | inl e => inl e
      | inr ocr_result => ocr_text ocr_result
      end
  end.

End ExtractorStages.



(** The lines of the last element that carries the key. *)
Fixpoint last_rec_texts (ocr_result : list ocr_res) : option (list str) :=
  match ocr_result with
  | [] => None
  | res :: rest =>
      match last_rec_texts rest with
      | Some lines => Some lines
      | None => dict_get (lit "rec_texts") res
      end
  end.

Definition error_prefix : str := lit "OCR extraction failed: ".

(** The handler of line 59, applied to what a stage came to. *)
Definition render (umsg : str -> str) (r : exn + str) : str :=
  match r with
  | inr text => text
  | inl e => error_prefix ++ exn_str umsg e
  end.

(** Libraries over one-point handle types, for concrete runs: the PDF
    opens, its first page has text layer [text], rasterization gives one
    image and the OCR model answers [ocr]. *)
Definition demo_libs (text : str) (ocr : exn + list ocr_res)
    : libs unit unit unit unit unit :=
  {| pymupdf_open := fun _ => inr tt;
     load_page := fun _ _ => inr tt;
     pymupdf_Rect := fun _ => inr tt;
     get_text := fun _ _ => inr text;
     doc_close := fun _ => inr tt;
     convert_from_path := fun _ _ _ _ => inr [tt];
     img_crop := fun _ _ => inr tt;
     np_array := fun _ => inr tt;
     ocr_predict := fun _ => ocr |}.

(** The same, with a PDF that cannot be opened. *)
Definition broken_libs (msg : str) : libs unit unit unit unit unit :=
  {| pymupdf_open := fun _ => inl (LibError msg);
     load_page := fun _ _ => inr tt;
     pymupdf_Rect := fun _ => inr tt;
     get_text := fun _ _ => inr [];
     doc_close := fun _ => inr tt;
     convert_from_path := fun _ _ _ _ => inr [tt];
     img_crop := fun _ _ => inr tt;
     np_array := fun _ => inr tt;
     ocr_predict := fun _ => inr [] |}.

(** A recognition result whose only element lacks the key. *)
Definition keyless : list ocr_res :=
  [ [(lit "rec_scores", [])] ].

(** The interpreter's wording since Python 3.11. *)
Definition unbound_local_311 (name : str) : str :=
  lit "cannot access local variable '" ++ name
  ++ lit "' where it is not associated with a value".

Section BatchRows.

Variable agent_invoke : str -> exn + list (str * str).
Variable parser_parse : option str -> exn + BridgeWork.
Variable path_join : str -> str -> str.
Variable unbound_local_message : str -> str.
Variable folder_path : str.

(** What the [try] body of one document comes to. *)
Definition document_outcome (filename : str) : exn + BridgeWork :=
  let query := lit "Extract job number, proposed work and date from "
               ++ path_join folder_path filename in
  match agent_invoke query with
  | inl e => inl e
  | inr raw_response => parser_parse (get_output raw_response)
  end.

Definition success_row (filename : str) (sr : BridgeWork) : ResultRow :=
  {| row_file_name := filename;
     row_job_number := job_number sr;
     row_proposed_work := join (lit ", ") (proposed_work sr);
     row_date := date sr |}.

Definition failure_row (filename : str) (e : exn) : ResultRow :=
  {| row_file_name := filename;
     row_job_number := [];
     row_proposed_work := [];
     row_date := lit "Error: " ++ exn_str unbound_local_message e |}.

Definition row_of (filename : str) : ResultRow :=
  match document_outcome filename with
  | inr sr => success_row filename sr
  | inl e => failure_row filename e
  end.

End BatchRows.

(** A model call that fails on the second of three documents. *)
Definition demo_invoke (query : str) : exn + list (str * str) :=
  if contains (lit "b.pdf") query
  then inl (LibError (lit "rate limit"))
  else inr [(lit "output", lit "{}")].

Definition demo_parse (output : option str) : exn + BridgeWork :=
  match output with
  | Some _ => inr {| job_number := lit "123456";
                     proposed_work := [lit "BRIDGE REPLACEMENT"];
                     date := lit "5/1/2024" |}
  | None => inl (LibError (lit "no output"))
  end.

Definition demo_files : list str :=
  [lit "a.pdf"; lit "notes.txt"; lit "b.pdf"; lit "C.PDF"].

(** ** What a pattern matches *)

(** The character before the position once [m] has been read. *)
Definition last_of (prev : option ascii) (m : str) : option ascii :=
  fold_left (fun _ c => Some c) m prev.

Definition within (hi : option nat) (n : nat) : Prop :=
  match hi with
  | Some h => n <= h
  | None => True
  end.

(** [matches ic r prev s prev' s']: read from the position with rest [s]
    and previous character [prev], the pattern [r] can end at the
    position with rest [s'] and previous character [prev']. *)
Fixpoint matches (ic : bool) (r : regex) (prev : option ascii) (s : str)
    (prev' : option ascii) (s' : str) : Prop :=
  match r with
  | Eps => prev' = prev /\ s' = s
  | Chr a => exists c, s = c :: s' /\ chr_match ic a c = true /\ prev' = Some c
  | Cls k => exists c, s = c :: s' /\ cls_match ic k c = true /\ prev' = Some c
  | Cat a b =>
      exists p1 s1, matches ic a prev s p1 s1 /\ matches ic b p1 s1 prev' s'
  | Alt a b => matches ic a prev s prev' s' \/ matches ic b prev s prev' s'
  | Rep k lo hi =>
      exists m, s = m ++ s' /\ forallb (cls_match ic k) m = true
                /\ lo <= length m /\ within hi (length m)
                /\ prev' = last_of prev m
  | Opt a => matches ic a prev s prev' s' \/ (prev' = prev /\ s' = s)
  | Grp _ a => matches ic a prev s prev' s'
  | Bnd => at_boundary prev s = true /\ prev' = prev /\ s' = s
  end.

(** ** Vocabulary of the normalizer statements *)

(** Two neighbouring whitespace characters somewhere in the text. *)
Fixpoint has_space_pair (s : str) : bool :=
  match s with
  | a :: (b :: _) as t => (isspace a && isspace b) || has_space_pair t
  | _ => false
  end.

(** The first character, if any, is not whitespace. *)
Definition starts_clean (s : str) : bool :=
  match s with
  | c :: _ => negb (isspace c)
  | [] => true
  end.

(** The last character, if any, is not whitespace. *)
Definition ends_clean (s : str) : bool := starts_clean (rev s).

(** Length of the leading run of whitespace. *)
Fixpoint span (s : str) : nat :=
  match s with
  | c :: t => if isspace c then S (span t) else 0
  | [] => 0
  end.

(** [w] is a prefix of [s], letter case ignored. *)
Fixpoint startswith_ci (w s : str) : bool :=
  match w, s with
  | [], _ => true
  | a :: w', b :: s' => Ascii.eqb (lower b) (lower a) && startswith_ci w' s'
  | _ :: _, [] => false
  end.

(** [w] occurs in [s], letter case ignored. *)
Fixpoint contains_ci (w s : str) : bool :=
  startswith_ci w s || match s with [] => false | _ :: t => contains_ci w t end.

(** [w] is one of the boilerplate tokens in some letter case. *)
Definition is_noise (w : str) : bool :=
  existsb (fun tok => (length w =? length tok) && startswith_ci tok w) noise_tokens.

(** No boilerplate token occurs in [s], in any letter case. *)
Definition noise_free (s : str) : bool :=
  forallb (fun tok => negb (contains_ci tok s)) noise_tokens.

(** The text is empty or begins with a character that is no word
    character. *)
Definition sep_start (s : str) : bool :=
  match s with
  | c :: _ => negb (isword c)
  | [] => true
  end.

(** Only word characters. *)
Definition word_only (w : str) : bool := forallb isword w.

(** No word character. *)
Definition sep_only (w : str) : bool := forallb (fun c => negb (isword c)) w.

(** A text cut into kept stretches, each followed by a deleted one, and a
    last kept stretch. *)
Definition weave (cuts : list (str * str)) (last_kept : str) : str :=
  concat (map (fun kd => fst kd ++ snd kd) cuts) ++ last_kept.

Definition kept (cuts : list (str * str)) (last_kept : str) : str :=
  concat (map fst cuts) ++ last_kept.

(** The text that reaches step 5. *)
Definition before_noise_removal (text : str) : str :=
  mark_date (mark_job_number (insert_colon (fix_contract_for text))).

(** Steps 1 to 6 in a row. *)
Definition rewrite_tokens (text : str) : str :=
  remove_structure_number (remove_noise (before_noise_removal text)).

(** The spec's sample inputs of the normalizer. *)
Definition sample_inputs : list str :=
  [ lit "B01-22222 JN 123456";
    lit "CONTRACTFORBRIDGEREPLACEMENT";
    lit "JN 201222A CONTRACTFOR BRIDGE REPLACEMENT DATE 5/1/2024" ].

(** ** Vocabulary of the further statements *)

Definition is_open (ev : tool_event) : bool :=
  match ev with EvOpen _ => true | _ => false end.

Definition is_close (ev : tool_event) : bool :=
  match ev with EvClose => true | _ => false end.

(** How many of the calls satisfy [p]. *)
Definition count_calls {E : Type} (p : E -> bool) (calls : list E) : nat :=
  length (filter p calls).

Section ReadStage.

Variables Doc Page Rect Image NdArray : Type.
Variable W : libs Doc Page Rect Image NdArray.

(** Lines 20-25 on an opened document: the page text, or what is raised. *)
Definition read_stage (doc : Doc) (rg : option region) : exn + str :=
  match load_page W doc 0 with
  | inl e => inl e
  | inr first_page =>
      match rg with
      | Some r =>
          match pymupdf_Rect W r with
          | inl e => inl e
          | inr clip => get_text W first_page (Some clip)
          end
      | None => get_text W first_page None
      end
  end.

End ReadStage.

(** Libraries whose first page cannot be loaded. *)
Definition unreadable_libs (msg : str) : libs unit unit unit unit unit :=
  {| pymupdf_open := fun _ => inr tt;
     load_page := fun _ _ => inl (LibError msg);
     pymupdf_Rect := fun _ => inr tt;
     get_text := fun _ _ => inr [];
     doc_close := fun _ => inr tt;
     convert_from_path := fun _ _ _ _ => inr [tt];
     img_crop := fun _ _ => inr tt;
     np_array := fun _ => inr tt;
     ocr_predict := fun _ => inr [] |}.

(** Libraries whose rasterization gives no image. *)
Definition imageless_libs : libs unit unit unit unit unit :=
  {| pymupdf_open := fun _ => inr tt;
     load_page := fun _ _ => inr tt;
     pymupdf_Rect := fun _ => inr tt;
     get_text := fun _ _ => inr [];
     doc_close := fun _ => inr tt;
     convert_from_path := fun _ _ _ _ => inr [];
     img_crop := fun _ _ => inr tt;
     np_array := fun _ => inr tt;
     ocr_predict := fun _ => inr [] |}.

Definition is_invoke (ev : main_event) : bool :=
  match ev with MInvoke _ => true | _ => false end.

Definition is_parse (ev : main_event) : bool :=
  match ev with MParse _ => true | _ => false end.

(** The query line 90 builds for a file name. *)
Definition query_of (path_join : str -> str -> str) (folder_path filename : str)
    : str :=
  lit "Extract job number, proposed work and date from "
  ++ path_join folder_path filename.

(** The agent call for this file name returns. *)
Definition invoke_returns (agent_invoke : str -> exn + list (str * str))
    (path_join : str -> str -> str) (folder_path filename : str) : bool :=
  match agent_invoke (query_of path_join folder_path filename) with
  | inr _ => true
  | inl _ => false
  end.

(** An ASCII letter of either case. *)
Definition is_ascii_letter (c : ascii) : bool :=
  between 65 90 (code c) || between 97 122 (code c).

(** The decimal digits of a text, in order. *)
Definition digits (s : str) : str := filter isdecimal s.

(** Every character. *)
Definition all_chars : list ascii := map ascii_of_nat (seq 0 256).

(** The pattern can read no decimal digit. *)
Fixpoint no_digit (ic : bool) (r : regex) : bool :=
  match r with
  | Eps | Bnd => true
  | Chr a => forallb (fun c => negb (chr_match ic a c && isdecimal c)) all_chars
  | Cls k | Rep k _ _ =>
      forallb (fun c => negb (cls_match ic k c && isdecimal c)) all_chars
  | Cat a b | Alt a b => no_digit ic a && no_digit ic b
  | Opt a | Grp _ a => no_digit ic a
  end.

(** The replacement writes no decimal digit of its own. *)
Definition template_no_digit (t : list titem) : bool :=
  forallb (fun it => match it with
                     | TLit l => forallb (fun c => negb (isdecimal c)) l
                     | TRef _ => true
                     end) t.

(** Whatever the pattern matches begins with an ASCII letter (patterns
    compiled with [re.IGNORECASE]). *)
Fixpoint needs_letter (r : regex) : bool :=
  match r with
  | Chr a => forallb (fun c => implb (chr_match true a c) (is_ascii_letter c)) all_chars
  | Cls k => forallb (fun c => implb (cls_match true k c) (is_ascii_letter c)) all_chars
  | Cat Bnd b => needs_letter b
  | Cat a _ => needs_letter a
  | Alt a b => needs_letter a && needs_letter b
  | Grp _ a => needs_letter a
  | _ => false
  end.

(** No recorded group holds a digit. *)
Definition digit_free_groups (g : groups) : Prop :=
  Forall (fun kv => digits (snd kv) = []) g.

Definition letter_free (s : str) : bool :=
  forallb (fun c => negb (is_ascii_letter c)) s.

(** Every run of digits in [s] has at most five digits, [cur] digits
    standing right before [s]. *)
Fixpoint digit_runs_ok (cur : nat) (s : str) : bool :=
  match s with
  | [] => cur <=? 5
  | c :: t =>
      if isdecimal c then digit_runs_ok (S cur) t
      else (cur <=? 5) && digit_runs_ok 0 t
  end.

(** A letter, two digits, then a hyphen or whitespace. *)
Definition starts_like_structure (d : str) : bool :=
  match d with
  | l :: d1 :: d2 :: x :: _ =>
      is_ascii_letter l && isdecimal d1 && isdecimal d2
      && (Ascii.eqb x "-" || isspace x)
  | _ => false
  end.

Definition ends_with_digit (d : str) : bool :=
  match rev d with
  | e :: _ => isdecimal e
  | [] => false
  end.

(** The look of a stretch that step 6 deletes. *)
Definition structure_shaped (d : str) : bool :=
  starts_like_structure d && ends_with_digit d && digit_runs_ok 0 d.

(** [Q deleted after] holds for every deleted stretch of a cut text and
    the text that follows it. *)
Fixpoint cuts_ok (Q : str -> str -> Prop) (cuts : list (str * str))
    (last_kept : str) : Prop :=
  match cuts with
  | [] => True
  | (_, d) :: rest => Q d (weave rest last_kept) /\ cuts_ok Q rest last_kept
  end.

(** The error prefix without its final blank. *)
Definition error_marker : str := lit "OCR extraction failed:".

(** [m] spells [w] in some letter case. *)
Definition eq_ci (w m : str) : bool :=
  (length m =? length w) && startswith_ci w m.

(** The pattern has no [\b]. *)
Fixpoint bnd_free (r : regex) : bool :=
  match r with
  | Bnd => false
  | Cat a b | Alt a b => bnd_free a && bnd_free b
  | Opt a | Grp _ a => bnd_free a
  | _ => true
  end.

(** [\bw\b] for a word [w]. *)
Definition pat_token (w : str) : regex := Cat Bnd (Cat (word w) Bnd).

(** The text ends in a word character. *)
Definition ends_in_word (a : str) : bool :=
  match last_of None a with
  | Some c => isword c
  | None => false
  end.

(** ** Vocabulary of a whole substitution *)

(** A cut text with every cut stretch [d] rewritten to [rho d]. *)
Definition rewoven (rho : str -> str) (cuts : list (str * str))
    (last_kept : str) : str :=
  concat (map (fun kd => fst kd ++ rho (snd kd)) cuts) ++ last_kept.

(** No position of the kept stretch [k] starts what [occ] looks for;
    [prev] is the character before [k] and [after] the text behind it. *)
Fixpoint clear_in (occ : option ascii -> str -> Prop) (prev : option ascii)
    (k after : str) : Prop :=
  match k with
  | [] => True
  | c :: k' => ~ occ prev (k ++ after) /\ clear_in occ (Some c) k' after
  end.

(** A left-to-right scan cut the text like this: no position of a kept
    stretch starts what [occ] looks for, and every cut stretch [d], with
    the character before it and the text behind it, satisfies [Q]. *)
Fixpoint scanned (occ : option ascii -> str -> Prop)
    (Q : option ascii -> str -> str -> Prop) (prev : option ascii)
    (cuts : list (str * str)) (last_kept : str) : Prop :=
  match cuts with
  | [] => clear_in occ prev last_kept []
  | (k, d) :: rest =>
      clear_in occ prev k (d ++ weave rest last_kept)
      /\ Q (last_of prev k) d (weave rest last_kept)
      /\ scanned occ Q (last_of prev (k ++ d)) rest last_kept
  end.

(** [d] is the word CONTRACT, any run of whitespace and the word FOR, in
    any letter case. *)
Definition spells_contract_for (d : str) : Prop :=
  exists m1 ws m2,
    d = m1 ++ ws ++ m2 /\ eq_ci (lit "CONTRACT") m1 = true
    /\ forallb isspace ws = true /\ eq_ci (lit "FOR") m2 = true.

(** [s] begins with such a stretch. *)
Definition contract_for_at (s : str) : Prop :=
  exists d rest, s = d ++ rest /\ spells_contract_for d.




(** No word character stands before. *)
Definition sep_before (prev : option ascii) : bool :=
  match prev with
  | Some c => negb (isword c)
  | None => true
  end.

(** [d] spells [w] in some letter case and stands alone: no word
    character directly before it or behind it. *)
Definition alone (w : str) (prev : option ascii) (d after : str) : Prop :=
  eq_ci w d = true /\ sep_before prev = true /\ sep_start after = true.

Definition alone_at (w : str) (prev : option ascii) (s : str) : Prop :=
  exists d rest, s = d ++ rest /\ alone w prev d rest.

(** ** Vocabulary of the second pass *)

(** Equality of two texts. *)
Definition str_eqb (a b : str) : bool :=
  if list_eq_dec ascii_dec a b then true else false.

(** Every match of [r] in [s], at whatever position it starts, satisfies
    [ok]; [ok] sees the character before the match, the text from the
    start of the match on and the length of the match. *)
Fixpoint every_match (ok : option ascii -> str -> nat -> bool) (ic : bool)
    (r : regex) (prev : option ascii) (s : str) : bool :=
  match match_at ic r prev s with
  | Some (n, _) => ok prev s n
  | None => true
  end
  && match s with
     | [] => true
     | c :: t => every_match ok ic r (Some c) t
     end.

(** [r] matches at no position of [s]. *)
Definition no_match (ic : bool) (r : regex) (s : str) : bool :=
  every_match (fun _ _ _ => false) ic r None s.

(** The match is the text "CONTRACT FOR" as step 1 writes it. *)
Definition canonical_contract_for (_ : option ascii) (s : str) (n : nat)
    : bool :=
  str_eqb (firstn n s) (lit "CONTRACT FOR").

Definition blank_or_none (prev : option ascii) : bool :=
  match prev with
  | Some c => Ascii.eqb c " "
  | None => true
  end.

Definition blank_or_end (s : str) : bool :=
  match s with
  | c :: _ => Ascii.eqb c " "
  | [] => true
  end.

(** The match is the word "Date" as steps 4, 7 and 8 leave it: spelled
    this way, with a blank or a text end on either side. *)
Definition date_in_place (prev : option ascii) (s : str) (n : nat) : bool :=
  str_eqb (firstn n s) (lit "Date") && blank_or_none prev
  && blank_or_end (skipn n s).

(** What a second pass over the text [y] finds: step 1 only the literal
    "CONTRACT FOR", steps 2 and 3 nothing, step 4 only the word "Date"
    between blanks or text ends, and steps 5 and 6 nothing in the text
    that reaches them. *)
Definition second_pass_idle (y : str) : bool :=
  every_match canonical_contract_for true pat_contract_for None y
  && no_match true pat_squished y
  && no_match true pat_jn y
  && every_match date_in_place true pat_date None y
  && no_match true pat_noise (mark_date y)
  && no_match true pat_structure (mark_date y).

(** [padded prev s z]: [z] is [s] with a blank put on either side of every
    "Date" that stands between blanks or text ends; [prev] is the
    character before [s]. *)
Inductive padded : option ascii -> str -> str -> Prop :=
| padded_nil prev : padded prev [] []
| padded_keep prev c s z :
    padded (Some c) s z -> padded prev (c :: s) (c :: z)
| padded_date prev s z :
    blank_or_none prev = true -> blank_or_end s = true ->
    padded (Some "e"%char) s z ->
    padded prev (lit "Date" ++ s) (lit " Date " ++ z).

(** The whitespace character before a text, as far as step 7 cares. *)
Definition ws_before (prev : option ascii) : str :=
  match prev with
  | Some w => if isspace w then [w] else []
  | None => []
  end.

(** * Properties *)

(** ** The batch loop *)

Lemma join_chars (s : str) : join [] (map (fun c => [c]) s) = s.
Proof.
  induction s as [|c t IH]; [reflexivity|].
  destruct t as [|d t']; [reflexivity|].
  change (join [] (map (fun c => [c]) (c :: d :: t')))
    with ([c] ++ [] ++ join [] (map (fun c => [c]) (d :: t'))).
  rewrite IH. reflexivity.
Qed.

Section BatchFacts.

Variable agent_invoke : str -> exn + list (str * str).
Variable parser_parse : option str -> exn + BridgeWork.
Variable path_join : str -> str -> str.
Variable umsg : str -> str.
Variable folder_path : str.

Local Abbreviation loop := (batch_loop agent_invoke parser_parse path_join umsg folder_path).
Local Abbreviation row := (row_of agent_invoke parser_parse path_join umsg folder_path).

(** One document appends exactly its row, whether it raised or not. *)
Lemma document_step (results : list ResultRow) (filename : str)
    (tr : list main_event) :
  exists tr',
    try_except
      (try_document agent_invoke parser_parse results filename
         (path_join folder_path filename))
      (on_error umsg results filename) tr
    = (inr (results ++ [row filename]), tr').
Proof.
  unfold try_except, try_document, on_error, row_of, document_outcome,
    bind, call, ret, mprint.
  destruct (agent_invoke _) as [e|raw]; [eexists; reflexivity|].
  destruct (parser_parse _) as [e|sr]; [eexists; reflexivity|].
  eexists. unfold success_row. rewrite join_chars. reflexivity.
Qed.

Lemma batch_loop_rows (files : list str) :
  forall results tr, exists tr',
    loop files results tr
    = (inr (results ++ map row (filter is_pdf files)), tr').
Proof.
  induction files as [|filename rest IH]; intros results tr.
  - exists tr. simpl. rewrite app_nil_r. reflexivity.
  - simpl. destruct (is_pdf filename) eqn:Hpdf.
    + unfold bind at 1. unfold mprint at 1, call at 1.
      unfold bind at 1.
      match goal with
      | |- context [try_except _ _ ?t] =>
          destruct (document_step results filename t) as [tr1 ->]
      end.
      destruct (IH (results ++ [row filename]) tr1) as [tr2 ->].
      exists tr2. simpl. rewrite <- app_assoc. reflexivity.
    + apply IH.
Qed.

End BatchFacts.

(** C1. Per-document failure isolation: the batch loop always runs to its
    end; its result has exactly one row per PDF file name, in enumeration
    order; a document whose model invocation or schema parse raised gets
    the row with empty [job_number], empty [proposed_work] and the
    exception's description in [date]; every other document gets the row
    of its parsed record. *)
Theorem batch_failure_isolation
    (agent_invoke : str -> exn + list (str * str))
    (parser_parse : option str -> exn + BridgeWork)
    (path_join : str -> str -> str) (umsg : str -> str) (folder_path : str)
    (files : list str) :
  exists rows tr,
    batch agent_invoke parser_parse path_join umsg folder_path files = (inr rows, tr)
    /\ map row_file_name rows = filter is_pdf files
    /\ length rows = length (filter is_pdf files)
    /\ rows = map (row_of agent_invoke parser_parse path_join umsg folder_path)
                (filter is_pdf files)
    /\ (forall filename e,
          document_outcome agent_invoke parser_parse path_join folder_path filename = inl e ->
          row_of agent_invoke parser_parse path_join umsg folder_path filename
          = {| row_file_name := filename;
               row_job_number := [];
               row_proposed_work := [];
               row_date := lit "Error: " ++ exn_str umsg e |})
    /\ (forall filename sr,
          document_outcome agent_invoke parser_parse path_join folder_path filename = inr sr ->
          row_of agent_invoke parser_parse path_join umsg folder_path filename
          = success_row filename sr).
Proof.
  destruct (batch_loop_rows agent_invoke parser_parse path_join umsg folder_path
              files [] []) as [tr Hrun].
  exists (map (row_of agent_invoke parser_parse path_join umsg folder_path)
            (filter is_pdf files)), tr.
  split; [exact Hrun|].
  split.
  { rewrite map_map. rewrite <- (map_id (filter is_pdf files)) at 2.
    apply map_ext. intro f. unfold row_of.
    destruct (document_outcome _ _ _ _ f); reflexivity. }
  split; [apply length_map|].
  split; [reflexivity|].
  split; intros filename x Hx; unfold row_of; rewrite Hx; reflexivity.
Qed.

(** C1 at a concrete batch: the second of three PDF files fails in the
    model call and the other two still yield their rows. *)
Lemma batch_failure_isolation_witness :
  document_outcome demo_invoke demo_parse (fun d f => d ++ f) (lit "in\") (lit "b.pdf")
  = inl (LibError (lit "rate limit"))
  /\ exists rows tr,
       batch demo_invoke demo_parse (fun d f => d ++ f) unbound_local_311 (lit "in\") demo_files
       = (inr rows, tr)
       /\ map row_file_name rows = [lit "a.pdf"; lit "b.pdf"; lit "C.PDF"]
       /\ map row_date rows = [lit "5/1/2024"; lit "Error: rate limit"; lit "5/1/2024"].
Proof.
  split; [reflexivity|].
  destruct (batch_failure_isolation demo_invoke demo_parse (fun d f => d ++ f)
              unbound_local_311 (lit "in\") demo_files)
    as (rows & tr & Hrun & Hnames & _ & Hrows & _).
  exists rows, tr. split; [exact Hrun|]. split; [exact Hnames|].
  rewrite Hrows. reflexivity.
Defined.

(** ** The extractor *)

Lemma fold_assign_last (ocr_result : list ocr_res) :
  forall full_text,
    fold_left assign_full_text ocr_result full_text
    = match last_rec_texts ocr_result with
      | Some lines => Some (join [newline] lines)
      | None => full_text
      end.
Proof.
  induction ocr_result as [|res rest IH]; intro full_text; [reflexivity|].
  simpl. rewrite IH. unfold assign_full_text.
  destruct (last_rec_texts rest); [reflexivity|].
  destruct (dict_get _ res); reflexivity.
Qed.

Lemma last_rec_texts_none (ocr_result : list ocr_res) :
  (forall res, In res ocr_result -> dict_get (lit "rec_texts") res = None) ->
  last_rec_texts ocr_result = None.
Proof.
  induction ocr_result as [|res rest IH]; intro H; [reflexivity|].
  simpl. rewrite IH by (intros r Hr; apply H; right; exact Hr).
  apply H. left. reflexivity.
Qed.

(** Case analysis on the library calls that a stage hypothesis mentions. *)
Ltac split_calls H :=
  cbv zeta in H;
  repeat match type of H with
         | context [match ?x with _ => _ end] =>
             lazymatch x with
             | context [match _ with _ => _ end] => fail
             | _ => idtac
             end;
             destruct x eqn:?; try discriminate H
         end.

Ltac unfold_extract :=
  unfold extract_title_text_from_pdf, extract_calls, extract_run,
    try_return, extract_body, bind, call, ret, raise, print.

Section ExtractorFacts.

Variables Doc Page Rect Image NdArray : Type.
Variable W : libs Doc Page Rect Image NdArray.
Variable umsg : str -> str.
Variable pdf_path : str.
Variable rg : option region.

Local Abbreviation run := (extract_run umsg W pdf_path rg).

(** A failing Method 1 ends the run with the error string, before any
    fallback call. *)
Lemma run_direct_raises (e : exn) :
  direct_stage W pdf_path rg = inl e ->
  fst run = error_prefix ++ exn_str umsg e
  /\ existsb is_ocr_event (snd run) = false.
Proof.
  intro H. unfold direct_stage in H. unfold_extract.
  split_calls H; injection H as <-; split; reflexivity.
Qed.

(** Enough direct text: it is returned and Method 2 is not entered. *)
Lemma run_direct_long (text : str) :
  direct_stage W pdf_path rg = inr text ->
  20 < length (strip text) ->
  fst run = text /\ existsb is_ocr_event (snd run) = false.
Proof.
  intros H Hlen. unfold direct_stage in H. unfold_extract.
  assert (Hcond : negb (length text =? 0) && (20 <? length (strip text)) = true).
  { apply andb_true_iff. split; [|apply Nat.ltb_lt; exact Hlen].
    destruct text; [simpl in Hlen; lia|reflexivity]. }
  split_calls H; injection H as <-; simpl; rewrite Hcond; split; reflexivity.
Qed.

(** Too little direct text: Method 2 is entered and decides the result. *)
Lemma run_direct_short (text : str) :
  direct_stage W pdf_path rg = inr text ->
  length (strip text) <= 20 ->
  fst run = render umsg (fallback_stage W pdf_path rg)
  /\ existsb is_convert (snd run) = true
  /\ (forall img_array, raster_stage W pdf_path rg = inr img_array ->
        existsb is_predict (snd run) = true).
Proof.
  intros H Hlen. unfold direct_stage in H.
  assert (Hcond : negb (length text =? 0) && (20 <? length (strip text)) = false).
  { apply andb_false_iff. right. apply Nat.ltb_ge. exact Hlen. }
  unfold_extract. unfold fallback_stage, raster_stage, ocr_text, render.
  split_calls H; injection H as <-; simpl; rewrite Hcond; simpl;
    (destruct (convert_from_path W pdf_path 1 1 300) as [e|[|img imgs]];
     simpl; [repeat split; try reflexivity; discriminate ..|]);
    try (destruct (img_crop W img _) as [e|img']; simpl;
         [repeat split; try reflexivity; discriminate|]);
    (match goal with
     | |- context [np_array W ?i] => destruct (np_array W i) as [e|arr]
     end; simpl; [repeat split; try reflexivity; discriminate|]);
    (destruct (ocr_predict W arr) as [e|[|res rest]]; simpl;
     [repeat split; reflexivity ..|]);
    (destruct (fold_left assign_full_text rest (assign_full_text None res));
     simpl; repeat split; reflexivity).
Qed.

End ExtractorFacts.

(** C2. Extractor threshold and fallback: when Method 1 yields a text whose
    trimmed length exceeds 20, that text is returned and no call of the
    OCR path (rasterization, crop, array conversion, OCR model) is made;
    when the trimmed length is 20 or less (the empty text included), the
    OCR fallback is entered: the page is rasterized, and the OCR model is
    called whenever rasterization yields its array. *)
Theorem extractor_threshold_and_fallback
    (Doc Page Rect Image NdArray : Type) (W : libs Doc Page Rect Image NdArray)
    (umsg : str -> str) (pdf_path : str) (rg : option region) (text : str) :
  direct_stage W pdf_path rg = inr text ->
  (20 < length (strip text) ->
     extract_title_text_from_pdf umsg W pdf_path rg = text
     /\ existsb is_ocr_event (extract_calls umsg W pdf_path rg) = false)
  /\ (length (strip text) <= 20 ->
      existsb is_convert (extract_calls umsg W pdf_path rg) = true
      /\ (forall img_array, raster_stage W pdf_path rg = inr img_array ->
            existsb is_predict (extract_calls umsg W pdf_path rg) = true)).
Proof.
  intro Hdirect. split; intro Hlen.
  - exact (run_direct_long W umsg pdf_path rg Hdirect Hlen).
  - destruct (run_direct_short W umsg pdf_path rg Hdirect Hlen) as (_ & Hc & Hp).
    split; assumption.
Qed.

(** C2 at two PDFs: a 21-character text layer is returned as it is; a
    20-character one sends the page to the OCR model. *)
Lemma extractor_threshold_and_fallback_witness :
  (extract_title_text_from_pdf unbound_local_311
     (demo_libs (lit " BRIDGE REPLACEMENT 21 ") (inr [])) (lit "a.pdf") None
   = lit " BRIDGE REPLACEMENT 21 "
   /\ existsb is_ocr_event
        (extract_calls unbound_local_311
           (demo_libs (lit " BRIDGE REPLACEMENT 21 ") (inr [])) (lit "a.pdf") None)
      = false)
  /\ existsb is_predict
       (extract_calls unbound_local_311
          (demo_libs (lit " BRIDGE REPLACEMENT 2 ") (inr [])) (lit "a.pdf") None)
     = true.
Proof.
  split.
  - apply (extractor_threshold_and_fallback
             (demo_libs (lit " BRIDGE REPLACEMENT 21 ") (inr [])) unbound_local_311
             (lit "a.pdf") None
             (text := lit " BRIDGE REPLACEMENT 21 ")); [reflexivity|].
    vm_compute. lia.
  - refine (proj2 (proj2 (extractor_threshold_and_fallback
             (demo_libs (lit " BRIDGE REPLACEMENT 2 ") (inr [])) unbound_local_311
             (lit "a.pdf") None
             (text := lit " BRIDGE REPLACEMENT 2 ") eq_refl) _) tt eq_refl).
    vm_compute. lia.
Defined.

(** C3. The extractor never raises: whatever the body of the [try] raises
    becomes the returned string "OCR extraction failed: " followed by the
    exception's description; in particular for a failing PDF open, page
    load, rasterization and OCR invocation. *)
Theorem extractor_never_raises
    (Doc Page Rect Image NdArray : Type) (W : libs Doc Page Rect Image NdArray)
    (umsg : str -> str) (pdf_path : str) (rg : option region) :
  let out := extract_title_text_from_pdf umsg W pdf_path rg in
  let failed e := out = lit "OCR extraction failed: " ++ exn_str umsg e in
  (forall e, fst (extract_body W pdf_path rg []) = inl e -> failed e)
  /\ (forall text, fst (extract_body W pdf_path rg []) = inr text -> out = text)
  /\ (forall e, pymupdf_open W pdf_path = inl e -> failed e)
  /\ (forall doc e,
        pymupdf_open W pdf_path = inr doc -> load_page W doc 0 = inl e -> failed e)
  /\ (forall text e,
        direct_stage W pdf_path rg = inr text -> length (strip text) <= 20 ->
        convert_from_path W pdf_path 1 1 300 = inl e -> failed e)
  /\ (forall text img_array e,
        direct_stage W pdf_path rg = inr text -> length (strip text) <= 20 ->
        raster_stage W pdf_path rg = inr img_array ->
        ocr_predict W img_array = inl e -> failed e).
Proof.
  cbv zeta. repeat split.
  - intros e H. unfold extract_title_text_from_pdf, extract_run, try_return.
    destruct (extract_body W pdf_path rg []) as [[e'|t] tr]; simpl in *;
      [injection H as ->; reflexivity|discriminate].
  - intros t H. unfold extract_title_text_from_pdf, extract_run, try_return.
    destruct (extract_body W pdf_path rg []) as [[e'|t'] tr]; simpl in *;
      [discriminate|injection H as ->; reflexivity].
  - intros e H.
    apply (run_direct_raises W umsg pdf_path rg (e := e)).
    unfold direct_stage. rewrite H. reflexivity.
  - intros doc e Hopen Hload.
    apply (run_direct_raises W umsg pdf_path rg (e := e)).
    unfold direct_stage. rewrite Hopen, Hload. reflexivity.
  - intros text e Hd Hlen Hconv.
    destruct (run_direct_short W umsg pdf_path rg Hd Hlen) as (Hout & _).
    unfold extract_title_text_from_pdf. rewrite Hout.
    unfold fallback_stage, raster_stage. rewrite Hconv. reflexivity.
  - intros text img_array e Hd Hlen Hr Hp.
    destruct (run_direct_short W umsg pdf_path rg Hd Hlen) as (Hout & _).
    unfold extract_title_text_from_pdf. rewrite Hout.
    unfold fallback_stage. rewrite Hr, Hp. reflexivity.
Qed.

(** C3 at a PDF that cannot be opened. *)
Lemma extractor_never_raises_witness :
  extract_title_text_from_pdf unbound_local_311
    (broken_libs (lit "no such file: 'a.pdf'")) (lit "a.pdf") None
  = lit "OCR extraction failed: no such file: 'a.pdf'".
Proof.
  exact (proj1 (proj2 (proj2 (extractor_never_raises
           (broken_libs (lit "no such file: 'a.pdf'")) unbound_local_311
           (lit "a.pdf") None)))
           (LibError (lit "no such file: 'a.pdf'")) eq_refl).
Defined.




(** C10. When the OCR fallback runs and the model returns a non-empty
    result none of whose elements has the key "rec_texts", the read of the
    unbound [full_text] raises inside the [try]; the function returns the
    error string for that exception, which begins with
    "OCR extraction failed: ", and no recognized text. *)
Theorem ocr_missing_rec_texts
    (Doc Page Rect Image NdArray : Type) (W : libs Doc Page Rect Image NdArray)
    (umsg : str -> str) (pdf_path : str) (rg : option region)
    (text : str) (img_array : NdArray) (ocr_result : list ocr_res) :
  direct_stage W pdf_path rg = inr text ->
  length (strip text) <= 20 ->
  raster_stage W pdf_path rg = inr img_array ->
  ocr_predict W img_array = inr ocr_result ->
  ocr_result <> [] ->
  (forall res, In res ocr_result -> dict_get (lit "rec_texts") res = None) ->
  fallback_stage W pdf_path rg = inl (UnboundLocalError (lit "full_text"))
  /\ extract_title_text_from_pdf umsg W pdf_path rg
     = lit "OCR extraction failed: " ++ umsg (lit "full_text")
  /\ startswith (lit "OCR extraction failed: ")
       (extract_title_text_from_pdf umsg W pdf_path rg) = true.
Proof.
  intros Hd Hlen Hr Hp Hne Hkeys.
  destruct (run_direct_short W umsg pdf_path rg Hd Hlen) as (Hout & _).
  assert (Hfb : fallback_stage W pdf_path rg
                = inl (UnboundLocalError (lit "full_text"))).
  { unfold fallback_stage. rewrite Hr, Hp. unfold ocr_text.
    destruct ocr_result as [|res rest]; [contradiction|].
    rewrite fold_assign_last, (last_rec_texts_none _ Hkeys). reflexivity. }
  split; [exact Hfb|].
  unfold extract_title_text_from_pdf. rewrite Hout, Hfb. split; reflexivity.
Qed.

(** C10 at a result whose only element has scores but no texts. *)
Lemma ocr_missing_rec_texts_witness :
  extract_title_text_from_pdf unbound_local_311
    (demo_libs [] (inr keyless)) (lit "a.pdf") None
  = lit "OCR extraction failed: cannot access local variable 'full_text' where it is not associated with a value".
Proof.
  refine (proj1 (proj2 (ocr_missing_rec_texts
           (demo_libs [] (inr keyless)) unbound_local_311 (lit "a.pdf") None
           (text := []) (img_array := tt) (ocr_result := keyless)
           eq_refl (Nat.le_0_l 20) eq_refl eq_refl _ _))).
  - discriminate.
  - intros res [<-|[]]. reflexivity.
Defined.

(** ** The regular-expression engine *)

Lemma sub_go_unfold (ic : bool) (r : regex) (t : list titem)
    (prev : option ascii) (s : str) :
  sub_go ic r t prev s 0
  = match match_at ic r prev s with
    | Some (n, g) =>
        expand t g ++
        match s with
        | [] => []
        | c :: s' =>
            match n with
            | 0 => c :: sub_go ic r t (Some c) s' 0
            | S n' => sub_go ic r t (Some c) s' n'
            end
        end
    | None =>
        match s with
        | [] => []
        | c :: s' => c :: sub_go ic r t (Some c) s' 0
        end
    end.
Proof. destruct s; reflexivity. Qed.

(** Passing over the rest of a match resumes the scan behind it. *)
Lemma sub_go_skip (ic : bool) (r : regex) (t : list titem) (k : nat) :
  forall s prev, k <= length s ->
    exists prev', sub_go ic r t prev s k = sub_go ic r t prev' (skipn k s) 0.
Proof.
  induction k as [|k IH]; intros s prev Hk.
  - exists prev. reflexivity.
  - destruct s as [|c s']; [simpl in Hk; lia|].
    simpl in Hk. destruct (IH s' (Some c)) as [p' Hp']; [lia|].
    exists p'. simpl. exact Hp'.
Qed.

Lemma length_skipn_sub (s : str) (n : nat) :
  n <= length s -> length s - length (skipn n s) = n.
Proof. intro H. rewrite length_skipn. lia. Qed.

(** ** The matcher against what a pattern matches *)

Section MatcherSound.

Variable ic : bool.
Variable B : Type.

Lemma rep_sound (k : cclass) (s : str) :
  forall lo hi prev g (kt : cont B) x,
    rep ic k lo hi prev s g kt = Some x ->
    exists m s', s = m ++ s' /\ forallb (cls_match ic k) m = true
                 /\ lo <= length m /\ within hi (length m)
                 /\ kt (last_of prev m) s' g = Some x.
Proof.
  assert (Hstop : forall lo hi prev s0 g (kt : cont B) x,
             match lo with 0 => kt prev s0 g | S _ => None end = Some x ->
             exists m s', s0 = m ++ s' /\ forallb (cls_match ic k) m = true
                          /\ lo <= length m /\ within hi (length m)
                          /\ kt (last_of prev m) s' g = Some x).
  { intros lo hi prev s0 g kt x H. destruct lo; [|discriminate].
    exists [], s0. repeat split; [lia| |exact H].
    destruct hi; simpl; [lia|exact I]. }
  induction s as [|c t IH]; intros lo hi prev g kt x H.
  - apply Hstop. exact H.
  - simpl in H. destruct (cls_match ic k c && room hi) eqn:Hc;
      [|apply Hstop; exact H].
    destruct (rep ic k (pred lo) (option_map pred hi) (Some c) t g kt)
      as [y|] eqn:Hrec; [|apply Hstop; exact H].
    injection H as <-. apply andb_true_iff in Hc as [Hc Hroom].
    destruct (IH _ _ _ _ _ _ Hrec) as (m & s' & Ht & Hall & Hlo & Hhi & Hk).
    exists (c :: m), s'. simpl. rewrite Hc, Hall, Ht.
    repeat split; [lia| |exact Hk].
    destruct hi as [[|h]|]; simpl in *; [discriminate|lia|exact I].
Qed.

(** Every success of the matcher goes through its continuation at a
    position the pattern can end at. *)
Lemma run_sound (r : regex) :
  forall prev s g (kt : cont B) x,
    run ic r prev s g kt = Some x ->
    exists p' s' g', matches ic r prev s p' s' /\ kt p' s' g' = Some x.
Proof.
  induction r as [|a|k|a IHa b IHb|a IHa b IHb|k lo hi|a IHa|n a IHa|];
    intros prev s g kt x H; simpl in H.
  - exists prev, s, g. simpl. auto.
  - destruct s as [|c t]; [discriminate|].
    destruct (chr_match ic a c) eqn:Hc; [|discriminate].
    exists (Some c), t, g. simpl. eauto.
  - destruct s as [|c t]; [discriminate|].
    destruct (cls_match ic k c) eqn:Hc; [|discriminate].
    exists (Some c), t, g. simpl. eauto.
  - apply IHa in H as (p1 & s1 & g1 & Ha & H).
    apply IHb in H as (p2 & s2 & g2 & Hb & H).
    exists p2, s2, g2. simpl. eauto.
  - destruct (run ic a prev s g kt) as [y|] eqn:Hleft.
    + injection H as <-.
      apply IHa in Hleft as (p' & s' & g' & Ha & Hk).
      exists p', s', g'. simpl. auto.
    + apply IHb in H as (p' & s' & g' & Hb & Hk).
      exists p', s', g'. simpl. auto.
  - apply rep_sound in H as (m & s' & Hs & Hall & Hlo & Hhi & Hk).
    exists (last_of prev m), s', g. simpl. eauto 10.
  - destruct (run ic a prev s g kt) as [y|] eqn:Hin.
    + injection H as <-.
      apply IHa in Hin as (p' & s' & g' & Ha & Hk).
      exists p', s', g'. simpl. auto.
    + exists prev, s, g. simpl. auto.
  - apply IHa in H as (p' & s' & g' & Ha & Hk).
    eexists p', s', _. simpl. split; [exact Ha|exact Hk].
  - destruct (at_boundary prev s) eqn:Hb; [|discriminate].
    exists prev, s, g. simpl. auto.
Qed.

(** What is left after a match is a suffix of the subject. *)
Lemma matches_suffix (r : regex) :
  forall prev s p' s', matches ic r prev s p' s' -> exists m, s = m ++ s'.
Proof.
  induction r as [|a|k|a IHa b IHb|a IHa b IHb|k lo hi|a IHa|n a IHa|];
    intros prev s p' s' H; simpl in H.
  - destruct H as [_ ->]. exists []. reflexivity.
  - destruct H as (c & -> & _). exists [c]. reflexivity.
  - destruct H as (c & -> & _). exists [c]. reflexivity.
  - destruct H as (p1 & s1 & Ha & Hb).
    apply IHa in Ha as [m1 ->]. apply IHb in Hb as [m2 ->].
    exists (m1 ++ m2). apply app_assoc.
  - destruct H as [H|H]; [apply IHa in H|apply IHb in H]; exact H.
  - destruct H as (m & -> & _). exists m. reflexivity.
  - destruct H as [H|[_ ->]]; [apply IHa in H; exact H|exists []; reflexivity].
  - apply IHa in H. exact H.
  - destruct H as (_ & _ & ->). exists []. reflexivity.
Qed.

End MatcherSound.

(** A match found by [match_at] is a match of the pattern, and its length
    is what was read. *)
Lemma match_at_sound (ic : bool) (r : regex) (prev : option ascii) (s : str)
    (n : nat) (g : groups) :
  match_at ic r prev s = Some (n, g) ->
  exists p' m s', s = m ++ s' /\ n = length m /\ matches ic r prev s p' s'.
Proof.
  intro H. unfold match_at in H.
  apply run_sound in H as (p' & s' & g' & Hm & Hk).
  injection Hk as <- _.
  destruct (matches_suffix _ _ _ _ _ _ Hm) as [m Hs].
  exists p', m, s'. split; [exact Hs|]. split; [|exact Hm].
  rewrite Hs, length_app. lia.
Qed.

(** ** Whitespace collapsing and trimming *)

Lemma span_le (s : str) : span s <= length s.
Proof.
  induction s as [|c t IH]; simpl; [lia|]. destruct (isspace c); lia.
Qed.

Lemma span_rest_clean (s : str) : starts_clean (skipn (span s) s) = true.
Proof.
  induction s as [|c t IH]; [reflexivity|].
  simpl. destruct (isspace c) eqn:Hc; [exact IH|].
  simpl. rewrite Hc. reflexivity.
Qed.

(** A greedy run of whitespace with nothing after it in the pattern takes
    the whole leading run, or fails when that is too short. *)
Lemma rep_space_span (B : Type) (F : str -> groups -> B) (s : str) :
  forall lo prev g,
    rep false Space lo None prev s g (fun _ s' g' => Some (F s' g'))
    = if lo <=? span s then Some (F (skipn (span s) s) g) else None.
Proof.
  induction s as [|c t IH]; intros lo prev g.
  - destruct lo; reflexivity.
  - simpl. destruct (isspace c) eqn:Hc; simpl.
    + rewrite IH. destruct lo as [|lo]; simpl.
      * reflexivity.
      * destruct (lo <=? span t); reflexivity.
    + destruct lo; reflexivity.
Qed.

Lemma match_at_spaces (prev : option ascii) (s : str) :
  match_at false pat_spaces prev s
  = if 2 <=? span s then Some (span s, []) else None.
Proof.
  unfold match_at, pat_spaces. simpl run.
  rewrite (rep_space_span (fun s' g' => (length s - length s', g'))).
  destruct (2 <=? span s); [|reflexivity].
  rewrite length_skipn_sub by apply span_le. reflexivity.
Qed.

Lemma collapse_keeps_clean_start (prev : option ascii) (s : str) :
  starts_clean s = true ->
  starts_clean (sub_go false pat_spaces [TLit (lit " ")] prev s 0) = true.
Proof.
  intro H. rewrite sub_go_unfold, match_at_spaces.
  destruct s as [|c t]; [reflexivity|].
  simpl in H. simpl span. destruct (isspace c) eqn:Hc; [discriminate|].
  simpl. rewrite Hc. reflexivity.
Qed.

Lemma space_pair_cons (c : ascii) (s : str) :
  has_space_pair (c :: s)
  = (isspace c && negb (starts_clean s)) || has_space_pair s.
Proof.
  destruct s as [|d t]; simpl.
  - rewrite andb_false_r. reflexivity.
  - rewrite negb_involutive. reflexivity.
Qed.

(** After step 7 no two whitespace characters are neighbours. *)
Lemma collapse_no_pair_go (n : nat) :
  forall s prev, length s <= n ->
    has_space_pair (sub_go false pat_spaces [TLit (lit " ")] prev s 0) = false.
Proof.
  induction n as [|n IH]; intros s prev Hn.
  - destruct s; [reflexivity|simpl in Hn; lia].
  - rewrite sub_go_unfold, match_at_spaces.
    destruct s as [|c t]; [reflexivity|].
    simpl in Hn.
    destruct (2 <=? span (c :: t)) eqn:Hspan.
    + apply Nat.leb_le in Hspan.
      pose proof (span_le (c :: t)) as Hle.
      destruct (span (c :: t)) as [|k] eqn:Hk; [lia|].
      destruct (@sub_go_skip false pat_spaces [TLit (lit " ")] k t (Some c))
        as [p' Hp']; [simpl in Hle; lia|].
      rewrite Hp'.
      change (expand [TLit (lit " ")] [] ++ ?x) with (" "%char :: x).
      rewrite space_pair_cons.
      assert (Hrest : skipn k t = skipn (span (c :: t)) (c :: t))
        by (rewrite Hk; reflexivity).
      rewrite collapse_keeps_clean_start
        by (rewrite Hrest; apply span_rest_clean).
      rewrite IH; [reflexivity|].
      rewrite length_skipn. lia.
    + apply Nat.leb_gt in Hspan.
      rewrite space_pair_cons, IH by lia.
      rewrite orb_false_r.
      destruct (isspace c) eqn:Hc; [|reflexivity].
      rewrite collapse_keeps_clean_start; [reflexivity|].
      simpl in Hspan. rewrite Hc in Hspan.
      destruct t as [|d t']; [reflexivity|].
      simpl in *. destruct (isspace d); [lia|reflexivity].
Qed.

Lemma collapse_no_pair (s : str) : has_space_pair (collapse_whitespace s) = false.
Proof. apply (collapse_no_pair_go (n := length s)). lia. Qed.

Lemma lstrip_suffix (s : str) : exists p, s = p ++ lstrip s.
Proof.
  induction s as [|c t [p Hp]]; [exists []; reflexivity|].
  simpl. destruct (isspace c).
  - exists (c :: p). simpl. rewrite <- Hp. reflexivity.
  - exists []. reflexivity.
Qed.

Lemma rstrip_prefix (s : str) : exists q, s = rstrip s ++ q.
Proof.
  destruct (lstrip_suffix (rev s)) as [p Hp].
  exists (rev p). unfold rstrip.
  rewrite <- rev_app_distr, <- Hp, rev_involutive. reflexivity.
Qed.

Lemma lstrip_clean (s : str) : starts_clean (lstrip s) = true.
Proof.
  induction s as [|c t IH]; [reflexivity|].
  simpl. destruct (isspace c) eqn:Hc; [exact IH|].
  simpl. rewrite Hc. reflexivity.
Qed.

Lemma space_pair_app (p q : str) :
  has_space_pair (p ++ q) = false ->
  has_space_pair p = false /\ has_space_pair q = false.
Proof.
  induction p as [|a p IH]; intro H; [split; [reflexivity|exact H]|].
  change ((a :: p) ++ q) with (a :: (p ++ q)) in H.
  rewrite space_pair_cons in H. apply orb_false_iff in H as [Ha Hrest].
  destruct (IH Hrest) as [Hp Hq]. split; [|exact Hq].
  rewrite space_pair_cons, Hp, orb_false_r.
  destruct p as [|b p']; [apply andb_false_r|exact Ha].
Qed.

Lemma starts_clean_app (a b : str) :
  starts_clean (a ++ b) = true -> a <> [] -> starts_clean a = true.
Proof. destruct a; [contradiction|intros H _; exact H]. Qed.

Lemma strip_no_pair (s : str) :
  has_space_pair s = false -> has_space_pair (strip s) = false.
Proof.
  intro H. unfold strip.
  destruct (rstrip_prefix s) as [q Hq]. rewrite Hq in H.
  apply space_pair_app in H as [H _].
  destruct (lstrip_suffix (rstrip s)) as [p Hp]. rewrite Hp in H.
  apply space_pair_app in H as [_ H]. exact H.
Qed.

Lemma strip_starts_clean (s : str) : starts_clean (strip s) = true.
Proof. apply lstrip_clean. Qed.

Lemma strip_ends_clean (s : str) : ends_clean (strip s) = true.
Proof.
  unfold ends_clean, strip.
  destruct (lstrip_suffix (rstrip s)) as [p Hp].
  destruct (lstrip (rstrip s)) as [|c t] eqn:Hl; [reflexivity|].
  apply starts_clean_app with (b := rev p).
  - rewrite <- rev_app_distr, <- Hp. unfold rstrip.
    rewrite rev_involutive. apply lstrip_clean.
  - intro Hnil. apply (f_equal (@length ascii)) in Hnil.
    rewrite length_rev in Hnil. discriminate.
Qed.

Lemma no_pair_no_double_space (s : str) :
  has_space_pair s = false -> contains (lit "  ") s = false.
Proof.
  induction s as [|a t IH]; intro H; [reflexivity|].
  rewrite space_pair_cons in H. apply orb_false_iff in H as [Ha Ht].
  change (contains (lit "  ") (a :: t))
    with (startswith (lit "  ") (a :: t) || contains (lit "  ") t).
  rewrite (IH Ht), orb_false_r.
  destruct t as [|b t']; [apply andb_false_r|].
  change (startswith (lit "  ") (a :: b :: t'))
    with (Ascii.eqb " " a && (Ascii.eqb " " b && true)).
  destruct (Ascii.eqb_spec " " a) as [<-|]; [|reflexivity].
  destruct (Ascii.eqb_spec " " b) as [<-|]; [|reflexivity].
  discriminate Ha.
Qed.

Lemma output_clean (x : str) :
  has_space_pair (filter_target_section x) = false
  /\ starts_clean (filter_target_section x) = true
  /\ ends_clean (filter_target_section x) = true.
Proof.
  split; [apply strip_no_pair, collapse_no_pair|].
  split; [apply strip_starts_clean|apply strip_ends_clean].
Qed.

(** C9. For every input the output of [filter_target_section] contains no
    two consecutive spaces (indeed no two neighbouring whitespace
    characters at all), and neither begins nor ends with whitespace. *)
Theorem normalized_no_double_space (x : str) :
  contains (lit "  ") (filter_target_section x) = false
  /\ has_space_pair (filter_target_section x) = false
  /\ starts_clean (filter_target_section x) = true
  /\ ends_clean (filter_target_section x) = true.
Proof.
  destruct (output_clean x) as (Hp & Hs & He).
  split; [apply no_pair_no_double_space; exact Hp|].
  repeat split; assumption.
Qed.

(** Step 7 leaves a text without neighbouring whitespace as it is. *)
Lemma collapse_fixed_go (s : str) :
  forall prev, has_space_pair s = false ->
    sub_go false pat_spaces [TLit (lit " ")] prev s 0 = s.
Proof.
  induction s as [|c t IH]; intros prev H; [reflexivity|].
  rewrite sub_go_unfold, match_at_spaces.
  rewrite space_pair_cons in H. apply orb_false_iff in H as [Hc Ht].
  assert (Hspan : (2 <=? span (c :: t)) = false).
  { apply Nat.leb_gt. simpl. destruct (isspace c); [|lia].
    destruct t as [|d t']; [simpl; lia|].
    simpl in *. destruct (isspace d); [discriminate|lia]. }
  rewrite Hspan, IH by exact Ht. reflexivity.
Qed.

Lemma lstrip_fixed (s : str) : starts_clean s = true -> lstrip s = s.
Proof.
  destruct s as [|c t]; [reflexivity|].
  simpl. destruct (isspace c); [discriminate|reflexivity].
Qed.

Lemma strip_fixed (s : str) :
  starts_clean s = true -> ends_clean s = true -> strip s = s.
Proof.
  intros Hs He. unfold strip, rstrip.
  rewrite (lstrip_fixed (rev s)) by exact He.
  rewrite rev_involutive. apply lstrip_fixed. exact Hs.
Qed.

(** Steps 7 and 8 leave an output of the normalizer as it is. *)
Lemma finish_fixed (x : str) :
  strip (collapse_whitespace (filter_target_section x)) = filter_target_section x.
Proof.
  destruct (output_clean x) as (Hp & Hs & He).
  unfold collapse_whitespace, sub. rewrite collapse_fixed_go by exact Hp.
  apply strip_fixed; assumption.
Qed.

(** ** Boilerplate removal *)

Lemma startswith_ci_length (w s : str) :
  startswith_ci w s = true -> length w <= length s.
Proof.
  revert s. induction w as [|a w IH]; intros s H; [simpl; lia|].
  destruct s as [|b s]; [discriminate|].
  simpl in H. apply andb_true_iff in H as [_ H]. apply IH in H. simpl. lia.
Qed.

Lemma startswith_ci_app (w a b : str) :
  startswith_ci w a = true -> startswith_ci w (a ++ b) = true.
Proof.
  revert a. induction w as [|c w IH]; intros a H; [reflexivity|].
  destruct a as [|d a]; [discriminate|].
  simpl in *. apply andb_true_iff in H as [H1 H2].
  rewrite H1, (IH _ H2). reflexivity.
Qed.

Lemma startswith_ci_firstn (w s : str) :
  startswith_ci w s = true -> startswith_ci w (firstn (length w) s) = true.
Proof.
  revert s. induction w as [|c w IH]; intros s H; [reflexivity|].
  destruct s as [|d s]; [discriminate|].
  simpl in *. apply andb_true_iff in H as [H1 H2].
  rewrite H1, (IH _ H2). reflexivity.
Qed.

(** A run of literal characters, letter case ignored, is a prefix test. *)
Lemma run_word (B : Type) (F : str -> groups -> B) (w : str) :
  w <> [] ->
  forall prev s g,
    run true (word w) prev s g (fun _ s' g' => Some (F s' g'))
    = if startswith_ci w s then Some (F (skipn (length w) s) g) else None.
Proof.
  induction w as [|a w IH]; intro Hw; [contradiction|].
  intros prev s g. destruct w as [|b w'].
  - destruct s as [|c s']; [reflexivity|].
    simpl. unfold chr_match. rewrite andb_true_r.
    destruct (Ascii.eqb (lower c) (lower a)); reflexivity.
  - change (word (a :: b :: w')) with (Cat (Chr a) (word (b :: w'))).
    destruct s as [|c s']; [reflexivity|].
    cbn [run]. unfold chr_match.
    change (startswith_ci (a :: b :: w') (c :: s'))
      with (Ascii.eqb (lower c) (lower a) && startswith_ci (b :: w') s').
    destruct (Ascii.eqb (lower c) (lower a)); [|reflexivity].
    rewrite IH by discriminate. reflexivity.
Qed.

(** At one position the pattern of step 5 takes the first token of the
    alternation that is a prefix there. *)
Lemma match_at_noise (prev : option ascii) (s : str) :
  match_at true pat_noise prev s
  = match find (fun tok => startswith_ci tok s) noise_tokens with
    | Some tok => Some (length tok, [])
    | None => None
    end.
Proof.
  unfold match_at, pat_noise, noise_tokens. cbn [run find].
  repeat rewrite (run_word (fun s' g' => (length s - length s', g')))
    by discriminate.
  repeat match goal with
         | |- context [startswith_ci ?w s] =>
             destruct (startswith_ci w s) eqn:?;
             [rewrite length_skipn_sub
                by (apply startswith_ci_length; assumption);
              reflexivity|]
         end.
  reflexivity.
Qed.

Lemma noise_freeP (s : str) :
  noise_free s = true <->
  (forall tok, In tok noise_tokens -> contains_ci tok s = false).
Proof.
  unfold noise_free. rewrite forallb_forall. split; intros H tok Hin.
  - apply negb_true_iff, H, Hin.
  - apply negb_true_iff, H, Hin.
Qed.

(** The scan of step 5 cuts its input into token-free stretches it keeps
    and tokens it deletes. *)
Lemma noise_scan (n : nat) :
  forall s prev, length s <= n ->
    exists cuts last_kept,
      s = weave cuts last_kept
      /\ Forall (fun kd => noise_free (fst kd) = true /\ is_noise (snd kd) = true) cuts
      /\ noise_free last_kept = true
      /\ sub_go true pat_noise [TLit (lit "")] prev s 0 = kept cuts last_kept.
Proof.
  induction n as [|n IH]; intros s prev Hn.
  - destruct s; [|simpl in Hn; lia].
    exists [], []. repeat split; constructor.
  - destruct s as [|c t]; [exists [], []; repeat split; constructor|].
    simpl in Hn. rewrite sub_go_unfold, match_at_noise.
    destruct (find _ noise_tokens) as [tok|] eqn:Hfind.
    + apply find_some in Hfind as [Hin Hpre].
      pose proof (startswith_ci_length _ _ Hpre) as Hlen.
      assert (Hpos : 0 < length tok)
        by (repeat destruct Hin as [<-|Hin]; try contradiction; vm_compute; lia).
      destruct (length tok) as [|k] eqn:Hk; [lia|].
      destruct (@sub_go_skip true pat_noise [TLit (lit "")] k t (Some c))
        as [p' Hp']; [simpl in Hlen; lia|].
      destruct (IH (skipn k t) p') as (cuts & tl & Hs & Hcuts & Htl & Hout);
        [rewrite length_skipn; lia|].
      exists (([], firstn (S k) (c :: t)) :: cuts), tl.
      split; [|split; [|split]].
      * unfold weave in *. cbn [map concat fst snd app].
        rewrite <- app_assoc, <- Hs.
        change (skipn k t) with (skipn (S k) (c :: t)).
        symmetry. apply firstn_skipn.
      * constructor; [|exact Hcuts]. split; [reflexivity|].
        unfold is_noise. apply existsb_exists. exists tok.
        split; [exact Hin|]. cbn [snd].
        rewrite <- Hk, (startswith_ci_firstn _ _ Hpre), andb_true_r.
        apply Nat.eqb_eq. rewrite length_firstn. lia.
      * exact Htl.
      * change (expand [TLit (lit "")] []) with (@nil ascii).
        rewrite Hp', Hout. reflexivity.
    + destruct (IH t (Some c)) as (cuts & tl & Hs & Hcuts & Htl & Hout); [lia|].
      rewrite Hout.
      assert (Hfree : forall k rest, t = k ++ rest -> noise_free k = true ->
                                     noise_free (c :: k) = true).
      { intros k rest Ht Hfree. apply noise_freeP. intros tok Hin.
        change (contains_ci tok (c :: k))
          with (startswith_ci tok (c :: k) || contains_ci tok k).
        rewrite (proj1 (noise_freeP k) Hfree tok Hin), orb_false_r.
        destruct (startswith_ci tok (c :: k)) eqn:Hpre; [|reflexivity].
        apply (startswith_ci_app _ _ rest) in Hpre.
        rewrite <- (find_none _ _ Hfind tok Hin), Ht. symmetry. exact Hpre. }
      destruct cuts as [|[k d] cuts'].
      * exists [], (c :: tl). unfold weave, kept in *. simpl in *.
        repeat split; [rewrite Hs; reflexivity|constructor|].
        apply (Hfree tl []); [rewrite app_nil_r; exact Hs|exact Htl].
      * exists ((c :: k, d) :: cuts'), tl. unfold weave, kept in *.
        cbn [map concat fst snd] in *.
        inversion Hcuts as [|? ? [Hk Hd] Hrest]; subst.
        split; [rewrite <- !app_assoc; reflexivity|].
        split; [|split; [exact Htl|rewrite <- !app_assoc; reflexivity]].
        constructor; [|exact Hrest]. split; [|exact Hd].
        apply (Hfree k (d ++ concat (map (fun kd => fst kd ++ snd kd) cuts') ++ tl));
          [rewrite <- !app_assoc; reflexivity|exact Hk].
Qed.

(** ** Words across a substitution *)

Lemma isword_lower (c : ascii) : isword (lower c) = isword c.
Proof. destruct c as [[] [] [] [] [] [] [] []]; vm_compute; reflexivity. Qed.

(** A character that is no word character matches no word character,
    whatever the letter case. *)
Lemma sep_no_match (c a : ascii) :
  isword c = false -> isword a = true -> Ascii.eqb (lower c) (lower a) = false.
Proof.
  intros Hc Ha. destruct (Ascii.eqb_spec (lower c) (lower a)) as [E|]; [|reflexivity].
  rewrite <- (isword_lower c), E, isword_lower, Ha in Hc. discriminate.
Qed.

Lemma word_at_sep (w s : str) :
  word_only w = true -> w <> [] -> sep_start s = true ->
  startswith_ci w s = false.
Proof.
  intros Hw Hne Hs. destruct w as [|a w]; [contradiction|].
  destruct s as [|c s]; [reflexivity|].
  simpl in *. apply andb_true_iff in Hw as [Ha _].
  apply negb_true_iff in Hs. rewrite (sep_no_match _ _ Hs Ha). reflexivity.
Qed.

Lemma contains_ci_cons (w : str) (c : ascii) (s : str) :
  contains_ci w (c :: s) = startswith_ci w (c :: s) || contains_ci w s.
Proof. reflexivity. Qed.

Lemma contains_ci_app_l (w a b : str) :
  contains_ci w b = true -> contains_ci w (a ++ b) = true.
Proof.
  intro H. induction a as [|c a IH]; [exact H|].
  change ((c :: a) ++ b) with (c :: (a ++ b)).
  rewrite contains_ci_cons, IH. apply orb_true_r.
Qed.

Lemma contains_ci_app_r (w a b : str) :
  w <> [] -> contains_ci w a = true -> contains_ci w (a ++ b) = true.
Proof.
  intros Hw H. induction a as [|c a IH].
  - destruct w; [contradiction|discriminate].
  - change ((c :: a) ++ b) with (c :: (a ++ b)).
    rewrite contains_ci_cons in *. apply orb_true_iff in H as [H|H].
    + change (c :: (a ++ b)) with ((c :: a) ++ b).
      rewrite (startswith_ci_app _ _ b H). reflexivity.
    + rewrite (IH H). apply orb_true_r.
Qed.

Lemma contains_ci_sep_app (w e s : str) :
  word_only w = true -> w <> [] -> sep_only e = true ->
  contains_ci w (e ++ s) = true -> contains_ci w s = true.
Proof.
  intros Hw Hne. induction e as [|c e IH]; intros He H; [exact H|].
  simpl in He. apply andb_true_iff in He as [Hc He].
  change ((c :: e) ++ s) with (c :: (e ++ s)) in H.
  rewrite contains_ci_cons in H.
  rewrite (@word_at_sep w (c :: e ++ s) Hw Hne) in H by exact Hc.
  apply IH; assumption.
Qed.

Lemma startswith_ci_shorter (a b s : str) :
  startswith_ci (a ++ b) s = true -> startswith_ci a s = true.
Proof.
  revert s. induction a as [|c a IH]; intros s H; [reflexivity|].
  destruct s as [|d s]; [discriminate|].
  simpl in *. apply andb_true_iff in H as [H1 H2].
  rewrite H1, (IH _ H2). reflexivity.
Qed.

Lemma contains_ci_shorter (a b s : str) :
  contains_ci (a ++ b) s = true -> contains_ci a s = true.
Proof.
  induction s as [|c s IH]; intro H.
  - simpl in *. rewrite orb_false_r in *.
    apply (startswith_ci_shorter a b). exact H.
  - rewrite contains_ci_cons in *. apply orb_true_iff in H as [H|H].
    + rewrite (startswith_ci_shorter a b _ H). reflexivity.
    + rewrite (IH H). apply orb_true_r.
Qed.

Section SubKeepsWords.

(** A substitution whose replacement is a fixed text without word
    characters, and which leaves no word character right behind the
    place of a match. *)
Variable ic : bool.
Variable r : regex.
Variable t : list titem.
Variable E : str.
Hypothesis E_sep : sep_only E = true.
Hypothesis match_shape :
  forall prev s n g,
    match_at ic r prev s = Some (n, g) ->
    0 < n /\ n <= length s /\ expand t g = E
    /\ sep_start (E ++ skipn n s) = true.

Lemma sub_go_cut (prev : option ascii) (s : str) (n : nat) (g : groups) :
  match_at ic r prev s = Some (n, g) ->
  exists p', sub_go ic r t prev s 0 = E ++ sub_go ic r t p' (skipn n s) 0
             /\ length (skipn n s) < length s
             /\ sep_start (E ++ skipn n s) = true.
Proof.
  intro H. destruct (match_shape _ _ H) as (Hpos & Hle & HE & Hsep).
  rewrite sub_go_unfold, H, HE.
  destruct s as [|c s']; [simpl in Hle; lia|].
  destruct n as [|k]; [lia|].
  destruct (@sub_go_skip ic r t k s' (Some c)) as [p' Hp']; [simpl in Hle; lia|].
  exists p'. rewrite Hp'. split; [reflexivity|]. split; [|exact Hsep].
  rewrite length_skipn. simpl. lia.
Qed.

Lemma sub_go_keep (prev : option ascii) (s : str) :
  match_at ic r prev s = None ->
  sub_go ic r t prev s 0
  = match s with
    | [] => []
    | c :: s' => c :: sub_go ic r t (Some c) s' 0
    end.
Proof. intro H. rewrite sub_go_unfold, H. reflexivity. Qed.

(** A word at the head of the result was at the head of the subject. *)
Lemma sub_go_prefix (len : nat) :
  forall s prev w, length s <= len -> word_only w = true ->
    startswith_ci w (sub_go ic r t prev s 0) = true ->
    startswith_ci w s = true.
Proof.
  induction len as [|len IH]; intros s prev w Hlen Hw H.
  - destruct s; [|simpl in Hlen; lia].
    destruct (match_at ic r prev []) as [[n g]|] eqn:Hm.
    + destruct (match_shape _ _ Hm) as (? & ? & _). simpl in *. lia.
    + rewrite (sub_go_keep _ _ Hm) in H. exact H.
  - destruct w as [|a w]; [reflexivity|].
    destruct (match_at ic r prev s) as [[n g]|] eqn:Hm.
    + exfalso.
      destruct (sub_go_cut _ _ Hm) as (p' & Hout & Hshort & Hsep).
      rewrite Hout in H.
      destruct E as [|e E'].
      * cbn [app] in H, Hsep. apply IH in H; [|lia|exact Hw].
        rewrite word_at_sep in H; [discriminate|exact Hw|discriminate|exact Hsep].
      * rewrite word_at_sep in H; [discriminate|exact Hw|discriminate|exact Hsep].
    + rewrite (sub_go_keep _ _ Hm) in H.
      destruct s as [|c s']; [exact H|].
      simpl in *. apply andb_true_iff in H as [H1 H2].
      apply andb_true_iff in Hw as [_ Hw].
      rewrite H1, (IH s' (Some c) w); [reflexivity|lia|exact Hw|exact H2].
Qed.

(** A word in the result was in the subject. *)
Lemma sub_go_contains (len : nat) :
  forall s prev w, length s <= len -> word_only w = true -> w <> [] ->
    contains_ci w (sub_go ic r t prev s 0) = true ->
    contains_ci w s = true.
Proof.
  induction len as [|len IH]; intros s prev w Hlen Hw Hne H.
  - destruct s; [|simpl in Hlen; lia].
    destruct (match_at ic r prev []) as [[n g]|] eqn:Hm.
    + destruct (match_shape _ _ Hm) as (? & ? & _). simpl in *. lia.
    + rewrite (sub_go_keep _ _ Hm) in H. exact H.
  - destruct (match_at ic r prev s) as [[n g]|] eqn:Hm.
    + destruct (sub_go_cut _ _ Hm) as (p' & Hout & Hshort & _).
      rewrite Hout in H. apply contains_ci_sep_app in H; try assumption.
      apply IH in H; [|lia|exact Hw|exact Hne].
      rewrite <- (firstn_skipn n s). apply contains_ci_app_l. exact H.
    + pose proof H as H0. rewrite (sub_go_keep _ _ Hm) in H.
      destruct s as [|c s']; [exact H|].
      rewrite contains_ci_cons in *. apply orb_true_iff in H as [H|H].
      * rewrite (sub_go_prefix (len := S len) (c :: s') prev w Hlen Hw);
          [reflexivity|].
        rewrite (sub_go_keep _ _ Hm). exact H.
      * rewrite (IH s' (Some c) w); [apply orb_true_r|simpl in Hlen; lia
                                     |exact Hw|exact Hne|exact H].
Qed.

Lemma sub_keeps_words (w s : str) :
  word_only w = true -> w <> [] ->
  contains_ci w (sub ic r t s) = true -> contains_ci w s = true.
Proof.
  intros Hw Hne. apply (sub_go_contains (len := length s)); auto.
Qed.

End SubKeepsWords.

(** ** Steps 6 to 8 make no boilerplate token *)

Lemma digit_is_word (d : ascii) : isdecimal d = true -> isword d = true.
Proof. unfold isword, isalnum, isdecimal. intros ->. reflexivity. Qed.

Lemma digits_end_in_word (m : str) :
  forall prev, forallb (cls_match true Digit) m = true -> 1 <= length m ->
    exists d, last_of prev m = Some d /\ isword d = true.
Proof.
  induction m as [|c m IH]; intros prev Hall Hlen; [simpl in Hlen; lia|].
  simpl in Hall. apply andb_true_iff in Hall as [Hc Hall].
  destruct m as [|c' m'].
  - exists c. split; [reflexivity|apply digit_is_word; exact Hc].
  - apply (IH (Some c) Hall). simpl. lia.
Qed.

Lemma of_5_ends_in_word (prev : option ascii) (s : str)
    (p' : option ascii) (s' : str) :
  matches true pat_of_5 prev s p' s' ->
  exists d, p' = Some d /\ isword d = true.
Proof.
  unfold pat_of_5. cbn [matches].
  intros (p1 & s1 & _ & p2 & s2 & _ & p3 & s3 & _ & m & _ & Hall & Hlen & _ & ->).
  apply digits_end_in_word; [exact Hall|lia].
Qed.

(** A structure number ends in a digit in front of a character that is
    no word character, or of the end of the text. *)
Lemma structure_match_shape (prev : option ascii) (s : str) (n : nat)
    (g : groups) :
  match_at true pat_structure prev s = Some (n, g) ->
  0 < n /\ n <= length s /\ expand [TLit (lit "")] g = []
  /\ sep_start ([] ++ skipn n s) = true.
Proof.
  intro H. apply match_at_sound in H as (p' & m & s' & Hs & Hn & H).
  unfold pat_structure in H. cbn [matches] in H.
  destruct H as (p1 & s1 & (_ & -> & ->) & p2 & s2 & (c & Hc & _)
                 & p3 & s3 & (m3 & Hm3 & _) & p4 & s4 & Halt
                 & (Hb & -> & ->)).
  assert (Hword : exists d, p4 = Some d /\ isword d = true).
  { destruct Halt as [(q1 & r1 & _ & q2 & r2 & (md & _ & Hall & Hlen & _ & ->) & Hopt)
                     |Hof].
    - destruct Hopt as [Hof|[-> _]].
      + apply of_5_ends_in_word in Hof. exact Hof.
      + apply digits_end_in_word; assumption.
    - apply of_5_ends_in_word in Hof. exact Hof. }
  destruct Hword as (d & -> & Hd).
  assert (Hsuf : exists m4, s3 = m4 ++ s4).
  { destruct Halt as [Hl|Hr].
    - apply (matches_suffix true (Cat (Chr "-")
               (Cat (Rep Digit 1 (Some 5)) (Opt pat_of_5))) p3 s3 (Some d) s4).
      exact Hl.
    - apply (matches_suffix _ _ _ _ _ _ Hr). }
  destruct Hsuf as [m4 Hm4].
  assert (Hlen : length s = length m + length s4)
    by (rewrite Hs, length_app; reflexivity).
  assert (Hlen' : length s = 1 + length m3 + length m4 + length s4).
  { rewrite Hc, Hm3, Hm4. simpl. rewrite !length_app. lia. }
  split; [lia|]. split; [lia|]. split; [reflexivity|].
  cbn [app]. rewrite Hn, Hs, skipn_app, Nat.sub_diag, skipn_all. cbn [app skipn].
  unfold at_boundary in Hb. rewrite Hd in Hb.
  destruct s4 as [|c4 s4']; [reflexivity|].
  simpl in *. destruct (isword c4); [discriminate|reflexivity].
Qed.

Lemma spaces_match_shape (prev : option ascii) (s : str) (n : nat)
    (g : groups) :
  match_at false pat_spaces prev s = Some (n, g) ->
  0 < n /\ n <= length s /\ expand [TLit (lit " ")] g = lit " "
  /\ sep_start (lit " " ++ skipn n s) = true.
Proof.
  rewrite match_at_spaces. destruct (2 <=? span s) eqn:Hspan; [|discriminate].
  intro H. injection H as <- <-. apply Nat.leb_le in Hspan.
  pose proof (span_le s). repeat split; [lia|lia].
Qed.

Lemma strip_infix (s : str) : exists p q, s = p ++ strip s ++ q.
Proof.
  destruct (rstrip_prefix s) as [q Hq].
  destruct (lstrip_suffix (rstrip s)) as [p Hp].
  exists p, q. unfold strip. rewrite app_assoc, <- Hp. exact Hq.
Qed.

(** Steps 6, 7 and 8 put no word into the text that was not there. *)
Lemma finish_keeps_words (w s : str) :
  word_only w = true -> w <> [] ->
  contains_ci w (strip (collapse_whitespace (remove_structure_number s))) = true ->
  contains_ci w s = true.
Proof.
  intros Hw Hne H.
  apply (@sub_keeps_words true pat_structure [TLit (lit "")] [] eq_refl
           structure_match_shape w s Hw Hne).
  apply (@sub_keeps_words false pat_spaces [TLit (lit " ")] (lit " ") eq_refl
           spaces_match_shape w _ Hw Hne).
  destruct (strip_infix (collapse_whitespace (remove_structure_number s)))
    as (p & q & Hpq).
  unfold collapse_whitespace, remove_structure_number in Hpq. rewrite Hpq.
  apply contains_ci_app_l, contains_ci_app_r; assumption.
Qed.

Lemma finish_keeps_noise_free (s : str) :
  noise_free s = true ->
  noise_free (strip (collapse_whitespace (remove_structure_number s))) = true.
Proof.
  intro H. apply noise_freeP. intros tok Hin.
  destruct (contains_ci tok _) eqn:Hc; [exfalso|reflexivity].
  assert (Hhead : exists w rest,
             tok = w ++ rest /\ In w noise_tokens
             /\ word_only w = true /\ w <> []).
  { unfold noise_tokens in *. simpl in Hin.
    destruct Hin as [<-|[<-|[<-|[<-|[<-|[]]]]]].
    - exists (lit "TITLE"), (lit " SHEET"). repeat split; simpl; auto 6; discriminate.
    - exists (lit "DRAWING"), []. repeat split; simpl; auto 6; discriminate.
    - exists (lit "SHEET"), []. repeat split; simpl; auto 6; discriminate.
    - exists (lit "TITLE"), []. repeat split; simpl; auto 6; discriminate.
    - exists (lit "DESIGN"), []. repeat split; simpl; auto 6; discriminate. }
  destruct Hhead as (w & rest & -> & Hw & Hword & Hne).
  apply contains_ci_shorter in Hc.
  apply (finish_keeps_words _ Hword Hne) in Hc.
  rewrite (proj1 (noise_freeP s) H w Hw) in Hc. discriminate.
Qed.

(** C5, as stated, fails: deleting the inner "SHEET" of "SHSHEETEET"
    joins the two halves of another one, which stays in the output. *)
Lemma boilerplate_removal_counterexample :
  filter_target_section (lit "SHSHEETEET") = lit "SHEET"
  /\ contains_ci (lit "SHEET") (filter_target_section (lit "SHSHEETEET")) = true
  /\ noise_free (filter_target_section (lit "SHSHEETEET")) = false.
Proof. repeat split; vm_compute; reflexivity. Qed.

(** C5, amended. The output of [filter_target_section] contains no
    boilerplate token, in any letter case, whenever the text that step 5
    returns contains none: steps 6 to 8 make no token.  Step 5 deletes
    the tokens in one left-to-right pass: the text that reaches it splits
    into stretches it keeps, each free of every token, and token
    occurrences it deletes, and it returns the kept stretches put
    together; so a token can remain only across a place where a deletion
    joined two kept stretches. *)
Theorem boilerplate_removed_in_one_pass (x : str) :
  (noise_free (remove_noise (before_noise_removal x)) = true ->
   noise_free (filter_target_section x) = true)
  /\ exists cuts last_kept,
       before_noise_removal x = weave cuts last_kept
       /\ Forall (fun kd => noise_free (fst kd) = true /\ is_noise (snd kd) = true) cuts
       /\ noise_free last_kept = true
       /\ remove_noise (before_noise_removal x) = kept cuts last_kept
       /\ filter_target_section x
          = strip (collapse_whitespace (remove_structure_number (kept cuts last_kept))).
Proof.
  split; [apply finish_keeps_noise_free|].
  destruct (@noise_scan (length (before_noise_removal x))
              (before_noise_removal x) None (le_n _))
    as (cuts & tl & Hs & Hcuts & Htl & Hout).
  exists cuts, tl. repeat split; try assumption.
  unfold filter_target_section. cbv zeta.
  change (mark_date (mark_job_number (insert_colon (fix_contract_for x))))
    with (before_noise_removal x).
  unfold remove_noise at 1, sub. rewrite Hout. reflexivity.
Qed.

(** C5 amended, at a title-sheet line with three tokens. *)
Lemma boilerplate_removed_in_one_pass_witness :
  noise_free
    (filter_target_section (lit "Title Sheet B01-22222 DRAWING JN 123456 design"))
  = true.
Proof.
  apply (proj1 (boilerplate_removed_in_one_pass
                  (lit "Title Sheet B01-22222 DRAWING JN 123456 design"))).
  vm_compute. reflexivity.
Defined.

(** ** Sample runs of the normalizer *)

(** C8. Structure-number deletion with job-number retention: the output
    for "B01-22222 JN 123456" does not contain "B01-22222" and contains
    "123456". *)
Theorem structure_number_deleted :
  filter_target_section (lit "B01-22222 JN 123456") = lit "Job Number 123456"
  /\ contains (lit "B01-22222") (filter_target_section (lit "B01-22222 JN 123456")) = false
  /\ contains (lit "123456") (filter_target_section (lit "B01-22222 JN 123456")) = true.
Proof. repeat split; vm_compute; reflexivity. Qed.

(** C6. The squished sample is repaired as the claim says, and nothing is
    inserted before a digit or a blank; but step 2 also inserts ": "
    before a lower-case letter, against the claim's "exactly when that
    character is an uppercase letter". *)
Theorem colon_inserted_before_lowercase :
  contains (lit "CONTRACT FOR: BRIDGEREPLACEMENT")
    (filter_target_section (lit "CONTRACTFORBRIDGEREPLACEMENT")) = true
  /\ insert_colon (lit "CONTRACT FOR7") = lit "CONTRACT FOR7"
  /\ insert_colon (lit "CONTRACT FOR BRIDGE") = lit "CONTRACT FOR BRIDGE"
  /\ insert_colon (lit "CONTRACT FORbridge") = lit "CONTRACT FOR: bridge"
  /\ filter_target_section (lit "CONTRACT FORbridge") = lit "CONTRACT FOR: bridge".
Proof. repeat split; vm_compute; reflexivity. Qed.

(** ** Idempotence *)

(** C4, as stated, fails: a second pass deletes the "SHEET" that the
    first pass put together. *)
Lemma idempotence_counterexample :
  filter_target_section (lit "SHSHEETEET") = lit "SHEET"
  /\ filter_target_section (filter_target_section (lit "SHSHEETEET")) = []
  /\ filter_target_section (filter_target_section (lit "SHSHEETEET"))
     <> filter_target_section (lit "SHSHEETEET").
Proof. repeat split; vm_compute; try reflexivity; discriminate. Qed.

Lemma normalizer_steps (y : str) :
  filter_target_section y = strip (collapse_whitespace (rewrite_tokens y)).
Proof. reflexivity. Qed.

(** * Further properties *)

(** ** The extractor: edge cases and calls *)

Lemma lstrip_spaces (s : str) : forallb isspace s = true -> lstrip s = [].
Proof.
  induction s as [|c t IH]; intro H; [reflexivity|].
  simpl in *. apply andb_true_iff in H as [-> H]. apply IH. exact H.
Qed.

Lemma strip_spaces (s : str) : forallb isspace s = true -> strip s = [].
Proof.
  intro H. unfold strip, rstrip.
  rewrite lstrip_spaces; [reflexivity|].
  rewrite lstrip_spaces; [reflexivity|].
  rewrite forallb_forall in *. intros c Hc. apply H, in_rev. exact Hc.
Qed.

(** Case analysis on every library call left in the goal. *)
Ltac call_cases W :=
  repeat (cbn -[lit strip Nat.ltb Nat.eqb];
          match goal with
          | |- context [pymupdf_open W ?p] => destruct (pymupdf_open W p) eqn:?
          | |- context [load_page W ?d ?n] => destruct (load_page W d n) eqn:?
          | |- context [pymupdf_Rect W ?r] => destruct (pymupdf_Rect W r) eqn:?
          | |- context [get_text W ?pg ?c] => destruct (get_text W pg c) eqn:?
          | |- context [doc_close W ?d] => destruct (doc_close W d) eqn:?
          | |- context [negb (length ?t =? 0) && (20 <? length (strip ?t))] =>
              destruct (negb (length t =? 0) && (20 <? length (strip t))) eqn:?
          | |- context [convert_from_path W ?p ?a ?b ?c] =>
              destruct (convert_from_path W p a b c) as [?|[|? ?]] eqn:?
          | |- context [img_crop W ?i ?r] => destruct (img_crop W i r) eqn:?
          | |- context [np_array W ?i] => destruct (np_array W i) eqn:?
          | |- context [ocr_predict W ?a] =>
              destruct (ocr_predict W a) as [?|[|? ?]] eqn:?
          | |- context [fold_left assign_full_text ?l ?a] =>
              destruct (fold_left assign_full_text l a) eqn:?
          end).

(** X1. When the OCR fallback runs and the model returns an empty result,
    the function returns the text "OCR processing returned no results.",
    which does not carry the error prefix. *)
Theorem ocr_empty_result
    (Doc Page Rect Image NdArray : Type) (W : libs Doc Page Rect Image NdArray)
    (umsg : str -> str) (pdf_path : str) (rg : option region)
    (text : str) (img_array : NdArray) :
  direct_stage W pdf_path rg = inr text ->
  length (strip text) <= 20 ->
  raster_stage W pdf_path rg = inr img_array ->
  ocr_predict W img_array = inr [] ->
  extract_title_text_from_pdf umsg W pdf_path rg
  = lit "OCR processing returned no results."
  /\ startswith error_prefix (extract_title_text_from_pdf umsg W pdf_path rg) = false.
Proof.
  intros Hd Hlen Hr Hp.
  destruct (run_direct_short W umsg pdf_path rg Hd Hlen) as (Hout & _).
  unfold extract_title_text_from_pdf. rewrite Hout.
  unfold fallback_stage. rewrite Hr, Hp. split; reflexivity.
Qed.

Lemma ocr_empty_result_witness :
  extract_title_text_from_pdf unbound_local_311
    (demo_libs (lit "  12  ") (inr [])) (lit "a.pdf") None
  = lit "OCR processing returned no results.".
Proof.
  refine (proj1 (ocr_empty_result (demo_libs (lit "  12  ") (inr []))
            unbound_local_311 (lit "a.pdf") None
            (text := lit "  12  ") (img_array := tt) eq_refl _ eq_refl eq_refl)).
  vm_compute. lia.
Defined.

(** X2. When rasterization returns no image, [images[0]] raises inside the
    [try]: the function returns "OCR extraction failed: list index out of
    range" and the OCR model is not called. *)
Theorem no_image_index_error
    (Doc Page Rect Image NdArray : Type) (W : libs Doc Page Rect Image NdArray)
    (umsg : str -> str) (pdf_path : str) (rg : option region) (text : str) :
  direct_stage W pdf_path rg = inr text ->
  length (strip text) <= 20 ->
  convert_from_path W pdf_path 1 1 300 = inr [] ->
  extract_title_text_from_pdf umsg W pdf_path rg
  = lit "OCR extraction failed: list index out of range"
  /\ existsb is_predict (extract_calls umsg W pdf_path rg) = false.
Proof.
  intros Hd Hlen Hc.
  assert (Hcond : negb (length text =? 0) && (20 <? length (strip text)) = false).
  { apply andb_false_iff. right. apply Nat.ltb_ge. exact Hlen. }
  unfold direct_stage in Hd. unfold_extract.
  split_calls Hd; injection Hd as <-; simpl; rewrite Hcond; simpl;
    rewrite Hc; split; reflexivity.
Qed.

Lemma no_image_index_error_witness :
  extract_title_text_from_pdf unbound_local_311 imageless_libs (lit "a.pdf") None
  = lit "OCR extraction failed: list index out of range".
Proof.
  exact (proj1 (no_image_index_error imageless_libs unbound_local_311
                  (lit "a.pdf") None (text := [])
                  eq_refl (Nat.le_0_l 20) eq_refl)).
Defined.

(** X3. The document is closed only on the way through: when reading the
    first page raises after the PDF was opened, [doc.close()] is never
    called; when Method 1 yields its text, it was called exactly once. *)
Theorem document_left_open_on_read_failure
    (Doc Page Rect Image NdArray : Type) (W : libs Doc Page Rect Image NdArray)
    (umsg : str -> str) (pdf_path : str) (rg : option region) :
  (forall doc e,
     pymupdf_open W pdf_path = inr doc -> read_stage W doc rg = inl e ->
     extract_title_text_from_pdf umsg W pdf_path rg = error_prefix ++ exn_str umsg e
     /\ existsb is_close (extract_calls umsg W pdf_path rg) = false)
  /\ (forall text,
        direct_stage W pdf_path rg = inr text ->
        count_calls is_close (extract_calls umsg W pdf_path rg) = 1).
Proof.
  split.
  - intros doc e Hopen Hread. unfold read_stage in Hread. unfold_extract.
    rewrite Hopen. destruct rg as [r|];
      split_calls Hread; try (injection Hread as <-); try rewrite Hread;
      split; reflexivity.
  - intros text Hd. unfold direct_stage in Hd. unfold_extract.
    unfold count_calls.
    split_calls Hd; injection Hd as <-; call_cases W; reflexivity.
Qed.

Lemma document_left_open_on_read_failure_witness :
  existsb is_close
    (extract_calls unbound_local_311 (unreadable_libs (lit "bad page")) (lit "a.pdf") None)
  = false.
Proof.
  exact (proj2 (proj1 (document_left_open_on_read_failure
                  (unreadable_libs (lit "bad page")) unbound_local_311
                  (lit "a.pdf") None) tt (LibError (lit "bad page"))
                  eq_refl eq_refl)).
Defined.

(** X4. A direct text made of whitespace only, however long, counts as
    no text: the OCR fallback is entered. *)
Theorem blank_text_goes_to_ocr
    (Doc Page Rect Image NdArray : Type) (W : libs Doc Page Rect Image NdArray)
    (umsg : str -> str) (pdf_path : str) (rg : option region) (text : str) :
  direct_stage W pdf_path rg = inr text ->
  forallb isspace text = true ->
  existsb is_convert (extract_calls umsg W pdf_path rg) = true
  /\ extract_title_text_from_pdf umsg W pdf_path rg
     = render umsg (fallback_stage W pdf_path rg).
Proof.
  intros Hd Hblank.
  assert (Hlen : length (strip text) <= 20)
    by (rewrite strip_spaces by exact Hblank; simpl; lia).
  destruct (run_direct_short W umsg pdf_path rg Hd Hlen) as (Hout & Hc & _).
  split; [exact Hc|exact Hout].
Qed.

Lemma blank_text_goes_to_ocr_witness :
  existsb is_convert
    (extract_calls unbound_local_311
       (demo_libs (repeat " "%char 40) (inr [])) (lit "a.pdf") None)
  = true.
Proof.
  exact (proj1 (blank_text_goes_to_ocr
                  (demo_libs (repeat " "%char 40) (inr [])) unbound_local_311
                  (lit "a.pdf") None (text := repeat " "%char 40)
                  eq_refl eq_refl)).
Defined.

Ltac in_calls :=
  repeat split; intros;
  repeat match goal with
         | |- ~ _ => intro
         | H : In _ _ |- _ => simpl in H
         | H : _ \/ _ |- _ => destruct H
         | H : False |- _ => contradiction
         | H : _ = _ :> tool_event |- _ =>
             first [discriminate H | injection H as ?; subst]
         end;
  try reflexivity; try discriminate; simpl; auto 20.

(** X5. The region is used throughout or not at all.  With a region (as
    in [ocr_tool]), every text extraction is clipped, no other rectangle
    is ever used, and the OCR model is only called after the image was
    cropped to that region; without one, no rectangle is built, nothing
    is cropped and the text extraction is not clipped. *)
Theorem region_used_consistently
    (Doc Page Rect Image NdArray : Type) (W : libs Doc Page Rect Image NdArray)
    (umsg : str -> str) (pdf_path : str) (rg : option region) :
  (forall r, rg = Some r ->
     (forall b, In (EvGetText b) (extract_calls umsg W pdf_path rg) -> b = true)
     /\ (forall r', In (EvRect r') (extract_calls umsg W pdf_path rg) -> r' = r)
     /\ (forall r', In (EvCrop r') (extract_calls umsg W pdf_path rg) -> r' = r)
     /\ (In EvPredict (extract_calls umsg W pdf_path rg) ->
         In (EvCrop r) (extract_calls umsg W pdf_path rg)))
  /\ (rg = None ->
      (forall b, In (EvGetText b) (extract_calls umsg W pdf_path rg) -> b = false)
      /\ (forall r', ~ In (EvRect r') (extract_calls umsg W pdf_path rg))
      /\ (forall r', ~ In (EvCrop r') (extract_calls umsg W pdf_path rg))).
Proof.
  split.
  - intros r ->. unfold_extract. call_cases W; in_calls.
  - intros ->. unfold_extract. call_cases W; in_calls.
Qed.

Lemma region_used_consistently_witness :
  In (EvCrop (2550, 1650, 5100, 3300)%Z)
    (extract_calls unbound_local_311 (demo_libs [] (inr []))
       (lit "a.pdf") (Some (2550, 1650, 5100, 3300)%Z)).
Proof.
  apply (proj1 (region_used_consistently (demo_libs [] (inr []))
                  unbound_local_311 (lit "a.pdf")
                  (Some (2550, 1650, 5100, 3300)%Z)) _ eq_refl).
  vm_compute. auto 20.
Defined.

(** X6. No call is repeated: one run opens the PDF exactly once, as its
    first call, and closes it, rasterizes and calls the OCR model at most
    once each. *)
Theorem no_call_repeated
    (Doc Page Rect Image NdArray : Type) (W : libs Doc Page Rect Image NdArray)
    (umsg : str -> str) (pdf_path : str) (rg : option region) :
  hd_error (extract_calls umsg W pdf_path rg) = Some (EvOpen pdf_path)
  /\ count_calls is_open (extract_calls umsg W pdf_path rg) = 1
  /\ count_calls is_close (extract_calls umsg W pdf_path rg) <= 1
  /\ count_calls is_convert (extract_calls umsg W pdf_path rg) <= 1
  /\ count_calls is_predict (extract_calls umsg W pdf_path rg) <= 1.
Proof.
  unfold_extract. unfold count_calls.
  destruct rg as [r|]; call_cases W; repeat split; simpl; lia.
Qed.

(** ** The batch loop: calls and file names *)

Section BatchCalls.

Variable agent_invoke : str -> exn + list (str * str).
Variable parser_parse : option str -> exn + BridgeWork.
Variable path_join : str -> str -> str.
Variable umsg : str -> str.
Variable folder_path : str.

Lemma count_calls_app (E : Type) (p : E -> bool) (a b : list E) :
  count_calls p (a ++ b) = count_calls p a + count_calls p b.
Proof. unfold count_calls. rewrite filter_app, length_app. reflexivity. Qed.

(** The calls of one document: one agent call with the file's query, and
    a parser call when the agent returned. *)
Lemma document_step_calls (results : list ResultRow) (filename : str)
    (tr : list main_event) :
  exists rows ev,
    try_except
      (try_document agent_invoke parser_parse results filename
         (path_join folder_path filename))
      (on_error umsg results filename) tr
    = (inr rows, tr ++ ev)
    /\ count_calls is_invoke ev = 1
    /\ count_calls is_parse ev
       = (if invoke_returns agent_invoke path_join folder_path filename
          then 1 else 0)
    /\ (forall q, In (MInvoke q) ev -> q = query_of path_join folder_path filename).
Proof.
  unfold try_except, try_document, on_error, invoke_returns, query_of,
    bind, call, ret, mprint.
  destruct (agent_invoke _) as [e|raw].
  - eexists _, ([_] ++ [_]).
    split; [rewrite !app_assoc; reflexivity|]. repeat split.
    intros q [Hq|[Hq|[]]]; [injection Hq as <-; reflexivity|discriminate].
  - destruct (parser_parse _) as [e|sr].
    + eexists _, ([_] ++ [_] ++ [_]).
      split; [rewrite !app_assoc; reflexivity|]. repeat split.
      intros q [Hq|[Hq|[Hq|[]]]];
        [injection Hq as <-; reflexivity|discriminate|discriminate].
    + eexists _, ([_] ++ [_]).
      split; [rewrite !app_assoc; reflexivity|]. repeat split.
      intros q [Hq|[Hq|[]]]; [injection Hq as <-; reflexivity|discriminate].
Qed.

Lemma batch_loop_calls (files : list str) :
  forall results tr, exists rows ev,
    batch_loop agent_invoke parser_parse path_join umsg folder_path files results tr
    = (inr rows, tr ++ ev)
    /\ count_calls is_invoke ev = length (filter is_pdf files)
    /\ count_calls is_parse ev
       = length (filter (fun f => is_pdf f
                                   && invoke_returns agent_invoke path_join folder_path f)
                   files)
    /\ (forall q, In (MInvoke q) ev ->
          exists f, In f files /\ is_pdf f = true
                    /\ q = query_of path_join folder_path f).
Proof.
  induction files as [|filename rest IH]; intros results tr.
  - exists results, []. rewrite app_nil_r. repeat split. intros q [].
  - simpl. destruct (is_pdf filename) eqn:Hpdf.
    + unfold bind at 1. unfold mprint at 1, call at 1. unfold bind at 1.
      match goal with
      | |- context [try_except _ _ ?t] =>
          destruct (document_step_calls results filename t)
            as (rows1 & ev1 & -> & Hi1 & Hp1 & Hq1)
      end.
      match goal with
      | |- context [(tr ++ [?p]) ++ ev1] =>
          destruct (IH rows1 ((tr ++ [p]) ++ ev1))
            as (rows2 & ev2 & -> & Hi2 & Hp2 & Hq2);
          exists rows2, ([p] ++ ev1 ++ ev2)
      end.
      split; [rewrite <- !app_assoc; reflexivity|].
      rewrite !count_calls_app, Hi1, Hi2, Hp1, Hp2. simpl.
      split; [reflexivity|]. split.
      * destruct (invoke_returns _ _ _ filename); reflexivity.
      * intros q Hq. destruct Hq as [Hq|Hq]; [discriminate|].
        apply in_app_or in Hq as [Hq|Hq].
        -- exists filename. split; [left; reflexivity|]. split; [exact Hpdf|].
           apply Hq1. exact Hq.
        -- destruct (Hq2 q Hq) as (f & Hf & Hfp & Hfq).
           exists f. split; [right; exact Hf|]. split; assumption.
    + destruct (IH results tr) as (rows & ev & -> & Hi & Hp & Hq).
      exists rows, ev. split; [reflexivity|]. split; [exact Hi|].
      split; [exact Hp|].
      intros q Hin. destruct (Hq q Hin) as (f & Hf & Hfp & Hfq).
      exists f. split; [right; exact Hf|]. split; assumption.
Qed.

End BatchCalls.

(** X7. The batch loop calls the agent exactly once for every PDF file
    name, with that file's query, and never for another name; the parser
    is called exactly for the documents whose agent call returned.  A
    failed document is not tried again. *)
Theorem one_agent_call_per_pdf
    (agent_invoke : str -> exn + list (str * str))
    (parser_parse : option str -> exn + BridgeWork)
    (path_join : str -> str -> str) (umsg : str -> str) (folder_path : str)
    (files : list str) :
  count_calls is_invoke
    (snd (batch agent_invoke parser_parse path_join umsg folder_path files))
  = length (filter is_pdf files)
  /\ count_calls is_parse
       (snd (batch agent_invoke parser_parse path_join umsg folder_path files))
     = length (filter (fun f => is_pdf f
                                 && invoke_returns agent_invoke path_join folder_path f)
                 files)
  /\ (forall q,
        In (MInvoke q)
          (snd (batch agent_invoke parser_parse path_join umsg folder_path files)) ->
        exists f, In f files /\ is_pdf f = true
                  /\ q = query_of path_join folder_path f).
Proof.
  unfold batch.
  destruct (batch_loop_calls agent_invoke parser_parse path_join umsg folder_path
              files [] []) as (rows & ev & -> & Hi & Hp & Hq).
  simpl. split; [exact Hi|]. split; [exact Hp|exact Hq].
Qed.

Lemma startswith_prefix (p s : str) :
  startswith p s = true <-> exists r, s = p ++ r.
Proof.
  revert s. induction p as [|a p IH]; intro s.
  - split; [intros _; exists s; reflexivity|reflexivity].
  - destruct s as [|b s].
    + split; [discriminate|intros [r Hr]; discriminate].
    + simpl. rewrite andb_true_iff, IH. split.
      * intros [Hab [r ->]]. apply Ascii.eqb_eq in Hab as ->.
        exists r. reflexivity.
      * intros [r Hr]. injection Hr as -> ->.
        split; [apply Ascii.eqb_refl|exists r; reflexivity].
Qed.

Lemma endswith_suffix (s p : str) :
  endswith s p = true <-> exists a, s = a ++ p.
Proof.
  unfold endswith. rewrite startswith_prefix. split.
  - intros [r Hr]. exists (rev r).
    rewrite <- (rev_involutive s), Hr, rev_app_distr, rev_involutive.
    reflexivity.
  - intros [a ->]. exists (rev a). apply rev_app_distr.
Qed.

(** X8. A file name counts as a PDF exactly when it ends in ".pdf" written
    in any mix of upper and lower case; what stands before the extension
    does not matter and may be empty. *)
Theorem pdf_extension_any_case (filename : str) :
  is_pdf filename = true
  <-> exists name ext, filename = name ++ ext /\ lower_str ext = lit ".pdf".
Proof.
  unfold is_pdf. rewrite endswith_suffix. split.
  - intros [a Ha].
    exists (firstn (length a) filename), (skipn (length a) filename).
    split; [symmetry; apply firstn_skipn|].
    unfold lower_str in *. rewrite <- skipn_map, Ha.
    rewrite skipn_app, Nat.sub_diag, skipn_all. reflexivity.
  - intros (name & ext & -> & Hext). exists (lower_str name).
    unfold lower_str in *. rewrite map_app, Hext. reflexivity.
Qed.

(** ** The normalizer: what the substitutions leave alone *)

Lemma all_chars_in (c : ascii) : In c all_chars.
Proof.
  unfold all_chars. rewrite <- (ascii_nat_embedding c).
  apply in_map, in_seq. pose proof (nat_ascii_bounded c). lia.
Qed.

Lemma digits_app (a b : str) : digits (a ++ b) = digits a ++ digits b.
Proof. apply filter_app. Qed.

Lemma firstn_consumed (m s' : str) :
  firstn (length (m ++ s') - length s') (m ++ s') = m.
Proof.
  rewrite length_app, Nat.add_sub, firstn_app, Nat.sub_diag, firstn_all.
  simpl. apply app_nil_r.
Qed.

Lemma last_of_app (prev : option ascii) (a b : str) :
  last_of prev (a ++ b) = last_of (last_of prev a) b.
Proof. apply fold_left_app. Qed.

Section DigitFree.

Variable ic : bool.

Lemma class_digit_free (k : cclass) (m : str) :
  forallb (fun c => negb (cls_match ic k c && isdecimal c)) all_chars = true ->
  forallb (cls_match ic k) m = true -> digits m = [].
Proof.
  intros Hk. rewrite forallb_forall in Hk.
  induction m as [|c m IH]; intro Hm; [reflexivity|].
  simpl in Hm. apply andb_true_iff in Hm as [Hc Hm].
  specialize (Hk c (all_chars_in c)). rewrite Hc in Hk. simpl in Hk.
  apply negb_true_iff in Hk. simpl. rewrite Hk. apply IH. exact Hm.
Qed.

(** What a digit-free pattern reads holds no digit. *)
Lemma matches_no_digit (r : regex) :
  no_digit ic r = true ->
  forall prev s p' s', matches ic r prev s p' s' ->
    exists m, s = m ++ s' /\ digits m = [].
Proof.
  induction r as [|a|k|a IHa b IHb|a IHa b IHb|k lo hi|a IHa|n a IHa|];
    intros Hr prev s p' s' H; simpl in H; cbn [no_digit] in Hr.
  - destruct H as [_ ->]. exists []. split; reflexivity.
  - destruct H as (c & -> & Hc & _). exists [c]. split; [reflexivity|].
    rewrite forallb_forall in Hr. specialize (Hr c (all_chars_in c)).
    rewrite Hc in Hr. simpl in Hr. apply negb_true_iff in Hr.
    simpl. rewrite Hr. reflexivity.
  - destruct H as (c & -> & Hc & _). exists [c]. split; [reflexivity|].
    apply (class_digit_free k [c] Hr). simpl. rewrite Hc. reflexivity.
  - apply andb_true_iff in Hr as [Ha Hb].
    destruct H as (p1 & s1 & H1 & H2).
    destruct (IHa Ha _ _ _ _ H1) as (m1 & -> & Hm1).
    destruct (IHb Hb _ _ _ _ H2) as (m2 & -> & Hm2).
    exists (m1 ++ m2). split; [apply app_assoc|].
    rewrite digits_app, Hm1, Hm2. reflexivity.
  - apply andb_true_iff in Hr as [Ha Hb].
    destruct H as [H|H]; [apply (IHa Ha _ _ _ _ H)|apply (IHb Hb _ _ _ _ H)].
  - destruct H as (m & -> & Hall & _). exists m. split; [reflexivity|].
    apply (class_digit_free k m Hr Hall).
  - destruct H as [H|[_ ->]]; [apply (IHa Hr _ _ _ _ H)|].
    exists []. split; reflexivity.
  - apply (IHa Hr _ _ _ _ H).
  - destruct H as (_ & _ & ->). exists []. split; reflexivity.
Qed.

(** The groups a digit-free pattern records hold no digit either. *)
Lemma run_groups_no_digit (B : Type) (r : regex) :
  no_digit ic r = true ->
  forall prev s g (kt : cont B) x,
    run ic r prev s g kt = Some x -> digit_free_groups g ->
    exists p' s' g', matches ic r prev s p' s' /\ kt p' s' g' = Some x
                     /\ digit_free_groups g'.
Proof.
  induction r as [|a|k|a IHa b IHb|a IHa b IHb|k lo hi|a IHa|n a IHa|];
    intros Hr prev s g kt x H Hg; simpl in H; cbn [no_digit] in Hr.
  - exists prev, s, g. simpl. auto.
  - destruct s as [|c t]; [discriminate|].
    destruct (chr_match ic a c) eqn:Hc; [|discriminate].
    exists (Some c), t, g. simpl. eauto 6.
  - destruct s as [|c t]; [discriminate|].
    destruct (cls_match ic k c) eqn:Hc; [|discriminate].
    exists (Some c), t, g. simpl. eauto 6.
  - apply andb_true_iff in Hr as [Ha Hb].
    destruct (IHa Ha _ _ _ _ _ H Hg) as (p1 & s1 & g1 & H1 & Hk1 & Hg1).
    destruct (IHb Hb _ _ _ _ _ Hk1 Hg1) as (p2 & s2 & g2 & H2 & Hk2 & Hg2).
    exists p2, s2, g2. simpl. eauto 8.
  - apply andb_true_iff in Hr as [Ha Hb].
    destruct (run ic a prev s g kt) as [y|] eqn:Hleft.
    + injection H as <-.
      destruct (IHa Ha _ _ _ _ _ Hleft Hg) as (p' & s' & g' & Hm & Hk & Hg').
      exists p', s', g'. simpl. auto.
    + destruct (IHb Hb _ _ _ _ _ H Hg) as (p' & s' & g' & Hm & Hk & Hg').
      exists p', s', g'. simpl. auto.
  - apply rep_sound in H as (m & s' & Hs & Hall & Hlo & Hhi & Hk).
    exists (last_of prev m), s', g. simpl. eauto 10.
  - destruct (run ic a prev s g kt) as [y|] eqn:Hin.
    + injection H as <-.
      destruct (IHa Hr _ _ _ _ _ Hin Hg) as (p' & s' & g' & Hm & Hk & Hg').
      exists p', s', g'. simpl. auto.
    + exists prev, s, g. simpl. auto.
  - destruct (IHa Hr _ _ _ _ _ H Hg) as (p' & s' & g' & Hm & Hk & Hg').
    eexists p', s', _. split; [exact Hm|]. split; [exact Hk|].
    constructor; [|exact Hg'].
    destruct (matches_no_digit a Hr _ _ _ _ Hm) as (m & -> & Hd).
    simpl. rewrite firstn_consumed. exact Hd.
  - destruct (at_boundary prev s) eqn:Hb; [|discriminate].
    exists prev, s, g. simpl. auto.
Qed.

Lemma group_no_digit (n : nat) (g : groups) :
  digit_free_groups g -> digits (group n g) = [].
Proof.
  induction 1 as [|[k v] g Hv Hg IH]; [reflexivity|].
  simpl. destruct (k =? n); [exact Hv|exact IH].
Qed.

Lemma literal_no_digit (l : str) :
  forallb (fun c => negb (isdecimal c)) l = true -> digits l = [].
Proof.
  induction l as [|c l IH]; intro Hl; [reflexivity|].
  simpl in *. apply andb_true_iff in Hl as [Hc Hl].
  apply negb_true_iff in Hc. rewrite Hc. apply IH. exact Hl.
Qed.

Lemma expand_no_digit (t : list titem) (g : groups) :
  template_no_digit t = true -> digit_free_groups g ->
  digits (expand t g) = [].
Proof.
  intros Ht Hg. unfold template_no_digit in Ht. revert Ht.
  induction t as [|it t' IH]; intro Ht; [reflexivity|].
  cbn [forallb] in Ht. apply andb_true_iff in Ht as [Hl Ht].
  destruct it as [l|n]; cbn [expand]; rewrite digits_app, (IH Ht), app_nil_r.
  - apply literal_no_digit. exact Hl.
  - apply group_no_digit. exact Hg.
Qed.

Variable r : regex.
Variable t : list titem.
Hypothesis r_no_digit : no_digit ic r = true.
Hypothesis t_no_digit : template_no_digit t = true.

Lemma match_at_no_digit (prev : option ascii) (s : str) (n : nat) (g : groups) :
  match_at ic r prev s = Some (n, g) ->
  n <= length s /\ digits (firstn n s) = [] /\ digits (expand t g) = [].
Proof.
  intro H. unfold match_at in H.
  destruct (@run_groups_no_digit _ r r_no_digit _ _ _ _ _ H (Forall_nil _))
    as (p' & s' & g' & Hm & Hk & Hg).
  injection Hk as <- <-.
  destruct (@matches_no_digit r r_no_digit _ _ _ _ Hm) as (m & -> & Hd).
  rewrite firstn_consumed, length_app, Nat.add_sub.
  split; [lia|]. split; [exact Hd|].
  apply expand_no_digit; assumption.
Qed.

(** Such a substitution keeps the digits of the text as they are. *)
Lemma sub_go_digits (len : nat) :
  forall s prev, length s <= len ->
    digits (sub_go ic r t prev s 0) = digits s.
Proof.
  induction len as [|len IH]; intros s prev Hlen; rewrite sub_go_unfold.
  - destruct s; [|simpl in Hlen; lia].
    destruct (match_at ic r prev []) as [[n g]|] eqn:Hm; [|reflexivity].
    destruct (match_at_no_digit _ _ Hm) as (_ & _ & He).
    rewrite app_nil_r. exact He.
  - destruct (match_at ic r prev s) as [[n g]|] eqn:Hm.
    + destruct (match_at_no_digit _ _ Hm) as (Hn & Hd & He).
      rewrite digits_app, He. cbn [app].
      destruct s as [|c s']; [reflexivity|].
      destruct n as [|k].
      * simpl. rewrite IH by (simpl in Hlen; lia). reflexivity.
      * destruct (@sub_go_skip ic r t k s' (Some c)) as [p' ->];
          [simpl in Hn; lia|].
        rewrite IH by (rewrite length_skipn; simpl in Hlen; lia).
        assert (Hsplit : digits (c :: s')
                         = digits (firstn (S k) (c :: s'))
                           ++ digits (skipn (S k) (c :: s')))
          by (rewrite <- digits_app, firstn_skipn; reflexivity).
        rewrite Hsplit, Hd. reflexivity.
    + destruct s as [|c s']; [reflexivity|].
      simpl. rewrite IH by (simpl in Hlen; lia). reflexivity.
Qed.

Lemma sub_digits (s : str) : digits (sub ic r t s) = digits s.
Proof. apply (sub_go_digits (len := length s)). lia. Qed.

End DigitFree.

Lemma space_not_digit (c : ascii) : isspace c = true -> isdecimal c = false.
Proof.
  destruct c as [[] [] [] [] [] [] [] []]; vm_compute; congruence.
Qed.

Lemma digits_lstrip (s : str) : digits (lstrip s) = digits s.
Proof.
  induction s as [|c t IH]; [reflexivity|].
  simpl. destruct (isspace c) eqn:Hc; [|reflexivity].
  rewrite (space_not_digit _ Hc). exact IH.
Qed.

Lemma digits_strip (s : str) : digits (strip s) = digits s.
Proof.
  unfold strip, rstrip. rewrite digits_lstrip.
  unfold digits. rewrite filter_rev.
  fold (digits (lstrip (rev s))). rewrite digits_lstrip.
  unfold digits. rewrite filter_rev, rev_involutive. reflexivity.
Qed.

(** X9. Steps 1 to 5, 7 and 8 never add, drop or reorder a decimal digit:
    the text that leaves step 5 has the digits of the input, and the
    output has the digits of the text that leaves step 6.  Only the
    structure-number deletion can take digits away. *)
Theorem digits_survive_rewriting (x : str) :
  digits (remove_noise (before_noise_removal x)) = digits x
  /\ digits (filter_target_section x) = digits (rewrite_tokens x)
  /\ (remove_structure_number (remove_noise (before_noise_removal x))
      = remove_noise (before_noise_removal x) ->
      digits (filter_target_section x) = digits x).
Proof.
  assert (H5 : digits (remove_noise (before_noise_removal x)) = digits x).
  { unfold remove_noise, before_noise_removal, mark_date, mark_job_number,
      insert_colon, fix_contract_for.
    rewrite !sub_digits by (vm_compute; reflexivity). reflexivity. }
  assert (H8 : digits (filter_target_section x) = digits (rewrite_tokens x)).
  { rewrite normalizer_steps, digits_strip. unfold collapse_whitespace.
    apply sub_digits; vm_compute; reflexivity. }
  split; [exact H5|]. split; [exact H8|].
  intro Hnone. rewrite H8. unfold rewrite_tokens. rewrite Hnone. exact H5.
Qed.

Lemma digits_survive_rewriting_witness :
  digits (filter_target_section
            (lit "JN 201222A CONTRACTFOR BRIDGE REPLACEMENT DATE 5/1/2024"))
  = lit "201222512024".
Proof.
  refine (eq_trans (proj2 (proj2 (digits_survive_rewriting
            (lit "JN 201222A CONTRACTFOR BRIDGE REPLACEMENT DATE 5/1/2024"))) _) _);
    vm_compute; reflexivity.
Defined.

(** What such a pattern matches begins with an ASCII letter. *)
Lemma matches_needs_letter (r : regex) :
  needs_letter r = true ->
  forall prev s p' s', matches true r prev s p' s' ->
    exists c t, s = c :: t /\ is_ascii_letter c = true.
Proof.
  induction r as [|a|k|a IHa b IHb|a IHa b IHb|k lo hi|a IHa|n a IHa|];
    intros Hr prev s p' s' H; cbn [needs_letter] in Hr; try discriminate.
  - destruct H as (c & -> & Hc & _). exists c, s'. split; [reflexivity|].
    rewrite forallb_forall in Hr. specialize (Hr c (all_chars_in c)).
    rewrite Hc in Hr. exact Hr.
  - destruct H as (c & -> & Hc & _). exists c, s'. split; [reflexivity|].
    rewrite forallb_forall in Hr. specialize (Hr c (all_chars_in c)).
    rewrite Hc in Hr. exact Hr.
  - destruct H as (p1 & s1 & H1 & H2).
    assert (Hcases : (a = Bnd /\ needs_letter b = true) \/ needs_letter a = true)
      by (destruct a; auto).
    destruct Hcases as [[-> Hb]|Ha].
    + destruct H1 as (_ & -> & ->). apply (IHb Hb _ _ _ _ H2).
    + destruct (IHa Ha _ _ _ _ H1) as (c & t & -> & Hc).
      exists c, t. split; [reflexivity|exact Hc].
  - apply andb_true_iff in Hr as [Ha Hb].
    destruct H as [H|H]; [apply (IHa Ha _ _ _ _ H)|apply (IHb Hb _ _ _ _ H)].
  - apply (IHa Hr _ _ _ _ H).
Qed.

Section NoTrigger.

Variable r : regex.
Variable t : list titem.
Hypothesis r_needs_letter : needs_letter r = true.

Lemma match_at_needs_letter (prev : option ascii) (s : str) :
  match s with
  | c :: _ => is_ascii_letter c = false
  | [] => True
  end ->
  match_at true r prev s = None.
Proof.
  intro Hs. destruct (match_at true r prev s) as [[n g]|] eqn:Hm; [|reflexivity].
  apply match_at_sound in Hm as (p' & m & s' & _ & _ & Hm).
  destruct (matches_needs_letter r r_needs_letter _ _ _ _ Hm) as (c & u & -> & Hc).
  rewrite Hc in Hs. discriminate.
Qed.

(** A text without letters gives such a substitution nothing to do. *)
Lemma sub_go_letter_free (s : str) :
  forall prev, letter_free s = true -> sub_go true r t prev s 0 = s.
Proof.
  induction s as [|c s' IH]; intros prev Hs; rewrite sub_go_unfold.
  - rewrite match_at_needs_letter; [reflexivity|exact I].
  - simpl in Hs. apply andb_true_iff in Hs as [Hc Hs].
    rewrite match_at_needs_letter by (apply negb_true_iff; exact Hc).
    rewrite IH by exact Hs. reflexivity.
Qed.

End NoTrigger.

Lemma collapse_blank (s : str) :
  forallb isspace s = true -> strip (collapse_whitespace s) = [].
Proof.
  intro H. unfold collapse_whitespace, sub.
  rewrite sub_go_unfold, match_at_spaces.
  assert (Hspan : span s = length s).
  { induction s as [|c u IH]; [reflexivity|].
    simpl in *. apply andb_true_iff in H as [-> H]. rewrite IH by exact H.
    reflexivity. }
  destruct (2 <=? span s) eqn:Hlen.
  - apply Nat.leb_le in Hlen. destruct s as [|c u]; [simpl in Hlen; lia|].
    simpl length in Hspan. rewrite Hspan.
    destruct (@sub_go_skip false pat_spaces [TLit (lit " ")] (length u) u (Some c)
                (le_n _)) as [p' ->].
    rewrite skipn_all. reflexivity.
  - apply Nat.leb_gt in Hlen. rewrite Hspan in Hlen.
    destruct s as [|c [|d u]]; [reflexivity| |simpl in Hlen; lia].
    simpl in H. rewrite andb_true_r in H.
    unfold strip, rstrip. simpl. rewrite H. simpl. reflexivity.
Qed.

Lemma blank_letter_free (s : str) :
  forallb isspace s = true -> letter_free s = true.
Proof.
  unfold letter_free. rewrite !forallb_forall. intros H c Hc.
  specialize (H c Hc). revert H.
  destruct c as [[] [] [] [] [] [] [] []]; vm_compute; congruence.
Qed.

(** X10. On texts over the code points U+0000 to U+00FF: a text without
    ASCII letters (digits, punctuation, blanks: a bare job number or date)
    gives steps 1 to 6 nothing to do; the output is the text with its
    whitespace collapsed and trimmed.  In particular the empty text and a
    text of whitespace only give the empty text.  (Beyond U+00FF,
    [re.IGNORECASE] lets the patterns also match U+0130, U+0131, U+017F
    and U+212A; such texts are outside [str] and outside this
    statement.) *)
Theorem letter_free_text_only_respaced (x : str) :
  (letter_free x = true ->
   rewrite_tokens x = x
   /\ filter_target_section x = strip (collapse_whitespace x))
  /\ (forallb isspace x = true -> filter_target_section x = []).
Proof.
  assert (H : letter_free x = true -> rewrite_tokens x = x).
  { intro Hx.
    unfold rewrite_tokens, remove_structure_number, remove_noise,
      before_noise_removal, mark_date, mark_job_number, insert_colon,
      fix_contract_for, sub.
    rewrite (@sub_go_letter_free pat_contract_for _
               ltac:(vm_compute; reflexivity) x None Hx).
    rewrite (@sub_go_letter_free pat_squished _
               ltac:(vm_compute; reflexivity) x None Hx).
    rewrite (@sub_go_letter_free pat_jn _
               ltac:(vm_compute; reflexivity) x None Hx).
    rewrite (@sub_go_letter_free pat_date _
               ltac:(vm_compute; reflexivity) x None Hx).
    rewrite (@sub_go_letter_free pat_noise _
               ltac:(vm_compute; reflexivity) x None Hx).
    rewrite (@sub_go_letter_free pat_structure _
               ltac:(vm_compute; reflexivity) x None Hx).
    reflexivity. }
  split.
  - intro Hx. split; [apply H; exact Hx|].
    rewrite normalizer_steps, H by exact Hx. reflexivity.
  - intro Hx. rewrite normalizer_steps, H by (apply blank_letter_free; exact Hx).
    apply collapse_blank. exact Hx.
Qed.

Lemma letter_free_text_only_respaced_witness :
  filter_target_section (lit "  201222   5/1/2024 ") = lit "201222 5/1/2024".
Proof.
  refine (eq_trans (proj2 (proj1 (letter_free_text_only_respaced
            (lit "  201222   5/1/2024 ")) eq_refl)) _).
  vm_compute. reflexivity.
Defined.

(** ** Step 6: what a deleted stretch looks like *)

Section SubCuts.

(** A deleting substitution whose matches all satisfy [Q]. *)
Variable ic : bool.
Variable r : regex.
Variable Q : str -> str -> Prop.
Hypothesis match_Q :
  forall prev s n g,
    match_at ic r prev s = Some (n, g) ->
    0 < n /\ n <= length s /\ Q (firstn n s) (skipn n s).

Lemma sub_go_cuts (len : nat) :
  forall s prev, length s <= len ->
    exists cuts last_kept,
      s = weave cuts last_kept
      /\ sub_go ic r [TLit (lit "")] prev s 0 = kept cuts last_kept
      /\ cuts_ok Q cuts last_kept.
Proof.
  induction len as [|len IH]; intros s prev Hlen; rewrite sub_go_unfold.
  - destruct s; [|simpl in Hlen; lia].
    destruct (match_at ic r prev []) as [[n g]|] eqn:Hm.
    + destruct (match_Q _ _ Hm) as (? & ? & _). simpl in *. lia.
    + exists [], []. repeat split.
  - destruct (match_at ic r prev s) as [[n g]|] eqn:Hm.
    + destruct (match_Q _ _ Hm) as (Hpos & Hn & HQ).
      destruct s as [|c s']; [simpl in Hn; lia|].
      destruct n as [|k]; [lia|].
      destruct (@sub_go_skip ic r [TLit (lit "")] k s' (Some c)) as [p' ->];
        [simpl in Hn; lia|].
      destruct (IH (skipn k s') p') as (cuts & tl & Hs & Hout & Hok);
        [rewrite length_skipn; simpl in Hlen; lia|].
      exists (([], firstn (S k) (c :: s')) :: cuts), tl.
      split; [|split].
      * unfold weave in *. cbn [map concat fst snd app].
        rewrite <- app_assoc, <- Hs.
        change (skipn k s') with (skipn (S k) (c :: s')).
        symmetry. apply firstn_skipn.
      * rewrite Hout. reflexivity.
      * cbn [cuts_ok]. split; [|exact Hok].
        rewrite <- Hs. exact HQ.
    + destruct s as [|c s']; [exists [], []; repeat split|].
      destruct (IH s' (Some c)) as (cuts & tl & Hs & Hout & Hok);
        [simpl in Hlen; lia|].
      rewrite Hout. destruct cuts as [|[k d] cuts'].
      * exists [], (c :: tl). unfold weave, kept in *. simpl in *.
        rewrite Hs. repeat split.
      * exists ((c :: k, d) :: cuts'), tl. unfold weave, kept in *.
        cbn [map concat fst snd] in *. rewrite Hs, <- !app_assoc.
        repeat split; apply Hok.
Qed.

End SubCuts.

Lemma letter_not_digit (c : ascii) :
  is_ascii_letter c = true -> isdecimal c = false.
Proof.
  destruct c as [[] [] [] [] [] [] [] []]; vm_compute; congruence.
Qed.

Lemma range_is_letter (c : ascii) :
  cls_match true (Range "A" "Z") c = true -> is_ascii_letter c = true.
Proof.
  destruct c as [[] [] [] [] [] [] [] []]; vm_compute; congruence.
Qed.

Lemma chr_match_letter (a c : ascii) :
  is_ascii_letter a = true -> chr_match true a c = true ->
  is_ascii_letter c = true.
Proof.
  unfold chr_match. intros Ha Hc. apply Ascii.eqb_eq in Hc.
  assert (Hl : forall x, is_ascii_letter (lower x) = is_ascii_letter x)
    by (intros [[] [] [] [] [] [] [] []]; vm_compute; reflexivity).
  rewrite <- Hl, Hc, Hl. exact Ha.
Qed.

Lemma hyphen_match (c : ascii) : chr_match true "-" c = true -> c = "-"%char.
Proof.
  destruct c as [[] [] [] [] [] [] [] []]; vm_compute; congruence.
Qed.

Lemma runs_digits (ds rest : str) :
  forall cur, forallb isdecimal ds = true ->
    digit_runs_ok cur (ds ++ rest) = digit_runs_ok (cur + length ds) rest.
Proof.
  induction ds as [|d ds IH]; intros cur H.
  - rewrite Nat.add_0_r. reflexivity.
  - simpl in *. apply andb_true_iff in H as [-> H].
    rewrite IH by exact H. f_equal. lia.
Qed.

Lemma runs_spaces (ws rest : str) :
  forall cur, forallb isspace ws = true -> ws <> [] ->
    digit_runs_ok cur (ws ++ rest) = (cur <=? 5) && digit_runs_ok 0 rest.
Proof.
  induction ws as [|c ws IH]; intros cur H Hne; [contradiction|].
  simpl in *. apply andb_true_iff in H as [Hc H].
  rewrite (space_not_digit _ Hc).
  destruct ws as [|c' ws']; [reflexivity|].
  rewrite IH by (try exact H; discriminate). reflexivity.
Qed.

Lemma ends_with_digit_app (a b : str) :
  b <> [] -> ends_with_digit (a ++ b) = ends_with_digit b.
Proof.
  intro Hb. unfold ends_with_digit. rewrite rev_app_distr.
  destruct (rev b) as [|e rb] eqn:Hrev; [|reflexivity].
  apply (f_equal (@rev ascii)) in Hrev. rewrite rev_involutive in Hrev.
  contradiction.
Qed.

Lemma ends_with_digit_digits (ds : str) :
  forallb isdecimal ds = true -> ds <> [] -> ends_with_digit ds = true.
Proof.
  intros H Hne. unfold ends_with_digit.
  destruct (rev ds) as [|e rb] eqn:Hrev.
  - apply (f_equal (@rev ascii)) in Hrev. rewrite rev_involutive in Hrev.
    contradiction.
  - rewrite forallb_forall in H. apply H, in_rev. rewrite Hrev. left. reflexivity.
Qed.

Lemma nonempty_length (A : Type) (l : list A) : 1 <= length l -> l <> [].
Proof. destruct l; simpl; [lia|discriminate]. Qed.

(** The text of [\s+of\s+\d{5}]. *)
Lemma of_5_text (prev : option ascii) (s : str) (p' : option ascii) (s' : str) :
  matches true pat_of_5 prev s p' s' ->
  exists m, s = m ++ s' /\ m <> []
            /\ (exists c u, m = c :: u /\ isspace c = true)
            /\ ends_with_digit m = true
            /\ (forall cur, digit_runs_ok cur m = (cur <=? 5)).
Proof.
  unfold pat_of_5. change (word (lit "of")) with (Cat (Chr "o") (Chr "f")).
  cbn [matches].
  intros (p1 & s1 & (ws & -> & Hws & Hwl & _ & _)
          & p2 & s2 & (p3 & s3 & (o & -> & Ho & _) & (f & -> & Hf & _))
          & p4 & s4 & (ws' & -> & Hws' & Hwl' & _ & _)
          & (m5 & -> & H5 & Hl5 & Hh5 & _)).
  simpl in Hh5. assert (Hlen : length m5 = 5) by lia.
  exists (ws ++ o :: f :: ws' ++ m5).
  split; [rewrite <- !app_assoc; simpl; rewrite <- !app_assoc; reflexivity|].
  pose proof (nonempty_length Hwl) as Hne.
  pose proof (nonempty_length Hwl') as Hne'.
  assert (Hm5 : m5 <> []) by (destruct m5; [discriminate|discriminate]).
  split; [destruct ws; [contradiction|discriminate]|].
  split.
  { destruct ws as [|c u]; [contradiction|].
    exists c, (u ++ o :: f :: ws' ++ m5). split; [reflexivity|].
    simpl in Hws. apply andb_true_iff in Hws as [Hc _]. exact Hc. }
  split.
  { change (ws ++ o :: f :: ws' ++ m5) with (ws ++ [o; f] ++ ws' ++ m5).
    rewrite !ends_with_digit_app by
      (try exact Hm5; intro E; apply app_eq_nil in E as [_ E];
       try (apply app_eq_nil in E as [_ E]); try contradiction; discriminate).
    apply ends_with_digit_digits; assumption. }
  intro cur.
  rewrite runs_spaces by assumption.
  cbn [digit_runs_ok].
  rewrite (letter_not_digit o) by (apply (chr_match_letter "o"); [reflexivity|exact Ho]).
  rewrite (letter_not_digit f) by (apply (chr_match_letter "f"); [reflexivity|exact Hf]).
  rewrite runs_spaces by assumption.
  rewrite <- (app_nil_r m5), runs_digits by exact H5.
  rewrite Hlen. simpl. rewrite !andb_true_r. reflexivity.
Qed.

(** The text of a structure number as step 6 matches it. *)
Lemma structure_match_text (prev : option ascii) (s : str) (n : nat)
    (g : groups) :
  match_at true pat_structure prev s = Some (n, g) ->
  0 < n /\ n <= length s
  /\ (structure_shaped (firstn n s) = true /\ sep_start (skipn n s) = true).
Proof.
  intro H0.
  destruct (structure_match_shape _ _ H0) as (Hpos & Hn & _ & Hsep).
  split; [exact Hpos|]. split; [exact Hn|]. split; [|exact Hsep].
  apply match_at_sound in H0 as (p' & m & s' & Hs & Hlen & H).
  assert (Hm : firstn n s = m)
    by (rewrite Hs, Hlen, firstn_app, Nat.sub_diag, firstn_all; apply app_nil_r).
  rewrite Hm. clear Hm Hpos Hn Hsep Hlen n.
  unfold pat_structure in H. cbn [matches] in H.
  destruct H as (p1 & s1 & (_ & -> & ->) & p2 & s2 & (c & Hc & Hcl & _)
                 & p3 & s3 & (m3 & Hm3 & Hd3 & Hl3 & Hh3 & _) & p4 & s4 & Halt
                 & (_ & _ & ->)).
  simpl in Hh3.
  destruct m3 as [|d1 [|d2 [|? ?]]]; simpl in Hl3, Hh3; try lia.
  simpl in Hd3. rewrite andb_true_r in Hd3.
  apply andb_true_iff in Hd3 as [Hd1 Hd2].
  apply range_is_letter in Hcl.
  assert (Htail : exists m4 x u,
             s3 = m4 ++ s4 /\ m4 = x :: u
             /\ (Ascii.eqb x "-" || isspace x) = true
             /\ ends_with_digit m4 = true
             /\ digit_runs_ok 2 m4 = true).
  { destruct Halt as [(q1 & r1 & (h & -> & Hh & _)
                       & q2 & r2 & (md & -> & Hmd & Hlo & Hhi & _) & Hopt)
                     |Hof].
    - apply hyphen_match in Hh as ->. simpl in Hhi.
      pose proof (nonempty_length Hlo) as Hne.
      destruct Hopt as [Hof|[_ ->]].
      + destruct (of_5_text Hof) as (mo & -> & Hmo & _ & He & Hruns).
        exists ("-"%char :: md ++ mo), "-"%char, (md ++ mo).
        split; [cbn [app]; rewrite app_assoc; reflexivity|]. split; [reflexivity|].
        split; [reflexivity|]. split.
        * change ("-"%char :: md ++ mo) with (("-"%char :: md) ++ mo).
          rewrite ends_with_digit_app by exact Hmo. exact He.
        * cbn [digit_runs_ok isdecimal]. change (isdecimal "-") with false.
          cbn iota. rewrite runs_digits by exact Hmd. rewrite Hruns.
          apply Nat.leb_le. lia.
      + exists ("-"%char :: md), "-"%char, md.
        split; [reflexivity|]. split; [reflexivity|]. split; [reflexivity|].
        split.
        * change ("-"%char :: md) with (["-"%char] ++ md).
          rewrite ends_with_digit_app by exact Hne.
          apply ends_with_digit_digits; assumption.
        * cbn [digit_runs_ok]. change (isdecimal "-") with false. cbn iota.
          rewrite <- (app_nil_r md), runs_digits by exact Hmd.
          simpl. apply Nat.leb_le. lia.
    - destruct (of_5_text Hof) as (mo & -> & Hmo & (x & u & -> & Hx) & He & Hruns).
      exists (x :: u), x, u. split; [reflexivity|]. split; [reflexivity|].
      split; [rewrite Hx; apply orb_true_r|]. split; [exact He|].
      rewrite Hruns. reflexivity. }
  destruct Htail as (m4 & x & u & -> & -> & Hx & He & Hruns).
  assert (Hm : m = c :: d1 :: d2 :: x :: u).
  { apply (app_inv_tail s4). rewrite <- Hs, Hc, Hm3. reflexivity. }
  rewrite Hm. unfold structure_shaped.
  apply andb_true_iff. split; [apply andb_true_iff; split|].
  - simpl. rewrite Hcl, Hd1, Hd2, Hx. reflexivity.
  - change (c :: d1 :: d2 :: x :: u) with ([c; d1; d2] ++ x :: u).
    rewrite ends_with_digit_app by discriminate. exact He.
  - cbn [digit_runs_ok]. rewrite (letter_not_digit _ Hcl), Hd1, Hd2.
    exact Hruns.
Qed.

(** X11. Step 6 only deletes stretches that look like a structure number:
    each begins with a letter and two digits followed by a hyphen or
    whitespace, ends in a digit, holds no run of more than five digits,
    and is followed by the end of the text or by a character that is no
    word character.  Everything else is kept, in order. *)
Theorem only_structure_numbers_deleted (text : str) :
  exists cuts last_kept,
    text = weave cuts last_kept
    /\ remove_structure_number text = kept cuts last_kept
    /\ cuts_ok (fun deleted after =>
                  structure_shaped deleted = true /\ sep_start after = true)
         cuts last_kept.
Proof.
  apply (@sub_go_cuts true pat_structure _ structure_match_text (length text)).
  lia.
Qed.

(** ** The extractor's error string through the normalizer *)

Lemma lstrip_app_clean (u v : str) :
  starts_clean v = true -> lstrip (u ++ v) = lstrip u ++ v.
Proof.
  intro Hv. induction u as [|c u IH]; [apply lstrip_fixed; exact Hv|].
  simpl. destruct (isspace c); [exact IH|reflexivity].
Qed.

Lemma rstrip_app_clean (a b : str) :
  ends_clean a = true -> rstrip (a ++ b) = a ++ rstrip b.
Proof.
  intro Ha. unfold rstrip.
  rewrite rev_app_distr, lstrip_app_clean by exact Ha.
  rewrite rev_app_distr, rev_involutive. reflexivity.
Qed.

(** None of the substitutions of steps 1 to 6 matches inside the error
    prefix or across its end. *)
Lemma fix_contract_for_error_prefix (msg : str) :
  fix_contract_for (error_prefix ++ msg)
  = error_prefix
    ++ sub_go true pat_contract_for [TLit (lit "CONTRACT FOR")] (Some " "%char) msg 0.
Proof. reflexivity. Qed.

Lemma insert_colon_error_prefix (msg : str) :
  insert_colon (error_prefix ++ msg)
  = error_prefix
    ++ sub_go true pat_squished [TRef 1; TLit (lit ": "); TRef 2] (Some " "%char) msg 0.
Proof. reflexivity. Qed.

Lemma mark_job_number_error_prefix (msg : str) :
  mark_job_number (error_prefix ++ msg)
  = error_prefix
    ++ sub_go true pat_jn [TLit (lit " Job Number ")] (Some " "%char) msg 0.
Proof. reflexivity. Qed.

Lemma mark_date_error_prefix (msg : str) :
  mark_date (error_prefix ++ msg)
  = error_prefix ++ sub_go true pat_date [TLit (lit " Date ")] (Some " "%char) msg 0.
Proof. reflexivity. Qed.

Lemma remove_noise_error_prefix (msg : str) :
  remove_noise (error_prefix ++ msg)
  = error_prefix ++ sub_go true pat_noise [TLit (lit "")] (Some " "%char) msg 0.
Proof. reflexivity. Qed.

Lemma remove_structure_number_error_prefix (msg : str) :
  remove_structure_number (error_prefix ++ msg)
  = error_prefix ++ sub_go true pat_structure [TLit (lit "")] (Some " "%char) msg 0.
Proof. reflexivity. Qed.

(** Step 7 can only touch the blank that ends the prefix. *)
Lemma collapse_whitespace_error_prefix (msg : str) :
  collapse_whitespace (error_prefix ++ msg)
  = error_marker
    ++ sub_go false pat_spaces [TLit (lit " ")] (Some ":"%char) (" "%char :: msg) 0.
Proof. reflexivity. Qed.

Lemma strip_error_marker (rest : str) :
  strip (error_marker ++ rest) = error_marker ++ rstrip rest.
Proof.
  unfold strip. rewrite rstrip_app_clean by reflexivity. reflexivity.
Qed.

Lemma normalized_error_string (msg : str) :
  exists rest, filter_target_section (error_prefix ++ msg) = error_marker ++ rest.
Proof.
  rewrite normalizer_steps. unfold rewrite_tokens, before_noise_removal.
  rewrite fix_contract_for_error_prefix, insert_colon_error_prefix,
    mark_job_number_error_prefix, mark_date_error_prefix,
    remove_noise_error_prefix, remove_structure_number_error_prefix,
    collapse_whitespace_error_prefix, strip_error_marker.
  eexists. reflexivity.
Qed.

Lemma extract_raised_value
    (Doc Page Rect Image NdArray : Type) (W : libs Doc Page Rect Image NdArray)
    (umsg : str -> str) (pdf_path : str) (rg : option region) (e : exn) :
  fst (extract_body W pdf_path rg []) = inl e ->
  extract_title_text_from_pdf umsg W pdf_path rg = error_prefix ++ exn_str umsg e.
Proof.
  intro He. unfold extract_title_text_from_pdf, extract_run, try_return.
  destruct (extract_body W pdf_path rg []) as [[e'|text] tr];
    cbn [fst] in He; [injection He as ->; reflexivity|discriminate].
Qed.

(** X12. The error marker outlives normalization: whatever the exception's
    description, [filter_target_section] applied to an error string of
    the extractor returns a text that still begins with
    "OCR extraction failed:"; so when the extractor's body raises and its
    result is passed on to the normalizer, the failure stays
    recognizable. *)
Theorem error_marker_survives_normalizer
    (Doc Page Rect Image NdArray : Type) (W : libs Doc Page Rect Image NdArray)
    (umsg : str -> str) (pdf_path : str) (rg : option region) :
  (forall msg,
     startswith error_marker (filter_target_section (error_prefix ++ msg)) = true)
  /\ (forall e,
        fst (extract_body W pdf_path rg []) = inl e ->
        startswith error_marker
          (filter_target_section (extract_title_text_from_pdf umsg W pdf_path rg))
        = true).
Proof.
  assert (H : forall msg,
             startswith error_marker (filter_target_section (error_prefix ++ msg))
             = true).
  { intro msg. destruct (normalized_error_string msg) as [rest ->].
    apply startswith_prefix. exists rest. reflexivity. }
  split; [exact H|].
  intros e He.
  rewrite (@extract_raised_value _ _ _ _ _ W umsg pdf_path rg e He). apply H.
Qed.

Lemma error_marker_survives_normalizer_witness :
  startswith error_marker
    (filter_target_section
       (extract_title_text_from_pdf unbound_local_311
          (broken_libs (lit "cannot open  DRAWING B01-22222 ")) (lit "a.pdf") None))
  = true.
Proof.
  exact (proj2 (error_marker_survives_normalizer
                  (broken_libs (lit "cannot open  DRAWING B01-22222 "))
                  unbound_local_311 (lit "a.pdf") None)
               (LibError (lit "cannot open  DRAWING B01-22222 ")) eq_refl).
Defined.

(** ** Steps 1 and 2: the repair of CONTRACT FOR *)

(** A run of literal characters in front of any continuation. *)
Lemma run_word_then (B : Type) (w : str) :
  w <> [] ->
  forall prev s g (kt : cont B),
    run true (word w) prev s g kt
    = if startswith_ci w s
      then kt (last_of prev (firstn (length w) s)) (skipn (length w) s) g
      else None.
Proof.
  induction w as [|a w IH]; intro Hw; [contradiction|].
  intros prev s g kt. destruct w as [|b w'].
  - destruct s as [|c s']; [reflexivity|].
    simpl. unfold chr_match. rewrite andb_true_r.
    destruct (Ascii.eqb (lower c) (lower a)); reflexivity.
  - change (word (a :: b :: w')) with (Cat (Chr a) (word (b :: w'))).
    destruct s as [|c s']; [reflexivity|].
    cbn [run]. unfold chr_match.
    change (startswith_ci (a :: b :: w') (c :: s'))
      with (Ascii.eqb (lower c) (lower a) && startswith_ci (b :: w') s').
    destruct (Ascii.eqb (lower c) (lower a)); [|reflexivity].
    rewrite IH by discriminate. reflexivity.
Qed.

(** A greedy run of whitespace in front of a text that does not begin
    with whitespace takes all of it, when the rest of the pattern then
    matches. *)
Lemma rep_space_all (B : Type) (ws r : str) (kt : cont B) (g : groups) (x : B) :
  forallb isspace ws = true -> starts_clean r = true ->
  forall prev,
    kt (last_of prev ws) r g = Some x ->
    rep true Space 0 None prev (ws ++ r) g kt = Some x.
Proof.
  intros Hws Hr. induction ws as [|c ws IH]; intros prev Hk.
  - destruct r as [|c t]; [exact Hk|].
    simpl in Hr. apply negb_true_iff in Hr. simpl. rewrite Hr. exact Hk.
  - simpl in Hws. apply andb_true_iff in Hws as [Hc Hws].
    simpl. rewrite Hc. simpl. rewrite (IH Hws (Some c) Hk). reflexivity.
Qed.

Section PrevIrrelevant.

Variable ic : bool.
Variable B : Type.

Lemma rep_prev_irrelevant (k : cclass) (s : str) :
  forall lo hi prev prev' g (kt kt' : cont B),
    (forall p p' s' g', kt p s' g' = kt' p' s' g') ->
    rep ic k lo hi prev s g kt = rep ic k lo hi prev' s g kt'.
Proof.
  induction s as [|c t IH]; intros lo hi prev prev' g kt kt' Hk; simpl.
  - destruct lo; [apply Hk|reflexivity].
  - rewrite (IH (pred lo) (option_map pred hi) (Some c) (Some c) g kt kt' Hk).
    destruct lo; [rewrite (Hk prev prev')|]; reflexivity.
Qed.

(** A pattern without [\b] does not look at the character before the
    position. *)
Lemma run_prev_irrelevant (r : regex) :
  bnd_free r = true ->
  forall prev prev' s g (kt kt' : cont B),
    (forall p p' s' g', kt p s' g' = kt' p' s' g') ->
    run ic r prev s g kt = run ic r prev' s g kt'.
Proof.
  induction r as [|a|k|a IHa b IHb|a IHa b IHb|k lo hi|a IHa|n a IHa|];
    intros Hr prev prev' s g kt kt' Hk; simpl in Hr; simpl; try discriminate.
  - apply Hk.
  - destruct s as [|c t]; [reflexivity|].
    destruct (chr_match ic a c); [apply Hk|reflexivity].
  - destruct s as [|c t]; [reflexivity|].
    destruct (cls_match ic k c); [apply Hk|reflexivity].
  - apply andb_true_iff in Hr as [Ha Hb].
    apply IHa; [exact Ha|]. intros p p' s' g'. apply IHb; assumption.
  - apply andb_true_iff in Hr as [Ha Hb].
    rewrite (IHa Ha prev prev' s g kt kt' Hk), (IHb Hb prev prev' s g kt kt' Hk).
    reflexivity.
  - apply rep_prev_irrelevant. exact Hk.
  - rewrite (IHa Hr prev prev' s g kt kt' Hk), (Hk prev prev'). reflexivity.
  - apply IHa; [exact Hr|]. intros p p' s' g'. apply Hk.
Qed.

End PrevIrrelevant.

Lemma match_at_prev_irrelevant (ic : bool) (r : regex) (s : str)
    (prev prev' : option ascii) :
  bnd_free r = true -> match_at ic r prev s = match_at ic r prev' s.
Proof.
  intro Hr. unfold match_at. apply run_prev_irrelevant; [exact Hr|].
  intros. reflexivity.
Qed.

Lemma sub_go_prev_irrelevant (ic : bool) (r : regex) (t : list titem) (s : str) :
  bnd_free r = true ->
  forall prev prev' k, sub_go ic r t prev s k = sub_go ic r t prev' s k.
Proof.
  intro Hr. induction s as [|c s' IH]; intros prev prev' k.
  - destruct k; [|reflexivity].
    rewrite !sub_go_unfold, (match_at_prev_irrelevant ic r [] prev prev' Hr).
    reflexivity.
  - destruct k; [|reflexivity].
    rewrite !sub_go_unfold,
      (match_at_prev_irrelevant ic r (c :: s') prev prev' Hr).
    reflexivity.
Qed.

(** Behind a match the scan goes on as on a fresh text. *)
Lemma sub_go_match (ic : bool) (r : regex) (t : list titem)
    (prev : option ascii) (m rest : str) (g : groups) :
  bnd_free r = true -> m <> [] ->
  match_at ic r prev (m ++ rest) = Some (length m, g) ->
  sub_go ic r t prev (m ++ rest) 0 = expand t g ++ sub ic r t rest.
Proof.
  intros Hr Hm Hmatch. rewrite sub_go_unfold, Hmatch.
  destruct m as [|c m']; [contradiction|]. cbn [app length].
  destruct (@sub_go_skip ic r t (length m') (m' ++ rest) (Some c)) as [p' ->];
    [rewrite length_app; lia|].
  rewrite skipn_app, Nat.sub_diag, skipn_all. cbn [app skipn].
  rewrite (@sub_go_prev_irrelevant ic r t rest Hr p' None 0). reflexivity.
Qed.

Lemma eq_ci_parts (w m : str) :
  eq_ci w m = true -> length m = length w /\ startswith_ci w m = true.
Proof.
  unfold eq_ci. intro H. apply andb_true_iff in H as [Hl Hs].
  apply Nat.eqb_eq in Hl. split; assumption.
Qed.

Lemma for_not_space (m rest : str) :
  eq_ci (lit "FOR") m = true -> starts_clean (m ++ rest) = true.
Proof.
  intro H. apply eq_ci_parts in H as [Hl Hs].
  destruct m as [|c m']; [discriminate|].
  simpl in Hs. apply andb_true_iff in Hs as [Hc _]. simpl. clear -Hc.
  revert Hc. destruct c as [[] [] [] [] [] [] [] []]; vm_compute; congruence.
Qed.

(** At the head of a text, the word CONTRACT in any letter case, any run
    of whitespace (none, blanks, tabs, line breaks) and the word FOR in
    any letter case become "CONTRACT FOR", and the scan goes on behind
    them. *)
Theorem contract_for_made_canonical (m1 ws m2 rest : str) :
  eq_ci (lit "CONTRACT") m1 = true ->
  forallb isspace ws = true ->
  eq_ci (lit "FOR") m2 = true ->
  fix_contract_for (m1 ++ ws ++ m2 ++ rest)
  = lit "CONTRACT FOR" ++ fix_contract_for rest.
Proof.
  intros H1 Hws H2.
  pose proof (for_not_space m2 rest H2) as Hclean.
  apply eq_ci_parts in H1 as [Hl1 Hs1]. apply eq_ci_parts in H2 as [Hl2 Hs2].
  unfold fix_contract_for, sub.
  assert (Hmatch : exists g,
             match_at true pat_contract_for None ((m1 ++ ws ++ m2) ++ rest)
             = Some (length (m1 ++ ws ++ m2), g)).
  { unfold match_at, pat_contract_for. cbn [run].
    rewrite run_word_then by discriminate.
    rewrite <- !app_assoc.
    rewrite (startswith_ci_app _ _ (ws ++ m2 ++ rest) Hs1).
    rewrite <- Hl1, skipn_app, Nat.sub_diag, skipn_all. cbn [app skipn].
    eexists. apply rep_space_all; [exact Hws|exact Hclean|].
    rewrite run_word_then by discriminate.
    rewrite (startswith_ci_app _ _ rest Hs2).
    rewrite <- Hl2, skipn_app, Nat.sub_diag, skipn_all. cbn [app skipn].
    rewrite !length_app. f_equal. f_equal. lia. }
  destruct Hmatch as [g Hmatch].
  replace (m1 ++ ws ++ m2 ++ rest) with ((m1 ++ ws ++ m2) ++ rest)
    by (rewrite <- !app_assoc; reflexivity).
  rewrite (@sub_go_match true pat_contract_for [TLit (lit "CONTRACT FOR")] None
             (m1 ++ ws ++ m2) rest g eq_refl);
    [reflexivity| |exact Hmatch].
  destruct m1; [discriminate|discriminate].
Qed.

Lemma contract_for_made_canonical_witness :
  fix_contract_for (lit "Contract" ++ [newline; " "%char] ++ lit "for" ++ lit " DECK")
  = lit "CONTRACT FOR" ++ fix_contract_for (lit " DECK").
Proof.
  apply contract_for_made_canonical; reflexivity.
Defined.

(** What a run of literal characters matches spells it. *)
Lemma matches_word (w : str) :
  w <> [] ->
  forall prev s p' s', matches true (word w) prev s p' s' ->
    exists m, s = m ++ s' /\ eq_ci w m = true /\ p' = last_of prev m.
Proof.
  induction w as [|a w IH]; intro Hw; [contradiction|].
  intros prev s p' s' H. destruct w as [|b w'].
  - destruct H as (c & -> & Hc & ->). exists [c]. split; [reflexivity|].
    split; [|reflexivity].
    unfold eq_ci. simpl. unfold chr_match in Hc. rewrite Hc. reflexivity.
  - change (word (a :: b :: w')) with (Cat (Chr a) (word (b :: w'))) in H.
    destruct H as (p1 & s1 & (c & -> & Hc & ->) & H2).
    destruct (IH ltac:(discriminate) _ _ _ _ H2) as (m & -> & Hm & ->).
    exists (c :: m). split; [reflexivity|]. split; [|reflexivity].
    apply eq_ci_parts in Hm as [Hl Hs]. unfold eq_ci.
    change (startswith_ci (a :: b :: w') (c :: m))
      with (Ascii.eqb (lower c) (lower a) && startswith_ci (b :: w') m).
    unfold chr_match in Hc. rewrite Hc, Hs. cbn [length]. rewrite Hl.
    cbn [length]. rewrite Nat.eqb_refl. reflexivity.
Qed.

(** Where no position of the text starts a match, the substitution
    returns the text. *)
Lemma sub_go_no_match (ic : bool) (r : regex) (t : list titem) (s : str) :
  (forall a b prev, s = a ++ b -> match_at ic r prev b = None) ->
  forall prev, sub_go ic r t prev s 0 = s.
Proof.
  induction s as [|c s' IH]; intros Hnone prev; rewrite sub_go_unfold.
  - rewrite (Hnone [] [] prev eq_refl). reflexivity.
  - rewrite (Hnone [] (c :: s') prev eq_refl). f_equal. apply IH.
    intros a b p ->. apply (Hnone (c :: a) b p). reflexivity.
Qed.

Lemma letter_in_range (c : ascii) :
  is_ascii_letter c = cls_match true (Range "A" "Z") c.
Proof. destruct c as [[] [] [] [] [] [] [] []]; vm_compute; reflexivity. Qed.

(** Step 2 matches exactly a spelled CONTRACT FOR with a letter behind. *)
Lemma squished_match_text (prev : option ascii) (s : str) (n : nat) (g : groups) :
  match_at true pat_squished prev s = Some (n, g) ->
  exists m c b, s = m ++ c :: b /\ eq_ci (lit "CONTRACT FOR") m = true
                /\ is_ascii_letter c = true.
Proof.
  intro H. apply match_at_sound in H as (p' & m0 & s' & _ & _ & H).
  unfold pat_squished in H. cbn [matches] in H.
  destruct H as (p1 & s1 & Hw & (c & -> & Hc & _)).
  destruct (@matches_word (lit "CONTRACT FOR") ltac:(discriminate) _ _ _ _ Hw)
    as (m & -> & Hm & _).
  exists m, c, s'. split; [reflexivity|]. split; [exact Hm|].
  rewrite letter_in_range. exact Hc.
Qed.

Lemma squished_match_at (m : str) (c : ascii) (rest : str) :
  eq_ci (lit "CONTRACT FOR") m = true -> is_ascii_letter c = true ->
  match_at true pat_squished None ((m ++ [c]) ++ rest)
  = Some (length (m ++ [c]), [(2, [c]); (1, m)]).
Proof.
  intros Hm Hc. apply eq_ci_parts in Hm as [Hl Hs].
  rewrite letter_in_range in Hc.
  unfold match_at, pat_squished. cbn [run].
  rewrite run_word_then by discriminate.
  rewrite <- app_assoc.
  rewrite (startswith_ci_app _ _ ([c] ++ rest) Hs).
  rewrite <- Hl, skipn_app, Nat.sub_diag, skipn_all. cbn [app skipn].
  rewrite Hc. rewrite !length_app. cbn [length].
  f_equal. f_equal; [lia|]. f_equal.
  - f_equal. replace (S (length rest) - length rest) with 1 by lia. reflexivity.
  - f_equal. f_equal.
    replace (length m + S (length rest) - S (length rest)) with (length m) by lia.
    rewrite firstn_app, Nat.sub_diag, firstn_all. apply app_nil_r.
Qed.

(** At the head of a text, step 2 puts ": " behind CONTRACT FOR (spelled
    in any letter case, as it stands) and in front of the character that
    follows when that character is an ASCII letter of either case; the
    scan then goes on behind that letter.  A text in which no CONTRACT FOR
    is directly followed by a letter is returned as it is. *)
Theorem colon_inserted_before_any_letter :
  (forall m c rest,
     eq_ci (lit "CONTRACT FOR") m = true -> is_ascii_letter c = true ->
     insert_colon (m ++ c :: rest) = m ++ lit ": " ++ c :: insert_colon rest)
  /\ (forall text,
        (forall a m c b, text = a ++ m ++ c :: b ->
                         eq_ci (lit "CONTRACT FOR") m = true ->
                         is_ascii_letter c = false) ->
        insert_colon text = text).
Proof.
  split.
  - intros m c rest Hm Hc. unfold insert_colon, sub.
    replace (m ++ c :: rest) with ((m ++ [c]) ++ rest)
      by (rewrite <- app_assoc; reflexivity).
    rewrite (@sub_go_match true pat_squished [TRef 1; TLit (lit ": "); TRef 2] None
               (m ++ [c]) rest [(2, [c]); (1, m)] eq_refl);
      [|destruct m; discriminate|apply squished_match_at; assumption].
    cbn [expand group Nat.eqb]. rewrite <- !app_assoc. reflexivity.
  - intros text Hnone. unfold insert_colon, sub. apply sub_go_no_match.
    intros a b prev Hab.
    destruct (match_at true pat_squished prev b) as [[n g]|] eqn:Hm; [|reflexivity].
    destruct (squished_match_text _ _ Hm) as (m & c & b' & -> & Hci & Hc).
    rewrite (Hnone a m c b' Hab Hci) in Hc. discriminate.
Qed.

Lemma colon_inserted_before_any_letter_witness :
  insert_colon (lit "Contract For" ++ "b"%char :: lit "ridge")
  = lit "Contract For" ++ lit ": " ++ "b"%char :: insert_colon (lit "ridge").
Proof.
  apply (proj1 colon_inserted_before_any_letter); reflexivity.
Defined.

(** ** Steps 3 and 4: markers standing alone *)

Lemma sub_go_no_match_here (ic : bool) (r : regex) (t : list titem) (s : str) :
  forall prev,
    (forall a b, s = a ++ b -> match_at ic r (last_of prev a) b = None) ->
    sub_go ic r t prev s 0 = s.
Proof.
  induction s as [|c s' IH]; intros prev Hnone; rewrite sub_go_unfold.
  - rewrite (Hnone [] [] eq_refl : match_at ic r prev [] = None). reflexivity.
  - rewrite (Hnone [] (c :: s') eq_refl : match_at ic r prev (c :: s') = None).
    f_equal. apply IH.
    intros a b ->. apply (Hnone (c :: a) b). reflexivity.
Qed.

Lemma word_char_match (a c : ascii) :
  isword a = true -> Ascii.eqb (lower c) (lower a) = true -> isword c = true.
Proof.
  intros Ha Hc. destruct (isword c) eqn:E; [reflexivity|].
  rewrite (sep_no_match _ _ E Ha) in Hc. discriminate.
Qed.

Lemma spelled_word (w m : str) :
  word_only w = true -> startswith_ci w m = true -> length m = length w ->
  word_only m = true.
Proof.
  revert m. induction w as [|a w IH]; intros m Hw Hs Hl.
  - destruct m; [reflexivity|discriminate].
  - destruct m as [|c m]; [discriminate|].
    simpl in *. apply andb_true_iff in Hw as [Ha Hw].
    apply andb_true_iff in Hs as [Hc Hs].
    rewrite (word_char_match _ _ Ha Hc), (IH m Hw Hs) by lia. reflexivity.
Qed.

Lemma word_ends_in_word (m : str) :
  forall prev, word_only m = true -> m <> [] ->
    exists c, last_of prev m = Some c /\ isword c = true.
Proof.
  induction m as [|c m IH]; intros prev Hm Hne; [contradiction|].
  simpl in Hm. apply andb_true_iff in Hm as [Hc Hm].
  destruct m as [|c' m'].
  - exists c. split; [reflexivity|exact Hc].
  - apply (IH (Some c) Hm). discriminate.
Qed.

Lemma letter_is_word (c : ascii) : is_ascii_letter c = true -> isword c = true.
Proof. destruct c as [[] [] [] [] [] [] [] []]; vm_compute; congruence. Qed.

Section Token.

Variable w : str.
Variable t : list titem.
Hypothesis w_word : word_only w = true.
Hypothesis w_letter : needs_letter (pat_token w) = true.
Hypothesis w_nonempty : w <> [].

(** Where [\bw\b] matches: [w] spelled in some case, no word character
    before it and none behind it. *)
Lemma token_match_text (prev : option ascii) (s : str) (n : nat) (g : groups) :
  match_at true (pat_token w) prev s = Some (n, g) ->
  exists m b, s = m ++ b /\ eq_ci w m = true
              /\ match prev with Some c => isword c | None => false end = false
              /\ sep_start b = true.
Proof.
  intro H. apply match_at_sound in H as (p' & m0 & s' & _ & _ & H).
  unfold pat_token in H. cbn [matches] in H.
  destruct H as (p1 & s1 & (Hb1 & -> & ->) & p2 & s2 & Hw & (Hb2 & _ & ->)).
  destruct (@matches_word w w_nonempty _ _ _ _ Hw) as (m & -> & Hm & ->).
  exists m, s2. split; [reflexivity|]. split; [exact Hm|].
  pose proof (eq_ci_parts _ _ Hm) as [Hl Hs].
  pose proof (spelled_word w m w_word Hs Hl) as Hmw.
  assert (Hne : m <> []) by (destruct m; [destruct w; [contradiction|discriminate]|discriminate]).
  destruct (word_ends_in_word prev Hmw Hne) as (e & He & Hew).
  rewrite He in Hb2. unfold at_boundary in Hb1, Hb2.
  destruct m as [|c m']; [contradiction|].
  simpl in Hmw. apply andb_true_iff in Hmw as [Hc _].
  cbn [app] in Hb1. rewrite Hc in Hb1. rewrite Hew in Hb2.
  split.
  - destruct (match prev with Some c0 => isword c0 | None => false end);
      [discriminate|reflexivity].
  - destruct s2 as [|d s'']; [reflexivity|]. simpl in *.
    destruct (isword d); [discriminate|reflexivity].
Qed.

Lemma token_match_at (m rest : str) :
  eq_ci w m = true -> sep_start rest = true ->
  match_at true (pat_token w) None (m ++ rest) = Some (length m, []).
Proof.
  intros Hm Hrest. apply eq_ci_parts in Hm as [Hl Hs].
  pose proof (spelled_word w m w_word Hs Hl) as Hmw.
  assert (Hne : m <> []) by (destruct m; [destruct w; [contradiction|discriminate]|discriminate]).
  destruct (word_ends_in_word None Hmw Hne) as (e & He & Hew).
  unfold match_at, pat_token. cbn [run].
  assert (Hb1 : at_boundary None (m ++ rest) = true).
  { destruct m as [|c m']; [contradiction|].
    simpl in Hmw. apply andb_true_iff in Hmw as [Hc _].
    unfold at_boundary. cbn [app]. rewrite Hc. reflexivity. }
  rewrite Hb1, run_word_then by exact w_nonempty.
  rewrite (startswith_ci_app _ _ rest Hs).
  rewrite <- Hl, skipn_app, Nat.sub_diag, skipn_all, firstn_app, Nat.sub_diag,
    firstn_all. cbn [app skipn firstn]. rewrite app_nil_r, He.
  assert (Hb2 : at_boundary (Some e) rest = true).
  { unfold at_boundary. rewrite Hew.
    destruct rest as [|d rest']; [reflexivity|].
    simpl in Hrest. apply negb_true_iff in Hrest. rewrite Hrest. reflexivity. }
  rewrite Hb2, length_app, Nat.add_sub. reflexivity.
Qed.

(** In front of a character that is no word character the scan does not
    depend on what came before. *)
Lemma token_scan_restart (rest : str) (p p' : option ascii) :
  sep_start rest = true ->
  sub_go true (pat_token w) t p rest 0 = sub_go true (pat_token w) t p' rest 0.
Proof.
  intro Hrest.
  assert (Hhead : match rest with
                  | c :: _ => is_ascii_letter c = false
                  | [] => True
                  end).
  { destruct rest as [|c u]; [exact I|]. simpl in Hrest.
    apply negb_true_iff in Hrest.
    destruct (is_ascii_letter c) eqn:E; [|reflexivity].
    rewrite (letter_is_word _ E) in Hrest. discriminate. }
  rewrite !sub_go_unfold.
  rewrite !(@match_at_needs_letter (pat_token w) w_letter _ rest Hhead).
  reflexivity.
Qed.

Lemma token_marked (m rest : str) :
  eq_ci w m = true -> sep_start rest = true ->
  sub true (pat_token w) t (m ++ rest)
  = expand t [] ++ sub true (pat_token w) t rest.
Proof.
  intros Hm Hrest. unfold sub.
  rewrite sub_go_unfold, (token_match_at m rest Hm Hrest).
  apply eq_ci_parts in Hm as [Hl _].
  destruct m as [|c m']; [destruct w; [contradiction|discriminate]|].
  cbn [app length].
  destruct (@sub_go_skip true (pat_token w) t (length m') (m' ++ rest) (Some c))
    as [p' ->]; [rewrite length_app; lia|].
  rewrite skipn_app, Nat.sub_diag, skipn_all. cbn [app skipn].
  rewrite (token_scan_restart rest p' None Hrest). reflexivity.
Qed.

Lemma token_untouched (text : str) :
  (forall a m b, text = a ++ m ++ b -> eq_ci w m = true ->
                 ends_in_word a = true \/ sep_start b = false) ->
  sub true (pat_token w) t text = text.
Proof.
  intro Hnone. unfold sub. apply sub_go_no_match_here.
  intros a b Hab.
  destruct (match_at true (pat_token w) (last_of None a) b) as [[n g]|] eqn:Hm;
    [|reflexivity].
  destruct (token_match_text _ _ Hm) as (m & b' & -> & Hci & Hprev & Hsep).
  destruct (Hnone a m b' Hab Hci) as [Ha|Hb].
  - unfold ends_in_word in Ha. rewrite Ha in Hprev. discriminate.
  - rewrite Hb in Hsep. discriminate.
Qed.

End Token.

(** At the head of a text, JN (DATE) in any letter case followed by the
    end of the text or by a character that is no word character becomes
    " Job Number " (" Date "), and the scan goes on behind it.  A text in
    which every JN (DATE) has a word character directly before or
    directly behind it, as in "JN201222A" or "UPDATED", is returned as
    it is. *)
Theorem markers_replaced_only_alone :
  (forall m rest,
     eq_ci (lit "JN") m = true -> sep_start rest = true ->
     mark_job_number (m ++ rest) = lit " Job Number " ++ mark_job_number rest)
  /\ (forall text,
        (forall a m b, text = a ++ m ++ b -> eq_ci (lit "JN") m = true ->
                       ends_in_word a = true \/ sep_start b = false) ->
        mark_job_number text = text)
  /\ (forall m rest,
        eq_ci (lit "DATE") m = true -> sep_start rest = true ->
        mark_date (m ++ rest) = lit " Date " ++ mark_date rest)
  /\ (forall text,
        (forall a m b, text = a ++ m ++ b -> eq_ci (lit "DATE") m = true ->
                       ends_in_word a = true \/ sep_start b = false) ->
        mark_date text = text).
Proof.
  assert (Hjn : needs_letter (pat_token (lit "JN")) = true)
    by (vm_compute; reflexivity).
  assert (Hdate : needs_letter (pat_token (lit "DATE")) = true)
    by (vm_compute; reflexivity).
  split; [|split; [|split]].
  - intros m rest Hm Hrest.
    apply (@token_marked (lit "JN") [TLit (lit " Job Number ")] eq_refl Hjn
             ltac:(discriminate) m rest Hm Hrest).
  - intros text H.
    apply (@token_untouched (lit "JN") [TLit (lit " Job Number ")] eq_refl Hjn
             ltac:(discriminate) text H).
  - intros m rest Hm Hrest.
    apply (@token_marked (lit "DATE") [TLit (lit " Date ")] eq_refl Hdate
             ltac:(discriminate) m rest Hm Hrest).
  - intros text H.
    apply (@token_untouched (lit "DATE") [TLit (lit " Date ")] eq_refl Hdate
             ltac:(discriminate) text H).
Qed.

Lemma markers_replaced_only_alone_witness :
  mark_job_number (lit "jn" ++ lit " 201222A")
  = lit " Job Number " ++ mark_job_number (lit " 201222A").
Proof.
  apply (proj1 markers_replaced_only_alone); reflexivity.
Defined.

(** ** Steps 7 and 8 settle *)

(** X16. Whitespace collapsing and trimming settle after one pass: step 7
    applied twice is step 7, trimming twice is trimming, and the two in a
    row applied to their own result change nothing.  Step 7 only touches
    runs of two or more whitespace characters: a text without such a run,
    single tabs and line breaks included, is returned as it is. *)
Theorem whitespace_steps_settle (s : str) :
  collapse_whitespace (collapse_whitespace s) = collapse_whitespace s
  /\ strip (strip s) = strip s
  /\ strip (collapse_whitespace (strip (collapse_whitespace s)))
     = strip (collapse_whitespace s)
  /\ (has_space_pair s = false -> collapse_whitespace s = s).
Proof.
  assert (Hfix : forall u, has_space_pair u = false -> collapse_whitespace u = u)
    by (intros u Hu; apply collapse_fixed_go; exact Hu).
  assert (Hstrip : forall u, strip (strip u) = strip u)
    by (intro u; apply strip_fixed;
        [apply strip_starts_clean|apply strip_ends_clean]).
  split; [apply Hfix, collapse_no_pair|].
  split; [apply Hstrip|].
  split; [|apply Hfix].
  rewrite (Hfix (strip (collapse_whitespace s)))
    by (apply strip_no_pair, collapse_no_pair).
  apply Hstrip.
Qed.

Lemma whitespace_steps_settle_witness :
  collapse_whitespace (lit "JN" ++ [newline] ++ lit "201222A")
  = lit "JN" ++ [newline] ++ lit "201222A".
Proof.
  apply (proj2 (proj2 (proj2 (whitespace_steps_settle
           (lit "JN" ++ [newline] ++ lit "201222A"))))).
  reflexivity.
Defined.

(** ** Matches of a pattern over a whole text *)

Lemma sub_go_skip_last (ic : bool) (r : regex) (t : list titem) (k : nat) :
  forall s prev, k <= length s ->
    sub_go ic r t prev s k
    = sub_go ic r t (last_of prev (firstn k s)) (skipn k s) 0.
Proof.
  induction k as [|k IH]; intros s prev Hk; [reflexivity|].
  destruct s as [|c s']; [simpl in Hk; lia|].
  simpl in Hk. change (sub_go ic r t prev (c :: s') (S k))
    with (sub_go ic r t (Some c) s' k).
  rewrite IH by lia. reflexivity.
Qed.

Lemma match_at_le (ic : bool) (r : regex) (prev : option ascii) (s : str)
    (n : nat) (g : groups) :
  match_at ic r prev s = Some (n, g) -> n <= length s.
Proof.
  intro H. destruct (match_at_sound _ _ _ _ H) as (p' & m & s' & -> & -> & _).
  rewrite length_app. lia.
Qed.

(** The scan after a match of [n] characters. *)
Lemma sub_go_step (ic : bool) (r : regex) (t : list titem)
    (prev : option ascii) (s : str) (n : nat) (g : groups) :
  match_at ic r prev s = Some (n, g) -> 0 < n ->
  sub_go ic r t prev s 0
  = expand t g ++ sub_go ic r t (last_of prev (firstn n s)) (skipn n s) 0.
Proof.
  intros H Hn. pose proof (match_at_le _ _ _ _ H) as Hle.
  rewrite sub_go_unfold, H.
  destruct s as [|c s']; [simpl in Hle; lia|].
  destruct n as [|n']; [lia|].
  simpl in Hle. rewrite sub_go_skip_last by lia. reflexivity.
Qed.

Lemma every_match_here (ok : option ascii -> str -> nat -> bool) (ic : bool)
    (r : regex) (s : str) :
  forall prev, every_match ok ic r prev s = true ->
    forall a b n g, s = a ++ b ->
      match_at ic r (last_of prev a) b = Some (n, g) ->
      ok (last_of prev a) b n = true.
Proof.
  induction s as [|c s' IH]; intros prev H a b n g Hs Hm.
  - destruct a; [|discriminate]. destruct b; [|discriminate].
    simpl in *. rewrite Hm in H. apply andb_prop in H as [H _]. exact H.
  - cbn [every_match] in H. apply andb_prop in H as [H1 H2].
    destruct a as [|c' a'].
    + simpl in Hs. subst b. simpl in Hm. rewrite Hm in H1. exact H1.
    + injection Hs as <- ->. exact (@IH (Some c) H2 a' b n g eq_refl Hm).
Qed.

Lemma no_match_here (ic : bool) (r : regex) (s : str) :
  no_match ic r s = true ->
  forall a b, s = a ++ b -> match_at ic r (last_of None a) b = None.
Proof.
  intros H a b Hs.
  destruct (match_at ic r (last_of None a) b) as [[n g]|] eqn:Hm; [|reflexivity].
  pose proof (@every_match_here _ _ _ _ _ H a b n g Hs Hm). discriminate.
Qed.

Lemma no_match_fixed (ic : bool) (r : regex) (t : list titem) (s : str) :
  no_match ic r s = true -> sub ic r t s = s.
Proof.
  intro H. apply sub_go_no_match_here. intros a b Hs.
  exact (@no_match_here _ _ _ H a b Hs).
Qed.

(** A substitution that replaces every match by the matched text itself
    returns the text. *)
Lemma sub_go_same (ic : bool) (r : regex) (t : list titem) (len : nat) :
  forall s prev, length s <= len ->
    (forall a b n g, s = a ++ b ->
       match_at ic r (last_of prev a) b = Some (n, g) ->
       expand t g = firstn n b) ->
    sub_go ic r t prev s 0 = s.
Proof.
  induction len as [|len IH]; intros s prev Hlen Hsame.
  - destruct s; [|simpl in Hlen; lia].
    rewrite sub_go_unfold.
    destruct (match_at ic r prev []) as [[n g]|] eqn:Hm; [|reflexivity].
    rewrite (Hsame [] [] n g eq_refl Hm). destruct n; reflexivity.
  - destruct (match_at ic r prev s) as [[n g]|] eqn:Hm.
    + pose proof (Hsame [] s n g eq_refl Hm) as He.
      destruct n as [|n'].
      * rewrite sub_go_unfold, Hm, He. simpl.
        destruct s as [|c s']; [reflexivity|]. f_equal.
        apply IH; [simpl in Hlen; lia|].
        intros a b n g' -> Hm'. exact (Hsame (c :: a) b n g' eq_refl Hm').
      * pose proof (match_at_le _ _ _ _ Hm) as Hle.
        rewrite (@sub_go_step ic r t prev s (S n') g Hm) by lia. rewrite He.
        rewrite IH.
        -- apply firstn_skipn.
        -- rewrite length_skipn. lia.
        -- intros a b n g' Hs Hm'. rewrite <- last_of_app in Hm'.
           apply (Hsame (firstn (S n') s ++ a) b n g'); [|exact Hm'].
           rewrite <- app_assoc, <- Hs. symmetry. apply firstn_skipn.
    + rewrite sub_go_unfold, Hm. destruct s as [|c s']; [reflexivity|].
      f_equal. apply IH; [simpl in Hlen; lia|].
      intros a b n g' -> Hm'. exact (Hsame (c :: a) b n g' eq_refl Hm').
Qed.

Lemma str_eqb_eq (a b : str) : str_eqb a b = true -> a = b.
Proof. unfold str_eqb. destruct (list_eq_dec ascii_dec a b); [auto|discriminate]. Qed.

Lemma canonical_fixed (y : str) :
  every_match canonical_contract_for true pat_contract_for None y = true ->
  fix_contract_for y = y.
Proof.
  intro H. unfold fix_contract_for, sub.
  apply (@sub_go_same true pat_contract_for [TLit (lit "CONTRACT FOR")] (length y));
    [lia|].
  intros a b n g Hs Hm.
  pose proof (@every_match_here _ _ _ _ _ H a b n g Hs Hm) as Hok.
  apply str_eqb_eq in Hok. rewrite Hok. reflexivity.
Qed.

(** ** A whole substitution as a scan *)

Lemma weave_cons (k d : str) (cuts : list (str * str)) (last_kept : str) :
  weave ((k, d) :: cuts) last_kept = k ++ d ++ weave cuts last_kept.
Proof. unfold weave. simpl. rewrite <- !app_assoc. reflexivity. Qed.

Lemma rewoven_cons (rho : str -> str) (k d : str) (cuts : list (str * str))
    (last_kept : str) :
  rewoven rho ((k, d) :: cuts) last_kept
  = k ++ rho d ++ rewoven rho cuts last_kept.
Proof. unfold rewoven. simpl. rewrite <- !app_assoc. reflexivity. Qed.

Section SubScan.

Variable ic : bool.
Variable r : regex.
Variable t : list titem.
Variable rho : str -> str.
Variable occ : option ascii -> str -> Prop.
Variable Q : option ascii -> str -> str -> Prop.

Hypothesis match_shape :
  forall prev s n g,
    match_at ic r prev s = Some (n, g) ->
    0 < n /\ expand t g = rho (firstn n s) /\ Q prev (firstn n s) (skipn n s).

Hypothesis match_found :
  forall prev s, match_at ic r prev s = None -> ~ occ prev s.

Lemma sub_go_scanned (len : nat) :
  forall s prev, length s <= len ->
    exists cuts last_kept,
      s = weave cuts last_kept
      /\ sub_go ic r t prev s 0 = rewoven rho cuts last_kept
      /\ scanned occ Q prev cuts last_kept.
Proof.
  induction len as [|len IH]; intros s prev Hlen.
  - destruct s; [|simpl in Hlen; lia].
    exists [], []. split; [reflexivity|].
    rewrite sub_go_unfold.
    destruct (match_at ic r prev []) as [[n g]|] eqn:Hm.
    + destruct (@match_shape _ _ _ _ Hm) as (Hn & _).
      pose proof (match_at_le _ _ _ _ Hm) as Hle. simpl in Hle. lia.
    + split; [reflexivity|exact I].
  - destruct (match_at ic r prev s) as [[n g]|] eqn:Hm.
    + destruct (@match_shape _ _ _ _ Hm) as (Hn & He & HQ).
      pose proof (match_at_le _ _ _ _ Hm) as Hle.
      destruct (IH (skipn n s) (last_of prev (firstn n s)))
        as (cuts & last_kept & Hw & Hsub & Hsc).
      { rewrite length_skipn. lia. }
      exists (([], firstn n s) :: cuts), last_kept.
      rewrite weave_cons, rewoven_cons. cbn [app].
      split; [rewrite <- Hw; symmetry; apply firstn_skipn|].
      split; [rewrite (@sub_go_step ic r t prev s n g Hm Hn), He, Hsub; reflexivity|].
      cbn [scanned clear_in app]. split; [exact I|].
      split; [rewrite <- Hw; exact HQ|exact Hsc].
    + destruct s as [|c s'].
      * exists [], []. split; [reflexivity|].
        rewrite sub_go_unfold, Hm. split; [reflexivity|exact I].
      * destruct (IH s' (Some c)) as (cuts & last_kept & Hw & Hsub & Hsc);
          [simpl in Hlen; lia|].
        rewrite sub_go_unfold, Hm, Hsub.
        destruct cuts as [|[k d] rest].
        -- exists [], (c :: last_kept).
           split; [rewrite Hw; reflexivity|]. split; [reflexivity|].
           cbn [scanned clear_in]. split; [|exact Hsc].
           rewrite app_nil_r. unfold weave in Hw. simpl in Hw. rewrite <- Hw.
           exact (@match_found _ _ Hm).
        -- exists ((c :: k, d) :: rest), last_kept.
           rewrite weave_cons in Hw. rewrite !weave_cons, !rewoven_cons.
           split; [rewrite Hw; reflexivity|]. split; [reflexivity|].
           cbn [scanned] in Hsc |- *. destruct Hsc as (Hc & HQ & Hrest).
           split; [|split; [exact HQ|exact Hrest]].
           cbn [clear_in]. split; [|exact Hc].
           cbn [app]. rewrite <- Hw.
           exact (@match_found _ _ Hm).
Qed.

End SubScan.

(** ** Step 1 over the whole text *)

Lemma contract_for_match_at (prev : option ascii) (m1 ws m2 rest : str) :
  eq_ci (lit "CONTRACT") m1 = true ->
  forallb isspace ws = true ->
  eq_ci (lit "FOR") m2 = true ->
  exists g,
    match_at true pat_contract_for prev ((m1 ++ ws ++ m2) ++ rest)
    = Some (length (m1 ++ ws ++ m2), g).
Proof.
  intros H1 Hws H2.
  pose proof (for_not_space m2 rest H2) as Hclean.
  apply eq_ci_parts in H1 as [Hl1 Hs1]. apply eq_ci_parts in H2 as [Hl2 Hs2].
  unfold match_at, pat_contract_for. cbn [run].
  rewrite run_word_then by discriminate.
  rewrite <- !app_assoc.
  rewrite (startswith_ci_app _ _ (ws ++ m2 ++ rest) Hs1).
  rewrite <- Hl1, skipn_app, Nat.sub_diag, skipn_all. cbn [app skipn].
  eexists. apply rep_space_all; [exact Hws|exact Hclean|].
  rewrite run_word_then by discriminate.
  rewrite (startswith_ci_app _ _ rest Hs2).
  rewrite <- Hl2, skipn_app, Nat.sub_diag, skipn_all. cbn [app skipn].
  rewrite !length_app. f_equal. f_equal. lia.
Qed.

Lemma firstn_exact (A : Type) (m s' : list A) : firstn (length m) (m ++ s') = m.
Proof. rewrite firstn_app, Nat.sub_diag, firstn_all. apply app_nil_r. Qed.

Lemma skipn_exact (A : Type) (m s' : list A) : skipn (length m) (m ++ s') = s'.
Proof. rewrite skipn_app, Nat.sub_diag, skipn_all. reflexivity. Qed.

Lemma contract_for_match_shape (prev : option ascii) (s : str) (n : nat)
    (g : groups) :
  match_at true pat_contract_for prev s = Some (n, g) ->
  0 < n /\ expand [TLit (lit "CONTRACT FOR")] g = lit "CONTRACT FOR"
  /\ spells_contract_for (firstn n s).
Proof.
  intro H. apply match_at_sound in H as (p' & m & s' & -> & -> & H).
  unfold pat_contract_for in H. cbn [matches] in H.
  destruct H as (p1 & s1 & H1 & p2 & s2 & (ws & -> & Hws & _ & _ & _) & H2).
  destruct (@matches_word (lit "CONTRACT") ltac:(discriminate) _ _ _ _ H1)
    as (m1 & Hs & Hm1 & _).
  destruct (@matches_word (lit "FOR") ltac:(discriminate) _ _ _ _ H2)
    as (m2 & -> & Hm2 & _).
  assert (Hm : m = m1 ++ ws ++ m2).
  { apply (app_inv_tail s'). rewrite Hs, <- !app_assoc. reflexivity. }
  subst m. rewrite firstn_exact.
  split.
  { apply eq_ci_parts in Hm1 as [Hl _]. rewrite length_app, Hl.
    change (length (lit "CONTRACT")) with 8. lia. }
  split; [reflexivity|].
  exists m1, ws, m2. repeat split; assumption.
Qed.

Lemma contract_for_found (prev : option ascii) (s : str) :
  match_at true pat_contract_for prev s = None -> ~ contract_for_at s.
Proof.
  intros Hnone (d & rest & -> & m1 & ws & m2 & -> & H1 & Hws & H2).
  destruct (@contract_for_match_at prev m1 ws m2 rest H1 Hws H2) as [g Hg].
  rewrite Hg in Hnone. discriminate.
Qed.

(** X13. Step 1 writes every CONTRACT ... FOR the same way.  The scan cuts
    the text into kept stretches and rewritten ones: each rewritten stretch
    is the word CONTRACT in any letter case, any run of whitespace (none,
    blanks, tabs, line breaks) and the word FOR in any letter case, and
    "CONTRACT FOR" stands in its place; no position of a kept stretch starts
    such a stretch, so none is passed over, wherever in the text it
    stands. *)
Theorem every_contract_for_made_canonical (text : str) :
  exists cuts last_kept,
    text = weave cuts last_kept
    /\ fix_contract_for text
       = rewoven (fun _ => lit "CONTRACT FOR") cuts last_kept
    /\ scanned (fun _ s => contract_for_at s)
         (fun _ d _ => spells_contract_for d) None cuts last_kept.
Proof.
  unfold fix_contract_for, sub.
  apply (@sub_go_scanned true pat_contract_for [TLit (lit "CONTRACT FOR")]
           (fun _ => lit "CONTRACT FOR") (fun _ s => contract_for_at s)
           (fun _ d _ => spells_contract_for d)
           contract_for_match_shape contract_for_found (length text));
    lia.
Qed.

(** ** Step 2 over the whole text *)





(** ** Steps 3 and 4 over the whole text *)

Section TokenScan.

Variable w : str.
Variable E : str.
Hypothesis w_word : word_only w = true.
Hypothesis w_letter : needs_letter (pat_token w) = true.
Hypothesis w_nonempty : w <> [].

Lemma sep_before_word (prev : option ascii) :
  sep_before prev = negb (match prev with Some c => isword c | None => false end).
Proof. destruct prev; reflexivity. Qed.

Lemma token_match_here (prev : option ascii) (m rest : str) :
  eq_ci w m = true -> sep_before prev = true -> sep_start rest = true ->
  match_at true (pat_token w) prev (m ++ rest) = Some (length m, []).
Proof.
  intros Hm Hprev Hrest. apply eq_ci_parts in Hm as [Hl Hs].
  pose proof (spelled_word w m w_word Hs Hl) as Hmw.
  assert (Hne : m <> [])
    by (destruct m; [destruct w; [contradiction|discriminate]|discriminate]).
  destruct (word_ends_in_word prev Hmw Hne) as (e & He & Hew).
  unfold match_at, pat_token. cbn [run].
  assert (Hb1 : at_boundary prev (m ++ rest) = true).
  { destruct m as [|c m']; [contradiction|].
    simpl in Hmw. apply andb_true_iff in Hmw as [Hc _].
    rewrite sep_before_word in Hprev. apply negb_true_iff in Hprev.
    unfold at_boundary. cbn [app]. rewrite Hc, Hprev. reflexivity. }
  rewrite Hb1, run_word_then by exact w_nonempty.
  rewrite (startswith_ci_app _ _ rest Hs).
  rewrite <- Hl, skipn_app, Nat.sub_diag, skipn_all, firstn_app, Nat.sub_diag,
    firstn_all. cbn [app skipn firstn]. rewrite app_nil_r, He.
  assert (Hb2 : at_boundary (Some e) rest = true).
  { unfold at_boundary. rewrite Hew.
    destruct rest as [|d rest']; [reflexivity|].
    simpl in Hrest. apply negb_true_iff in Hrest. rewrite Hrest. reflexivity. }
  rewrite Hb2, length_app, Nat.add_sub. reflexivity.
Qed.

Lemma token_match_shape (prev : option ascii) (s : str) (n : nat) (g : groups) :
  match_at true (pat_token w) prev s = Some (n, g) ->
  0 < n /\ expand [TLit E] g = E /\ alone w prev (firstn n s) (skipn n s).
Proof.
  intro H.
  destruct (token_match_text w_word w_letter w_nonempty _ _ H)
    as (m & b & -> & Hm & Hprev & Hb).
  assert (Hsep : sep_before prev = true)
    by (rewrite sep_before_word, Hprev; reflexivity).
  rewrite (@token_match_here prev m b Hm Hsep Hb) in H. injection H as <- <-.
  rewrite firstn_exact, skipn_exact.
  split.
  { apply eq_ci_parts in Hm as [Hl _]. rewrite Hl.
    destruct w; [contradiction|simpl; lia]. }
  split; [cbn [expand]; apply app_nil_r|].
  repeat split; assumption.
Qed.

Lemma token_found (prev : option ascii) (s : str) :
  match_at true (pat_token w) prev s = None -> ~ alone_at w prev s.
Proof.
  intros Hnone (d & rest & -> & Hm & Hprev & Hrest).
  rewrite (@token_match_here prev d rest Hm Hprev Hrest) in Hnone. discriminate.
Qed.

Lemma token_scanned (text : str) :
  exists cuts last_kept,
    text = weave cuts last_kept
    /\ sub true (pat_token w) [TLit E] text = rewoven (fun _ => E) cuts last_kept
    /\ scanned (alone_at w) (alone w) None cuts last_kept.
Proof.
  unfold sub.
  apply (@sub_go_scanned true (pat_token w) [TLit E] (fun _ => E)
           (alone_at w) (alone w) token_match_shape token_found (length text));
    lia.
Qed.

End TokenScan.

(** X15. Steps 3 and 4 replace a marker exactly where it stands alone.
    The scan of step 3 cuts the text into kept stretches and replaced ones:
    each replaced stretch is JN in some letter case with no word character
    directly before it or behind it, and " Job Number " stands in its
    place; no position of a kept stretch starts a JN that stands alone,
    wherever in the text it is.  The same holds of step 4 with DATE and
    " Date ". *)
Theorem lone_markers_replaced (text : str) :
  (exists cuts last_kept,
     text = weave cuts last_kept
     /\ mark_job_number text
        = rewoven (fun _ => lit " Job Number ") cuts last_kept
     /\ scanned (alone_at (lit "JN")) (alone (lit "JN")) None cuts last_kept)
  /\ (exists cuts last_kept,
        text = weave cuts last_kept
        /\ mark_date text = rewoven (fun _ => lit " Date ") cuts last_kept
        /\ scanned (alone_at (lit "DATE")) (alone (lit "DATE")) None
             cuts last_kept).
Proof.
  split.
  - apply (@token_scanned (lit "JN") (lit " Job Number ")); try reflexivity.
    discriminate.
  - apply (@token_scanned (lit "DATE") (lit " Date ")); try reflexivity.
    discriminate.
Qed.

(** ** Idempotence: the second pass *)

(** *** Step 4 on a text whose dates are in place *)

Lemma mark_date_padded (len : nat) :
  forall s prev, length s <= len ->
    (forall a b n g, s = a ++ b ->
       match_at true pat_date (last_of prev a) b = Some (n, g) ->
       date_in_place (last_of prev a) b n = true) ->
    padded prev s (sub_go true pat_date [TLit (lit " Date ")] prev s 0).
Proof.
  induction len as [|len IH]; intros s prev Hlen Hok.
  - destruct s; [|simpl in Hlen; lia].
    rewrite sub_go_unfold.
    destruct (match_at true pat_date prev []) as [[n g]|] eqn:Hm;
      [|constructor].
    pose proof (Hok [] [] n g eq_refl Hm) as H. unfold date_in_place in H.
    apply andb_prop in H as [H _]. apply andb_prop in H as [H _].
    apply str_eqb_eq in H. rewrite firstn_nil in H. discriminate H.
  - destruct (match_at true pat_date prev s) as [[n g]|] eqn:Hm.
    + pose proof (Hok [] s n g eq_refl Hm) as H. unfold date_in_place in H.
      apply andb_prop in H as [H Hend]. apply andb_prop in H as [H Hprev].
      apply str_eqb_eq in H. cbn [last_of fold_left] in Hprev.
      pose proof (match_at_le _ _ _ _ Hm) as Hle.
      assert (Hn : n = 4).
      { pose proof (f_equal (@length ascii) H) as Hl.
        rewrite length_firstn in Hl. change (length (lit "Date")) with 4 in Hl.
        lia. }
      subst n. rewrite (@sub_go_step true pat_date _ prev s 4 g Hm) by lia.
      rewrite H. change (expand [TLit (lit " Date ")] g) with (lit " Date " ++ []).
      rewrite app_nil_r.
      rewrite <- (firstn_skipn 4 s) at 1. rewrite H.
      apply padded_date; [exact Hprev|exact Hend|].
      apply IH.
      * rewrite length_skipn. lia.
      * intros a b n g' Hs Hm'.
        change (Some "e"%char) with (last_of prev (lit "Date")) in Hm' |- *.
        rewrite <- H, <- last_of_app in Hm' |- *.
        apply (Hok (firstn 4 s ++ a) b n g'); [|exact Hm'].
        rewrite <- app_assoc, <- Hs. symmetry. apply firstn_skipn.
    + rewrite sub_go_unfold, Hm. destruct s as [|c s']; constructor.
      apply IH; [simpl in Hlen; lia|].
      intros a b n g' -> Hm'. exact (Hok (c :: a) b n g' eq_refl Hm').
Qed.

(** *** Step 7 on a padded text *)

Lemma collapse_cons_word (c : ascii) (z : str) :
  isspace c = false ->
  collapse_whitespace (c :: z) = c :: collapse_whitespace z.
Proof.
  intro Hc. unfold collapse_whitespace, sub.
  rewrite sub_go_unfold, match_at_spaces.
  cbn [span]. rewrite Hc. cbn [Nat.leb].
  f_equal. apply sub_go_prev_irrelevant. reflexivity.
Qed.

Lemma collapse_cons_single (w : ascii) (z : str) :
  isspace w = true -> starts_clean z = true ->
  collapse_whitespace (w :: z) = w :: collapse_whitespace z.
Proof.
  intros Hw Hz. unfold collapse_whitespace, sub.
  rewrite sub_go_unfold, match_at_spaces.
  assert (Hs : span (w :: z) = 1).
  { cbn [span]. rewrite Hw. destruct z as [|d z']; [reflexivity|].
    simpl in Hz. cbn [span]. destruct (isspace d); [discriminate|reflexivity]. }
  rewrite Hs. cbn [Nat.leb].
  f_equal. apply sub_go_prev_irrelevant. reflexivity.
Qed.

Lemma collapse_cons_run (a b : ascii) (u : str) :
  isspace a = true -> isspace b = true ->
  collapse_whitespace (a :: b :: u)
  = " "%char :: collapse_whitespace (skipn (span u) u).
Proof.
  intros Ha Hb. unfold collapse_whitespace, sub.
  assert (Hs : span (a :: b :: u) = S (S (span u))).
  { cbn [span]. rewrite Ha, Hb. reflexivity. }
  assert (Hm : match_at false pat_spaces None (a :: b :: u)
               = Some (S (S (span u)), [])).
  { rewrite match_at_spaces, Hs. reflexivity. }
  rewrite (@sub_go_step false pat_spaces _ None _ _ _ Hm) by lia.
  change (skipn (S (S (span u))) (a :: b :: u)) with (skipn (span u) u).
  change (expand [TLit (lit " ")] []) with [" "%char].
  cbn [app]. f_equal. apply sub_go_prev_irrelevant. reflexivity.
Qed.

Lemma collapse_blank_twice (u : str) :
  collapse_whitespace (" "%char :: " "%char :: u)
  = collapse_whitespace (" "%char :: u).
Proof.
  rewrite collapse_cons_run by reflexivity.
  destruct u as [|d u'].
  - rewrite collapse_cons_single by reflexivity. reflexivity.
  - destruct (isspace d) eqn:Hd.
    + rewrite (@collapse_cons_run " "%char d u' eq_refl Hd).
      cbn [span]. rewrite Hd. reflexivity.
    + cbn [span]. rewrite Hd. cbn [skipn].
      rewrite (@collapse_cons_single " "%char (d :: u')); [reflexivity..|].
      simpl. rewrite Hd. reflexivity.
Qed.

Lemma blank_eq (c : ascii) : Ascii.eqb c " " = true -> c = " "%char.
Proof. apply Ascii.eqb_eq. Qed.

Lemma collapse_padded (prev : option ascii) (s z : str) :
  padded prev s z ->
  has_space_pair (ws_before prev ++ s) = false ->
  exists lead trail,
    (lead = [] \/ (prev = None /\ lead = lit " "))
    /\ (trail = [] \/ trail = lit " ")
    /\ collapse_whitespace (ws_before prev ++ z)
       = lead ++ ws_before prev ++ s ++ trail.
Proof.
  intro H. induction H as [prev|prev c s z H IH|prev s z Hp He H IH]; intro Hpair.
  - exists [], []. split; [left; reflexivity|]. split; [left; reflexivity|].
    rewrite !app_nil_r. cbn [app].
    unfold ws_before. destruct prev as [w|]; [|reflexivity].
    destruct (isspace w) eqn:Hw; [|reflexivity].
    rewrite collapse_cons_single by (exact Hw || reflexivity). reflexivity.
  - assert (Hin : has_space_pair (ws_before (Some c) ++ s) = false).
    { apply space_pair_app in Hpair as [_ Hcs].
      cbn [ws_before]. destruct (isspace c) eqn:Hc; [exact Hcs|].
      rewrite space_pair_cons in Hcs. apply orb_false_iff in Hcs as [_ Hs].
      exact Hs. }
    destruct (IH Hin) as (lead & trail & Hl & Ht & Heq).
    destruct Hl as [->|[Habs _]]; [|discriminate Habs].
    exists [], trail. split; [left; reflexivity|]. split; [exact Ht|].
    cbn [app] in Heq |- *. cbn [ws_before] in Heq.
    destruct (isspace c) eqn:Hc.
    + assert (Hnil : ws_before prev = []).
      { unfold ws_before in *. destruct prev as [w|]; [|reflexivity].
        destruct (isspace w) eqn:Hw; [|reflexivity].
        cbn [app] in Hpair. rewrite space_pair_cons in Hpair.
        apply orb_false_iff in Hpair as [Hpair _].
        simpl in Hpair. rewrite Hw, Hc in Hpair. discriminate Hpair. }
      rewrite Hnil. exact Heq.
    + cbn [app] in Heq.
      assert (Hcz : collapse_whitespace (c :: z) = c :: s ++ trail).
      { rewrite collapse_cons_word by exact Hc. rewrite Heq. reflexivity. }
      unfold ws_before. destruct prev as [w|]; [|exact Hcz].
      destruct (isspace w) eqn:Hw; [|exact Hcz].
      cbn [app]. rewrite collapse_cons_single; [rewrite Hcz; reflexivity|exact Hw|].
      simpl. rewrite Hc. reflexivity.
  - assert (Hin : has_space_pair (ws_before (Some "e"%char) ++ s) = false).
    { apply space_pair_app in Hpair as [_ Hds].
      apply space_pair_app in Hds as [_ Hs]. exact Hs. }
    destruct (IH Hin) as (lead & trail & Hl & Ht & Heq).
    destruct Hl as [->|[Habs _]]; [|discriminate Habs].
    change (ws_before (Some "e"%char)) with (@nil ascii) in Heq.
    cbn [app] in Heq.
    assert (Hv : exists trail', (trail' = [] \/ trail' = lit " ")
                   /\ collapse_whitespace (" "%char :: z) = s ++ trail').
    { destruct s as [|c s''].
      - inversion H; subst. exists (lit " "). split; [right; reflexivity|].
        reflexivity.
      - simpl in He. apply blank_eq in He. subst c.
        inversion H; subst.
        exists trail. split; [exact Ht|].
        rewrite collapse_blank_twice. exact Heq. }
    destruct Hv as (trail' & Ht' & Hv).
    assert (Hd : collapse_whitespace (lit " Date " ++ z)
                 = lit " " ++ lit "Date" ++ s ++ trail').
    { change (lit " Date " ++ z)
        with (" "%char :: "D"%char :: "a"%char :: "t"%char :: "e"%char
              :: " "%char :: z).
      rewrite collapse_cons_single by reflexivity.
      rewrite !collapse_cons_word by reflexivity.
      rewrite Hv. reflexivity. }
    destruct prev as [c|].
    + simpl in Hp. apply blank_eq in Hp. subst c.
      exists [], trail'. split; [left; reflexivity|]. split; [exact Ht'|].
      change (ws_before (Some " "%char)) with [" "%char].
      change ([" "%char] ++ lit " Date " ++ z)
        with (" "%char :: " "%char :: lit "Date " ++ z).
      rewrite collapse_blank_twice.
      change (" "%char :: lit "Date " ++ z) with (lit " Date " ++ z).
      rewrite Hd. reflexivity.
    + exists (lit " "), trail'. split; [right; split; reflexivity|].
      split; [exact Ht'|]. exact Hd.
Qed.

Lemma ends_clean_app (a y : str) :
  y <> [] -> ends_clean (a ++ y) = ends_clean y.
Proof.
  intro Hy. unfold ends_clean. rewrite rev_app_distr.
  destruct (rev y) as [|c r] eqn:Hr; [|reflexivity].
  apply (f_equal (@rev ascii)) in Hr. rewrite rev_involutive in Hr.
  contradiction.
Qed.

Lemma strip_blank_padding (lead y trail : str) :
  (lead = [] \/ lead = lit " ") -> (trail = [] \/ trail = lit " ") ->
  y <> [] -> starts_clean y = true -> ends_clean y = true ->
  strip (lead ++ y ++ trail) = y.
Proof.
  intros Hl Ht Hy Hs He. unfold strip.
  rewrite app_assoc, rstrip_app_clean
    by (rewrite ends_clean_app by exact Hy; exact He).
  assert (Hr : rstrip trail = []) by (destruct Ht as [->| ->]; reflexivity).
  rewrite Hr, app_nil_r, lstrip_app_clean by exact Hs.
  destruct Hl as [->| ->]; reflexivity.
Qed.

(** Steps 4, 7 and 8 in a row give back a trimmed text without whitespace
    pairs whose dates are in place. *)
Lemma date_repadded (y : str) :
  every_match date_in_place true pat_date None y = true ->
  has_space_pair y = false -> starts_clean y = true -> ends_clean y = true ->
  strip (collapse_whitespace (mark_date y)) = y.
Proof.
  intros Hd Hpair Hs He.
  destruct y as [|c y']; [reflexivity|].
  set (y := c :: y') in *.
  assert (Hpad : padded None y (mark_date y)).
  { unfold mark_date, sub. apply (@mark_date_padded (length y)); [lia|].
    intros a b n g Hy Hm. exact (@every_match_here _ _ _ _ _ Hd a b n g Hy Hm). }
  destruct (collapse_padded Hpad Hpair) as (lead & trail & Hl & Ht & Heq).
  cbn [ws_before app] in Heq. rewrite Heq.
  apply strip_blank_padding; try assumption.
  - destruct Hl as [->|[_ ->]]; [left|right]; reflexivity.
  - discriminate.
Qed.

Lemma second_pass_fixed (y : str) :
  second_pass_idle y = true ->
  has_space_pair y = false -> starts_clean y = true -> ends_clean y = true ->
  filter_target_section y = y.
Proof.
  intros H Hpair Hs He. unfold second_pass_idle in H.
  apply andb_prop in H as [H H6]. apply andb_prop in H as [H H5].
  apply andb_prop in H as [H H4]. apply andb_prop in H as [H H3].
  apply andb_prop in H as [H1 H2].
  rewrite normalizer_steps. unfold rewrite_tokens, before_noise_removal.
  rewrite (canonical_fixed _ H1).
  unfold insert_colon. rewrite (@no_match_fixed _ _ _ _ H2).
  unfold mark_job_number. rewrite (@no_match_fixed _ _ _ _ H3).
  unfold remove_noise. rewrite (@no_match_fixed _ _ _ _ H5).
  unfold remove_structure_number. rewrite (@no_match_fixed _ _ _ _ H6).
  apply date_repadded; assumption.
Qed.

(** C4, amended. [filter_target_section] applied twice equals applied
    once whenever the second pass finds nothing to rewrite in the output of
    the first: step 1 finds only the literal "CONTRACT FOR", steps 2, 3, 5
    and 6 find no match, and every DATE step 4 finds is the word "Date"
    with a blank or a text end on either side.  Step 4 does match such a
    "Date" again and pads it again; steps 7 and 8 take the padding away. *)
Theorem idempotent_when_second_pass_idle (x : str) :
  second_pass_idle (filter_target_section x) = true ->
  filter_target_section (filter_target_section x) = filter_target_section x.
Proof.
  intro H. destruct (output_clean x) as (Hpair & Hs & He).
  exact (second_pass_fixed _ H Hpair Hs He).
Qed.

(** C4 amended, at a text that starts with a date marker and at the
    spec's third sample input, whose outputs hold a "Date" that the second
    pass matches again; the counterexample is outside the condition. *)
Lemma idempotent_when_second_pass_idle_witness :
  filter_target_section (filter_target_section (lit "DATE 5/1/2024"))
  = filter_target_section (lit "DATE 5/1/2024")
  /\ filter_target_section
       (filter_target_section
          (lit "JN 201222A CONTRACTFOR BRIDGE REPLACEMENT DATE 5/1/2024"))
     = filter_target_section
         (lit "JN 201222A CONTRACTFOR BRIDGE REPLACEMENT DATE 5/1/2024")
  /\ second_pass_idle (filter_target_section (lit "SHSHEETEET")) = false.
Proof.
  split; [|split].
  - apply (idempotent_when_second_pass_idle (lit "DATE 5/1/2024")).
    vm_compute. reflexivity.
  - apply (idempotent_when_second_pass_idle
             (lit "JN 201222A CONTRACTFOR BRIDGE REPLACEMENT DATE 5/1/2024")).
    vm_compute. reflexivity.
  - vm_compute. reflexivity.
Defined.
